(** * Optics: ray tracer and virtual-image generator

    A shallow embedding of [src/virtual.ts] (namespace [Virtual]) and of the
    [Scene] and [Ray] namespaces of [src/scene.ts], with the properties of
    the geometric core stated and proved over it; then of what surrounds
    the core: the scene builder and its presets, the scene queries, the
    scene edits of the driver ([moveEntity], [addEntity]) and the picking
    of the input handler.

    Numbers.  The TypeScript code computes on JavaScript numbers through
    gl-matrix's [vec2], which keeps every vector in a [Float32Array].  The
    embedding is written once over two interfaces: [Number], the
    arithmetic operations and comparisons, and [Storage], what a number
    becomes when it is written into a vector.  Everything that only
    depends on the control flow (which images are emitted, which chains are
    explored, how many bounces a ray makes, which ray is kept for an
    entity) is proved for every interpretation of the arithmetic and every
    storage; a stored vector then appears as [vec2.clone] of its value.
    Statements of geometry (a point lies on a segment, a reflection is an
    involution, concrete coordinates) are proved for the instance
    [RNumber] on the real numbers, stored as they are ([exactStorage]).
    The statements about the builder and the scene edits are proved for
    every arithmetic, with the positions stored as they are given.  The
    numbers of the implementation are [Binary64.number], binary64
    arithmetic, with [Binary64.float32Array], rounding to binary32; the
    code is evaluated on them where rounding decides what it returns.
    NaN and infinities are outside the statements; in particular
    [x < Infinity] is taken to hold for every distance the code
    computes. *)

From Stdlib Require Import List String Bool Arith Lia ZArith QArith.
From Stdlib Require Import Reals Lra Psatz FinFun.
From Stdlib Require Import DecimalString DecimalNat.
From Stdlib Require PrimFloat SpecFloat FloatOps.
Import ListNotations.
Close Scope Q_scope.
Close Scope R_scope.
Open Scope nat_scope.

Set Implicit Arguments.

(** ** Numbers *)

Class Number (num : Type) : Type := {
  ofZ : Z -> num;                 (* integer literals: 0, 1, 2, 128 ... *)
  ofQ : Q -> num;                 (* decimal literals: 0.5, 1e-6 *)
  num_add : num -> num -> num;
  num_sub : num -> num -> num;
  num_mul : num -> num -> num;
  num_div : num -> num -> num;
  num_neg : num -> num;
  num_ltb : num -> num -> bool;   (* a < b;  a > b is written b < a *)
  num_leb : num -> num -> bool;   (* a <= b; a >= b is written b <= a *)
  Math_sqrt : num -> num;
  Math_abs : num -> num;
  Math_cos : num -> num;
  Math_sin : num -> num;
  Math_PI : num
}.

Declare Scope num_scope.
Delimit Scope num_scope with num.
Infix "+" := num_add : num_scope.
Infix "-" := num_sub : num_scope.
Infix "*" := num_mul : num_scope.
Infix "/" := num_div : num_scope.
Notation "- x" := (num_neg x) : num_scope.
Infix "<?" := num_ltb : num_scope.
Infix "<=?" := num_leb : num_scope.

(** What an element of a [Float32Array] holds after a number is written
    to it: gl-matrix keeps every vector in such an array. *)
Class Storage (num : Type) : Type := {
  Math_fround : num -> num
}.

(** The real numbers, with the comparisons decided by [Rlt_dec], [Rle_dec]. *)
#[export] Instance RNumber : Number R := {|
  ofZ := IZR;
  ofQ := Q2R;
  num_add := Rplus;
  num_sub := Rminus;
  num_mul := Rmult;
  num_div := Rdiv;
  num_neg := Ropp;
  num_ltb := fun a b => if Rlt_dec a b then true else false;
  num_leb := fun a b => if Rle_dec a b then true else false;
  Math_sqrt := R_sqrt.sqrt;
  Math_abs := Rabs;
  Math_cos := Rtrigo_def.cos;
  Math_sin := Rtrigo_def.sin;
  Math_PI := Rtrigo1.PI
|}.

(** ** JavaScript numbers

    Binary64 arithmetic, round to nearest, as [PrimFloat] has it, and
    binary32 for what a [Float32Array] holds. *)
Module Binary64.
Import PrimFloat.




(** [Math.PI] *)
Definition PI : float := 0x1.921fb54442d18p+1%float.


End Binary64.

(** ** gl-matrix [vec2]

    The operations of gl-matrix that the sources call, as functions that
    return the vector the JavaScript version writes into [out]. *)
Module vec2.
Section Ops.
Context {num : Type} `{Number num} `{Storage num}.
Local Open Scope num_scope.

Definition t : Type := (num * num)%type.

Definition fromValues (x y : num) : t := (Math_fround x, Math_fround y).
Definition create : t := (ofZ 0, ofZ 0).
Definition clone (a : t) : t := (Math_fround (fst a), Math_fround (snd a)).
Definition set (x y : num) : t := (Math_fround x, Math_fround y).
Definition add (a b : t) : t :=
    (Math_fround (fst a + fst b), Math_fround (snd a + snd b)).
Definition sub (a b : t) : t :=
    (Math_fround (fst a - fst b), Math_fround (snd a - snd b)).
Definition scale (a : t) (s : num) : t :=
    (Math_fround (fst a * s), Math_fround (snd a * s)).
Definition scaleAndAdd (a b : t) (s : num) : t :=
    (Math_fround (fst a + fst b * s), Math_fround (snd a + snd b * s)).
Definition dot (a b : t) : num := fst a * fst b + snd a * snd b.

  (* var len = x*x + y*y; if (len > 0) len = 1 / Math.sqrt(len);
     out[0] = a[0] * len; out[1] = a[1] * len; *)
Definition normalize (a : t) : t :=
    let len := fst a * fst a + snd a * snd a in
    let len := if ofZ 0 <? len then ofZ 1 / Math_sqrt len else len in
    (Math_fround (fst a * len), Math_fround (snd a * len)).

Definition distance (a b : t) : num :=
    let x := fst b - fst a in
    let y := snd b - snd a in
    Math_sqrt (x * x + y * y).
Definition dist (a b : t) : num := distance a b.
End Ops.
Arguments t num : clear implicits.
End vec2.

(** ** [Scene] (scene.ts) *)
Module Scene.
Module Player.
Record t (num : Type) : Type := mk { position : vec2.t num }.
End Player.
Module Entity.
Record t (num : Type) : Type := mk {
      id : string;
      position : vec2.t num;
      vertices : vec2.t num * vec2.t num * vec2.t num
    }.
End Entity.
Module Mirror.
Record t (num : Type) : Type := mk {
      id : string;
      start : vec2.t num;
      end_ : vec2.t num
    }.
End Mirror.

Record Scene (num : Type) : Type := mkScene {
    player : Player.t num;
    entities : list (Entity.t num);
    mirrors : list (Mirror.t num)
  }.

Section Constructors.
Context {num : Type} `{Number num} `{Storage num}.
Local Open Scope num_scope.

Definition PLAYER_RADIUS : num := ofZ 12.
Definition ENTITY_SIZE : num := ofZ 8.

Definition entity (p : vec2.t num) (id : string) : Entity.t num :=
    let '(x, y) := p in
    Entity.mk id (vec2.fromValues x y)
      (vec2.fromValues x (y - ENTITY_SIZE),
       vec2.fromValues (x - ENTITY_SIZE) (y + ENTITY_SIZE),
       vec2.fromValues (x + ENTITY_SIZE) (y + ENTITY_SIZE)).
End Constructors.
End Scene.

(** JavaScript truthiness of an optional string: set and not empty. *)
Definition truthy (s : option string) : bool :=
  match s with
  | Some s => negb (String.eqb s EmptyString)
  | None => false
  end.

(** [array.includes(x)] on an array of strings. *)
Definition includes (l : list string) (x : string) : bool :=
  existsb (String.eqb x) l.

(** ** [Virtual] (virtual.ts) *)
Module Virtual.
Inductive OriginalType : Type := player | entity | mirror.

Record VirtualImage (num : Type) : Type := mkVirtualImage {
    originalId : string;
    originalType : OriginalType;
    position : vec2.t num;
    bounces : nat;
    isVisible : bool;
    mirrorChain : list string;
    virtualRoom : nat;
    mirrorData : option (vec2.t num * vec2.t num)   (* start, end *)
  }.

Section Generator.
Context {num : Type} `{Number num} `{Storage num}.
Local Open Scope num_scope.

Definition reflectPointAcrossMirror
      (point : vec2.t num) (mirror : Scene.Mirror.t num) : vec2.t num :=
    let mirrorDir := vec2.sub (Scene.Mirror.end_ mirror) (Scene.Mirror.start mirror) in
    let mirrorDir := vec2.normalize mirrorDir in
    let normal := vec2.set (- snd mirrorDir) (fst mirrorDir) in
    let toPoint := vec2.sub point (Scene.Mirror.start mirror) in
    let distanceToMirror := vec2.dot toPoint normal in
    vec2.scaleAndAdd point normal (ofZ (-2) * distanceToMirror).

Definition reflectMirrorAcrossMirror
      (mirror reflectingMirror : Scene.Mirror.t num) : Scene.Mirror.t num :=
    let reflectedStart :=
      reflectPointAcrossMirror (Scene.Mirror.start mirror) reflectingMirror in
    let reflectedEnd :=
      reflectPointAcrossMirror (Scene.Mirror.end_ mirror) reflectingMirror in
    Scene.Mirror.mk (Scene.Mirror.id mirror) reflectedStart reflectedEnd.

Definition isPointInBounds (bounds point : vec2.t num) : bool :=
    let '(width, height) := bounds in
    (- width <=? fst point) && (fst point <=? width * ofZ 2) &&
    (- height <=? snd point) && (snd point <=? height * ofZ 2).

  (** The image pushed for the player, if any. *)
Definition playerImages (bounds : vec2.t num) (room : Scene.Scene num)
      (reflectingMirror : Scene.Mirror.t num) (roomNumber : nat)
      (mirrorChain : list string) : list (VirtualImage num) :=
    let virtualPlayer :=
      reflectPointAcrossMirror
        (Scene.Player.position (Scene.player room)) reflectingMirror in
    if isPointInBounds bounds virtualPlayer then
      [ mkVirtualImage "player" player virtualPlayer roomNumber true
          (mirrorChain ++ [Scene.Mirror.id reflectingMirror]) roomNumber None ]
    else [].

  (** The body of the loop over the entities of the room. *)
Definition entityImages (bounds : vec2.t num)
      (reflectingMirror : Scene.Mirror.t num) (roomNumber : nat)
      (mirrorChain : list string) (e : Scene.Entity.t num)
      : list (VirtualImage num) :=
    let virtualEntity :=
      reflectPointAcrossMirror (Scene.Entity.position e) reflectingMirror in
    if isPointInBounds bounds virtualEntity then
      [ mkVirtualImage (Scene.Entity.id e) entity virtualEntity roomNumber true
          (mirrorChain ++ [Scene.Mirror.id reflectingMirror]) roomNumber None ]
    else [].

  (** The body of the loop over the mirrors of the room. *)
Definition mirrorImages (bounds : vec2.t num)
      (reflectingMirror : Scene.Mirror.t num) (roomNumber : nat)
      (mirrorChain : list string) (m : Scene.Mirror.t num)
      : list (VirtualImage num) :=
    let virtualMirror := reflectMirrorAcrossMirror m reflectingMirror in
    let mirrorCenter :=
      vec2.add (Scene.Mirror.start virtualMirror) (Scene.Mirror.end_ virtualMirror) in
    let mirrorCenter := vec2.scale mirrorCenter (ofQ (1 # 2)%Q) in
    if isPointInBounds bounds (Scene.Mirror.start virtualMirror)
       || isPointInBounds bounds (Scene.Mirror.end_ virtualMirror)
       || isPointInBounds bounds mirrorCenter
    then
      [ mkVirtualImage (Scene.Mirror.id m) mirror mirrorCenter roomNumber true
          (mirrorChain ++ [Scene.Mirror.id reflectingMirror]) roomNumber
          (Some (vec2.clone (Scene.Mirror.start virtualMirror),
                 vec2.clone (Scene.Mirror.end_ virtualMirror))) ]
    else [].

Definition createVirtualRoom (bounds : vec2.t num)
      (currentRoomState : Scene.Scene num)
      (reflectingMirror : Scene.Mirror.t num) (roomNumber : nat)
      (mirrorChain : list string) : list (VirtualImage num) :=
    playerImages bounds currentRoomState reflectingMirror roomNumber mirrorChain
    ++ flat_map (entityImages bounds reflectingMirror roomNumber mirrorChain)
         (Scene.entities currentRoomState)
    ++ flat_map (mirrorImages bounds reflectingMirror roomNumber mirrorChain)
         (Scene.mirrors currentRoomState).

  (** The room handed to the nested call: everything reflected across
      [mirror]. *)
Definition nextRoom (currentRoom : Scene.Scene num)
      (mirror : Scene.Mirror.t num) : Scene.Scene num :=
    Scene.mkScene
      (Scene.Player.mk
         (reflectPointAcrossMirror
            (Scene.Player.position (Scene.player currentRoom)) mirror))
      (map (fun e =>
              Scene.Entity.mk (Scene.Entity.id e)
                (reflectPointAcrossMirror (Scene.Entity.position e) mirror)
                (Scene.Entity.vertices e))
           (Scene.entities currentRoom))
      (map (fun m => reflectMirrorAcrossMirror m mirror)
           (Scene.mirrors currentRoom)).

  (** [for (const mirror of originalMirrors) { ... }] with a body that may
      run out of fuel: the images of the iterations, in order. *)
Fixpoint forEachMirror (body : Scene.Mirror.t num -> option (list (VirtualImage num)))
      (ms : list (Scene.Mirror.t num)) : option (list (VirtualImage num)) :=
    match ms with
    | [] => Some []
    | m :: rest =>
        match body m with
        | None => None
        | Some here =>
            match forEachMirror body rest with
            | None => None
            | Some after => Some (here ++ after)
            end
        end
    end.

  (** The recursion of [calculateVirtualRoomsRecursive].  It is not
      structural in the source; [fuel] bounds the number of nested calls
      and [None] means that this bound was hit. *)
Fixpoint calculateVirtualRoomsRecursive (fuel : nat) (bounds : vec2.t num)
      (currentRoom : Scene.Scene num)
      (originalMirrors : list (Scene.Mirror.t num))
      (roomNumber : nat) (mirrorChain : list string)
      : option (list (VirtualImage num)) :=
    match fuel with
    | O => None
    | S fuel' =>
        forEachMirror
          (fun mirror =>
             if includes mirrorChain (Scene.Mirror.id mirror) then Some []
             else
               let roomImages :=
                 createVirtualRoom bounds currentRoom mirror roomNumber mirrorChain in
               match
                 calculateVirtualRoomsRecursive fuel' bounds
                   (nextRoom currentRoom mirror) originalMirrors
                   (roomNumber + 1) (mirrorChain ++ [Scene.Mirror.id mirror])
               with
               | None => None
               | Some nestedImages => Some (roomImages ++ nestedImages)
               end)
          originalMirrors
    end.

  (** The entry point; one level of nesting per mirror of the scene, and
      one more for the outermost call. *)
Definition calculateVirtualImages (scene : Scene.Scene num)
      (bounds : vec2.t num) : option (list (VirtualImage num)) :=
    let currentRoom :=
      Scene.mkScene (Scene.player scene) (Scene.entities scene) (Scene.mirrors scene) in
    calculateVirtualRoomsRecursive (S (List.length (Scene.mirrors scene))) bounds
      currentRoom (Scene.mirrors scene) 1 [].
End Generator.
End Virtual.

(** ** [Ray] (scene.ts) *)
Module Ray.
Module Intersection.
Record t (num : Type) : Type := mk {
  point : vec2.t num;
  distance : num;
  normal : vec2.t num;
  mirrorId : option string;
  entityId : option string
}.
End Intersection.

Record Ray (num : Type) : Type := mkRay {
  origin : vec2.t num;
  direction : vec2.t num;
  history : list (vec2.t num);
  entityId : option string
}.

Section Tracer.
Context {num : Type} `{Number num} `{Storage num}.
Local Open Scope num_scope.

Definition EPSILON : num := ofQ (1 # 1000000)%Q.
Definition MAX_BOUNCES : nat := 10.
Definition rayCount : nat := 128.

Definition rayLineIntersection
    (rayOrigin rayDirection lineStart lineEnd : vec2.t num)
    : option (Intersection.t num) :=
  let lineDir := vec2.sub lineEnd lineStart in
  let rayToLineStart := vec2.sub lineStart rayOrigin in
  let cross1 :=
    fst rayDirection * snd lineDir - snd rayDirection * fst lineDir in
  if Math_abs cross1 <? EPSILON then None
  else
    let cross2 :=
      fst rayToLineStart * snd lineDir - snd rayToLineStart * fst lineDir in
    let t := cross2 / cross1 in
    if t <? EPSILON then None
    else
      let cross3 :=
        fst rayToLineStart * snd rayDirection
        - snd rayToLineStart * fst rayDirection in
      let u := cross3 / cross1 in
      if (u <? ofZ 0) || (ofZ 1 <? u) then None
      else
        let intersection := vec2.scaleAndAdd rayOrigin rayDirection t in
        let normal :=
          vec2.normalize (vec2.set (- snd lineDir) (fst lineDir)) in
        Some (Intersection.mk intersection t normal None None).

Definition rayCircleIntersection
    (rayOrigin rayDirection center : vec2.t num) (radius : num)
    : option (Intersection.t num) :=
  let toCenter := vec2.sub center rayOrigin in
  let projLength := vec2.dot toCenter rayDirection in
  if projLength <? ofZ 0 then None
  else
    let projection := vec2.scale rayDirection projLength in
    let closestPoint := vec2.add rayOrigin projection in
    let distanceToCenter := vec2.distance closestPoint center in
    if radius <? distanceToCenter then None
    else
      let halfChord :=
        Math_sqrt (radius * radius - distanceToCenter * distanceToCenter) in
      let intersectionDistance := projLength - halfChord in
      if intersectionDistance <? EPSILON then None
      else
        let intersection :=
          vec2.scaleAndAdd rayOrigin rayDirection intersectionDistance in
        let normal := vec2.normalize (vec2.sub intersection center) in
        Some (Intersection.mk intersection intersectionDistance normal None None).

Definition reflect (direction normal : vec2.t num) : vec2.t num :=
  let dot := vec2.dot direction normal in
  vec2.scaleAndAdd direction normal (ofZ (-2) * dot).

(** The outward normal [rayTriangleIntersection] attaches to a hit. *)
Definition triangleNormal (v0 v1 v2 : vec2.t num) : vec2.t num :=
  let edge1 := vec2.sub v1 v0 in
  let edge2 := vec2.sub v2 v0 in
  let cross := fst edge1 * snd edge2 - snd edge1 * fst edge2 in
  let normal :=
    if ofZ 0 <? cross
    then vec2.set (snd edge2 - snd edge1) (fst edge1 - fst edge2)
    else vec2.set (snd edge1 - snd edge2) (fst edge2 - fst edge1) in
  vec2.normalize normal.

(** [for (let i = 0; i < 3; i++)] over the edges [i], [(i + 1) % 3]: the
    first edge that is hit decides. *)
Fixpoint firstEdgeHit (rayOrigin rayDirection : vec2.t num)
    (edges : list (vec2.t num * vec2.t num)) : option (Intersection.t num) :=
  match edges with
  | [] => None
  | (edgeStart, edgeEnd) :: rest =>
      match rayLineIntersection rayOrigin rayDirection edgeStart edgeEnd with
      | Some edgeIntersection => Some edgeIntersection
      | None => firstEdgeHit rayOrigin rayDirection rest
      end
  end.

Definition rayTriangleIntersection (rayOrigin rayDirection : vec2.t num)
    (vertices : vec2.t num * vec2.t num * vec2.t num)
    : option (Intersection.t num) :=
  let '(v0, v1, v2) := vertices in
  match firstEdgeHit rayOrigin rayDirection [(v0, v1); (v1, v2); (v2, v0)] with
  | Some edgeIntersection =>
      Some (Intersection.mk (Intersection.point edgeIntersection)
              (Intersection.distance edgeIntersection)
              (triangleNormal v0 v1 v2) None None)
  | None => None
  end.

(** [intersection.distance < minDistance], where [minDistance] is
    [Infinity] until a first hit is kept and the distance of the kept hit
    afterwards. *)
Definition closer (i : Intersection.t num)
    (nearest : option (Intersection.t num)) : bool :=
  match nearest with
  | None => true
  | Some n => Intersection.distance i <? Intersection.distance n
  end.

Definition nearestMirrorStep (rayOrigin rayDirection : vec2.t num)
    (nearest : option (Intersection.t num)) (mirror : Scene.Mirror.t num)
    : option (Intersection.t num) :=
  match rayLineIntersection rayOrigin rayDirection
          (Scene.Mirror.start mirror) (Scene.Mirror.end_ mirror) with
  | Some intersection =>
      if closer intersection nearest
      then Some (Intersection.mk (Intersection.point intersection)
                   (Intersection.distance intersection)
                   (Intersection.normal intersection)
                   (Some (Scene.Mirror.id mirror))
                   (Intersection.entityId intersection))
      else nearest
  | None => nearest
  end.

Definition nearestPlayerStep (rayOrigin rayDirection : vec2.t num)
    (nearest : option (Intersection.t num)) (player : Scene.Player.t num)
    : option (Intersection.t num) :=
  match rayCircleIntersection rayOrigin rayDirection
          (Scene.Player.position player) Scene.PLAYER_RADIUS with
  | Some playerIntersection =>
      if closer playerIntersection nearest then Some playerIntersection
      else nearest
  | None => nearest
  end.

Definition nearestEntityStep (rayOrigin rayDirection : vec2.t num)
    (nearest : option (Intersection.t num)) (entity : Scene.Entity.t num)
    : option (Intersection.t num) :=
  match rayTriangleIntersection rayOrigin rayDirection
          (Scene.Entity.vertices entity) with
  | Some entityIntersection =>
      if closer entityIntersection nearest
      then Some (Intersection.mk (Intersection.point entityIntersection)
                   (Intersection.distance entityIntersection)
                   (Intersection.normal entityIntersection)
                   (Intersection.mirrorId entityIntersection)
                   (Some (Scene.Entity.id entity)))
      else nearest
  | None => nearest
  end.

Definition findNearestIntersection (rayOrigin rayDirection : vec2.t num)
    (scene : Scene.Scene num) (ignorePlayer : bool)
    : option (Intersection.t num) :=
  let nearest :=
    fold_left (nearestMirrorStep rayOrigin rayDirection)
      (Scene.mirrors scene) None in
  let nearest :=
    if negb ignorePlayer
    then nearestPlayerStep rayOrigin rayDirection nearest (Scene.player scene)
    else nearest in
  fold_left (nearestEntityStep rayOrigin rayDirection)
    (Scene.entities scene) nearest.

(** The [while (bounces < maxBounces)] loop of [traceRay].  [remaining] is
    [maxBounces - bounces]: it goes down by one exactly when [bounces++]
    runs, every other path leaves the loop, and the loop condition fails
    when it reaches 0.  [ray] carries the history pushed so far. *)
Fixpoint traceLoop (remaining : nat) (scene : Scene.Scene num)
    (ray : Ray num) (currentOrigin currentDirection : vec2.t num)
    (hitMirror : bool) : option (Ray num) :=
  match remaining with
  | O => None
  | S remaining' =>
      match findNearestIntersection currentOrigin currentDirection scene true with
      | None => None
      | Some intersection =>
          let ray :=
            mkRay (origin ray) (direction ray)
              (history ray ++ [vec2.clone (Intersection.point intersection)])
              (entityId ray) in
          if truthy (Intersection.mirrorId intersection) then
            let reflectedDirection :=
              reflect currentDirection (Intersection.normal intersection) in
            traceLoop remaining' scene ray
              (vec2.clone (Intersection.point intersection))
              reflectedDirection true
          else if hitMirror && truthy (Intersection.entityId intersection) then
            Some (mkRay (origin ray) (direction ray) (history ray)
                    (Intersection.entityId intersection))
          else None
      end
  end.

Definition traceRay (origin direction : vec2.t num)
    (scene : Scene.Scene num) (maxBounces : nat) : option (Ray num) :=
  let ray :=
    mkRay (vec2.clone origin) (vec2.clone direction) [vec2.clone origin] None in
  traceLoop maxBounces scene ray (vec2.clone origin) (vec2.clone direction) false.

Definition lastIntersection (ray : Ray num) : vec2.t num :=
  nth (List.length (history ray) - 1) (history ray) vec2.create.

(** [Array.prototype.sort(compare)]: a stable sort; [a] is placed before
    [b] when [compare(a, b) <= 0].  For a comparator that is a consistent
    order, as the difference of two distances is, every implementation
    returns this array. *)
Fixpoint insertSorted {A : Type} (compare : A -> A -> num) (a : A)
    (sorted : list A) : list A :=
  match sorted with
  | [] => [a]
  | b :: rest =>
      if compare a b <=? ofZ 0 then a :: b :: rest
      else b :: insertSorted compare a rest
  end.

Definition sort {A : Type} (compare : A -> A -> num) (l : list A) : list A :=
  fold_right (insertSorted compare) [] l.

(** [ray.entityId === entity.id] *)
Definition targets (ray : Ray num) (entity : Scene.Entity.t num) : bool :=
  match entityId ray with
  | Some id => String.eqb id (Scene.Entity.id entity)
  | None => false
  end.

(** The first loop of [trace]: the rays that are pushed into [rays]. *)
Definition castRay (scene : Scene.Scene num) (i : nat) : list (Ray num) :=
  let angle :=
    (ofZ (Z.of_nat i) / ofZ (Z.of_nat rayCount)) * Math_PI * ofZ 2 in
  let direction := vec2.fromValues (Math_cos angle) (Math_sin angle) in
  match traceRay (Scene.Player.position (Scene.player scene)) direction scene
          MAX_BOUNCES with
  | Some ray =>
      if Nat.ltb 1 (List.length (history ray)) && truthy (entityId ray)
      then [ray] else []
  | None => []
  end.

Definition castRays (scene : Scene.Scene num) : list (Ray num) :=
  flat_map (castRay scene) (seq 0 rayCount).

(** The comparator handed to [sort] for one entity. *)
Definition byDistanceTo (entity : Scene.Entity.t num) (rayA rayB : Ray num)
    : num :=
  let intersectionDistanceA :=
    vec2.dist (lastIntersection rayA) (Scene.Entity.position entity) in
  let intersectionDistanceB :=
    vec2.dist (lastIntersection rayB) (Scene.Entity.position entity) in
  intersectionDistanceA - intersectionDistanceB.

(** [rays.filter(...).sort(...)[0]] for one entity: [None] is
    [undefined]. *)
Definition bestRay (rays : list (Ray num)) (entity : Scene.Entity.t num)
    : option (Ray num) :=
  hd_error (sort (byDistanceTo entity)
              (filter (fun ray => targets ray entity) rays)).

(** [.filter(Boolean)] on an array of rays and [undefined]s. *)
Definition filterBoolean (l : list (option (Ray num))) : list (Ray num) :=
  flat_map (fun o => match o with Some ray => [ray] | None => [] end) l.

Definition trace (scene : Scene.Scene num) : list (Ray num) :=
  let rays := castRays scene in
  filterBoolean (map (bestRay rays) (Scene.entities scene)).
End Tracer.
End Ray.

(** ** Exact storage

    Numbers stored as they are.  A statement made where a [Storage] is
    at hand holds for every storage; the statements on the real numbers,
    and those about the builder and the scene edits, are about this
    one. *)
#[export] Instance exactStorage {num : Type} : Storage num := {|
  Math_fround := fun x => x
|}.

(** * Vocabulary of the statements *)

(** ** Virtual images *)

Section ImageVocabulary.
Context {num : Type} `{Number num} `{Storage num}.

(** The mirrors that may still be reflected across: the measure that
    goes down at every nested call. *)
Definition unusedMirrors (orig : list (Scene.Mirror.t num))
    (chain : list string) : list (Scene.Mirror.t num) :=
  filter (fun m => negb (includes chain (Scene.Mirror.id m))) orig.

Definition isPlayerImage (img : Virtual.VirtualImage num) : bool :=
  match Virtual.originalType img with
  | Virtual.player => true
  | _ => false
  end.
End ImageVocabulary.

Section ExploredRooms.
Context {num : Type} `{Number num} `{Storage num}.

(** The states [calculateVirtualRoomsRecursive] is called with, starting
    from the call [calculateVirtualImages] makes: the current room, the
    room number and the mirror chain. *)
Inductive Explored (scene : Scene.Scene num)
    : Scene.Scene num -> nat -> list string -> Prop :=
| Explored_first :
    Explored scene
      (Scene.mkScene (Scene.player scene) (Scene.entities scene)
         (Scene.mirrors scene)) 1 []
| Explored_nested room n chain m :
    Explored scene room n chain ->
    In m (Scene.mirrors scene) ->
    includes chain (Scene.Mirror.id m) = false ->
    Explored scene (Virtual.nextRoom room m) (n + 1)
      (chain ++ [Scene.Mirror.id m]).
End ExploredRooms.

(** ** Concrete scenes, on the real numbers *)

Module Scenes.
Local Open Scope R_scope.
Local Open Scope string_scope.

Definition mirror_1 : Scene.Mirror.t R :=
  Scene.Mirror.mk "mirror_1" (300, 200) (300, 400).

(** The viewer at (400,300) and the single mirror (300,200)-(300,400),
    with any entities. *)
Definition singleMirrorWith (entities : list (Scene.Entity.t R))
    : Scene.Scene R :=
  Scene.mkScene (Scene.Player.mk (400, 300)) entities [mirror_1].

(** The image of [mirror_1] in the room it produces itself. *)
Definition mirror_1_in_own_room : Virtual.VirtualImage R :=
  Virtual.mkVirtualImage "mirror_1" Virtual.mirror (300, 300) 1 true
    ["mirror_1"] 1 (Some ((300, 200), (300, 400))).

(** The viewer between the mirror and an entity: the entity at (450,300)
    is seen directly, and also in the mirror. *)
Definition facingMirror : Scene.Scene R :=
  Scene.mkScene (Scene.Player.mk (400, 300))
    [Scene.entity (450, 300) "entity_1"] [mirror_1].

(** The ray that leaves the viewer of [facingMirror] towards the mirror. *)
Definition bouncedRay : Ray.Ray R :=
  Ray.mkRay (400, 300) (-1, 0) [(400, 300); (300, 300); (446, 300)]
    (Some "entity_1").

(** The preset [singleMirror]. *)
Definition singleMirrorPreset : Scene.Scene R :=
  singleMirrorWith [Scene.entity (350, 250) "entity_1"].

(** The preset [singleMirror] after [entity_1] was moved to (450,300) and
    an entity was added at (400,250): both entities have the id
    [entity_2]. *)
Definition sameIdTwice : Scene.Scene R :=
  Scene.mkScene (Scene.Player.mk (400, 300))
    [Scene.entity (450, 300) "entity_2"; Scene.entity (400, 250) "entity_2"]
    [mirror_1].


(** The ray that leaves the viewer of [sameIdTwice] towards the mirror. *)
Definition bouncedRay2 : Ray.Ray R :=
  Ray.mkRay (400, 300) (-1, 0) [(400, 300); (300, 300); (446, 300)]
    (Some "entity_2").
End Scenes.

(** ** Rays *)

Section RayVocabulary.
Context {num : Type} `{Number num} `{Storage num}.

(** [p] is the point, as the history stores it, where
    [rayLineIntersection] found some ray meeting a mirror of the scene. *)
Definition MirrorHit (scene : Scene.Scene num) (p : vec2.t num) : Prop :=
  exists rayOrigin rayDirection m i,
    In m (Scene.mirrors scene) /\
    Ray.rayLineIntersection rayOrigin rayDirection
      (Scene.Mirror.start m) (Scene.Mirror.end_ m) = Some i /\
    p = vec2.clone (Ray.Intersection.point i).

(** [p] is the point, as the history stores it, where
    [rayTriangleIntersection] found some ray meeting the triangle of the
    entity [e]. *)
Definition EntityHit (e : Scene.Entity.t num) (p : vec2.t num) : Prop :=
  exists rayOrigin rayDirection i,
    Ray.rayTriangleIntersection rayOrigin rayDirection
      (Scene.Entity.vertices e) = Some i /\
    p = vec2.clone (Ray.Intersection.point i).

(** The path of an accepted ray: it starts at the viewer (the stored
    position of the player), bounces off mirrors at [hits], and ends at
    [final] on the entity it illuminates. *)
Definition BouncedPath (scene : Scene.Scene num) (ray : Ray.Ray num)
    (hits : list (vec2.t num)) (final : vec2.t num) : Prop :=
  Ray.history ray
  = vec2.clone (Scene.Player.position (Scene.player scene)) :: hits ++ [final] /\
  Forall (MirrorHit scene) hits /\
  exists e,
    In e (Scene.entities scene) /\
    Ray.entityId ray = Some (Scene.Entity.id e) /\
    EntityHit e final.

(** Some ray pushed by the first loop of [trace] targets the entity. *)
Definition hasCandidate (scene : Scene.Scene num)
    (entity : Scene.Entity.t num) : bool :=
  existsb (fun ray => Ray.targets ray entity) (Ray.castRays scene).
End RayVocabulary.

Section SegmentVocabulary.
Local Open Scope R_scope.

(** [p] lies on the segment from [s] to [e]. *)
Definition onSegment (p s e : vec2.t R) : Prop :=
  exists u, 0 <= u <= 1 /\
    p = (fst s + u * (fst e - fst s), snd s + u * (snd e - snd s)).

Definition onSomeMirror (scene : Scene.Scene R) (p : vec2.t R) : Prop :=
  exists m, In m (Scene.mirrors scene) /\
            onSegment p (Scene.Mirror.start m) (Scene.Mirror.end_ m).

End SegmentVocabulary.

Section NearestVocabulary.
Context {num : Type} `{Number num} `{Storage num}.

(** What [findNearestIntersection] returns when the player is ignored:
    a hit on a mirror, tagged with the id of the mirror, or a hit on an
    entity, tagged with the id of the entity. *)
Inductive Tagged (scene : Scene.Scene num) (rayOrigin rayDirection : vec2.t num)
    (n : Ray.Intersection.t num) : Prop :=
| Tagged_mirror m i :
    In m (Scene.mirrors scene) ->
    Ray.rayLineIntersection rayOrigin rayDirection
      (Scene.Mirror.start m) (Scene.Mirror.end_ m) = Some i ->
    Ray.Intersection.point n = Ray.Intersection.point i ->
    Ray.Intersection.mirrorId n = Some (Scene.Mirror.id m) ->
    Ray.Intersection.entityId n = None ->
    Tagged scene rayOrigin rayDirection n
| Tagged_entity e i :
    In e (Scene.entities scene) ->
    Ray.rayTriangleIntersection rayOrigin rayDirection
      (Scene.Entity.vertices e) = Some i ->
    Ray.Intersection.point n = Ray.Intersection.point i ->
    Ray.Intersection.mirrorId n = None ->
    Ray.Intersection.entityId n = Some (Scene.Entity.id e) ->
    Tagged scene rayOrigin rayDirection n.
End NearestVocabulary.

(** ** Reflection sequences *)

Section ChainVocabulary.
Context {num : Type} `{Number num} `{Storage num}.

(** The room reached from the scene through the mirrors [ms], in order. *)
Definition roomThrough (scene : Scene.Scene num)
    (ms : list (Scene.Mirror.t num)) : Scene.Scene num :=
  fold_left Virtual.nextRoom ms
    (Scene.mkScene (Scene.player scene) (Scene.entities scene)
       (Scene.mirrors scene)).

(** A point reflected across the mirrors [ms], in order. *)
Definition reflectThrough (ms : list (Scene.Mirror.t num))
    (p : vec2.t num) : vec2.t num :=
  fold_left Virtual.reflectPointAcrossMirror ms p.

(** A sequence of mirrors of the scene that [calculateVirtualImages]
    reflects across one after the other: not empty, no id twice. *)
Definition reflectionSequence (scene : Scene.Scene num)
    (ms : list (Scene.Mirror.t num)) : Prop :=
  ms <> [] /\ incl ms (Scene.mirrors scene) /\
  NoDup (map (@Scene.Mirror.id num) ms).

(** What tells two images apart: kind, original id and mirror chain. *)
Definition imageKey (img : Virtual.VirtualImage num)
    : Virtual.OriginalType * string * list string :=
  (Virtual.originalType img, Virtual.originalId img, Virtual.mirrorChain img).
(** Where an image comes from: its original, reflected through the
    mirrors of its chain.  A mirror image carries copies of the reflected
    endpoints. *)
Definition imageOrigin (scene : Scene.Scene num)
    (img : Virtual.VirtualImage num) : Prop :=
  exists ms,
    reflectionSequence scene ms /\
    Virtual.mirrorChain img = map (@Scene.Mirror.id num) ms /\
    match Virtual.originalType img with
    | Virtual.player =>
        Virtual.position img
        = reflectThrough ms (Scene.Player.position (Scene.player scene))
    | Virtual.entity =>
        exists e,
          In e (Scene.entities scene) /\
          Virtual.originalId img = Scene.Entity.id e /\
          Virtual.position img = reflectThrough ms (Scene.Entity.position e)
    | Virtual.mirror =>
        exists m,
          In m (Scene.mirrors scene) /\
          Virtual.originalId img = Scene.Mirror.id m /\
          Virtual.mirrorData img
          = Some (vec2.clone (reflectThrough ms (Scene.Mirror.start m)),
                  vec2.clone (reflectThrough ms (Scene.Mirror.end_ m))) /\
          Virtual.position img
          = vec2.scale (vec2.add (reflectThrough ms (Scene.Mirror.start m))
                          (reflectThrough ms (Scene.Mirror.end_ m)))
              (ofQ (1 # 2)%Q)
    end.
End ChainVocabulary.

(** ** The bounds rectangle *)

Section BoundsVocabulary.
Context {num : Type} `{Number num} `{Storage num}.
Local Open Scope num_scope.

(** [p] is in the rectangle [-width, 2*width] x [-height, 2*height]:
    [-width <= x <= 2*width] and [-height <= y <= 2*height], by the
    comparison of the arithmetic at hand. *)
Definition inRectangle (bounds p : vec2.t num) : Prop :=
  (- fst bounds <=? fst p) = true /\ (fst p <=? fst bounds * ofZ 2) = true /\
  (- snd bounds <=? snd p) = true /\ (snd p <=? snd bounds * ofZ 2) = true.

(** The image of the mirror [m] of the scene seen through the mirrors
    [ms], reflected across them in order: it carries copies of the
    reflected endpoints and sits at their midpoint. *)
Definition reflectedMirrorImage (ms : list (Scene.Mirror.t num))
    (m : Scene.Mirror.t num) : Virtual.VirtualImage num :=
  let s := reflectThrough ms (Scene.Mirror.start m) in
  let e := reflectThrough ms (Scene.Mirror.end_ m) in
  Virtual.mkVirtualImage (Scene.Mirror.id m) Virtual.mirror
    (vec2.scale (vec2.add s e) (ofQ (1 # 2)%Q))
    (List.length ms) true (map (@Scene.Mirror.id num) ms) (List.length ms)
    (Some (vec2.clone s, vec2.clone e)).

(** One of the reflected start, the reflected end and their midpoint is
    in the rectangle. *)
Definition reflectedMirrorInBounds (bounds : vec2.t num)
    (ms : list (Scene.Mirror.t num)) (m : Scene.Mirror.t num) : Prop :=
  let s := reflectThrough ms (Scene.Mirror.start m) in
  let e := reflectThrough ms (Scene.Mirror.end_ m) in
  inRectangle bounds s \/ inRectangle bounds e \/
  inRectangle bounds (vec2.scale (vec2.add s e) (ofQ (1 # 2)%Q)).

(** What the bounds filter leaves of an image.  A player or entity image
    has its position in the rectangle.  A mirror image is the image of a
    mirror of the scene through a sequence of mirrors of the scene, it
    carries the reflected segment, its position is the midpoint of that
    segment, and the reflected start, the reflected end or the midpoint is
    in the rectangle. *)
Definition boundsFiltered (scene : Scene.Scene num) (bounds : vec2.t num)
    (img : Virtual.VirtualImage num) : Prop :=
  match Virtual.originalType img with
  | Virtual.player | Virtual.entity => inRectangle bounds (Virtual.position img)
  | Virtual.mirror =>
      exists ms m,
        reflectionSequence scene ms /\ In m (Scene.mirrors scene) /\
        img = reflectedMirrorImage ms m /\
        reflectedMirrorInBounds bounds ms m
  end.
End BoundsVocabulary.

(** ** The selection of [trace] *)

Section SelectionVocabulary.
Context {num : Type} `{Number num} `{Storage num}.
Local Open Scope num_scope.

(** [a - b <= 0], the test by which [sort] places a ray at distance [a]
    before one at distance [b]: [a] is not the farther of the two. *)
Definition notFarther (a b : num) : Prop := (a - b <=? ofZ 0) = true.

(** What [trace] keeps for one entity of the list.  A ray: a candidate
    with the id of the entity, whose final history point is not farther
    from the position of the entity than the final history point of any
    candidate with that id.  No ray: no candidate has the id. *)
Definition selectedFor (scene : Scene.Scene num) (e : Scene.Entity.t num)
    (pick : option (Ray.Ray num)) : Prop :=
  match pick with
  | Some r =>
      In r (Ray.castRays scene) /\
      Ray.entityId r = Some (Scene.Entity.id e) /\
      exists rest final,
        Ray.history r = rest ++ [final] /\
        forall c rest' final',
          In c (Ray.castRays scene) ->
          Ray.entityId c = Some (Scene.Entity.id e) ->
          Ray.history c = rest' ++ [final'] ->
          notFarther (vec2.distance final (Scene.Entity.position e))
            (vec2.distance final' (Scene.Entity.position e))
  | None =>
      forall c, In c (Ray.castRays scene) ->
                Ray.entityId c <> Some (Scene.Entity.id e)
  end.

(** [d] is the distance, from the position of the entity [e], of the
    final history point of a candidate with the id of [e]. *)
Definition finalDistance (scene : Scene.Scene num) (e : Scene.Entity.t num)
    (d : num) : Prop :=
  exists c rest final,
    In c (Ray.castRays scene) /\
    Ray.entityId c = Some (Scene.Entity.id e) /\
    Ray.history c = rest ++ [final] /\
    d = vec2.distance final (Scene.Entity.position e).

(** The test of the comparator orders the distances it is given for the
    entity [e]: any two can be compared, and the comparison is transitive.
    On the real numbers this always holds; on floating-point numbers it
    holds as long as none of these distances is [NaN]. *)
Definition ordersCandidates (scene : Scene.Scene num)
    (e : Scene.Entity.t num) : Prop :=
  (forall a b,
     finalDistance scene e a -> finalDistance scene e b ->
     notFarther a b \/ notFarther b a) /\
  (forall a b c,
     finalDistance scene e a -> finalDistance scene e b ->
     finalDistance scene e c ->
     notFarther a b -> notFarther b c -> notFarther a c).

(** The rays of a list of optional rays, in order. *)
Definition kept (picks : list (option (Ray.Ray num))) : list (Ray.Ray num) :=
  flat_map (fun pick => match pick with Some r => [r] | None => [] end) picks.
End SelectionVocabulary.

Section NearestCandidates.
Local Open Scope R_scope.

(** [nearest] is a candidate whose distance is in [Seen] and at most
    every distance in [Seen]; there is none only when [Seen] is empty. *)
Definition LowerBound (nearest : option (Ray.Intersection.t R))
    (Seen : R -> Prop) : Prop :=
  match nearest with
  | Some n =>
      Seen (Ray.Intersection.distance n) /\
      forall x, Seen x -> Ray.Intersection.distance n <= x
  | None => forall x, ~ Seen x
  end.

(** The distances of everything [findNearestIntersection] looks at. *)
Definition candidateDistance (o d : vec2.t R) (scene : Scene.Scene R)
    (ignorePlayer : bool) (x : R) : Prop :=
  (exists m i, In m (Scene.mirrors scene) /\
     Ray.rayLineIntersection o d (Scene.Mirror.start m) (Scene.Mirror.end_ m)
     = Some i /\ x = Ray.Intersection.distance i) \/
  (ignorePlayer = false /\
   exists i, Ray.rayCircleIntersection o d
               (Scene.Player.position (Scene.player scene)) Scene.PLAYER_RADIUS
             = Some i /\ x = Ray.Intersection.distance i) \/
  (exists e i, In e (Scene.entities scene) /\
     Ray.rayTriangleIntersection o d (Scene.Entity.vertices e) = Some i /\
     x = Ray.Intersection.distance i).
End NearestCandidates.

(** ** The rest of [Scene], [SceneBuilder], and the scene edits of
    [Lesson] (scene.ts, lesson.ts) *)

(** [`${n}`] for a non-negative integer: its decimal digits. *)
Definition toString (n : nat) : string :=
  NilEmpty.string_of_uint (Nat.to_uint n).

(** [array.findIndex(f)]: [None] is -1. *)
Fixpoint findIndex {A : Type} (f : A -> bool) (l : list A) : option nat :=
  match l with
  | [] => None
  | x :: rest =>
      if f x then Some 0
      else match findIndex f rest with
           | Some i => Some (S i)
           | None => None
           end
  end.

(** [array[i] = x] on a copy of the array, for an index inside it. *)
Fixpoint assignAt {A : Type} (i : nat) (x : A) (l : list A) : list A :=
  match l, i with
  | [], _ => []
  | _ :: rest, O => x :: rest
  | y :: rest, S i' => y :: assignAt i' x rest
  end.

Module SceneQueries.
Section Queries.
Context {num : Type} `{Number num} `{Storage num}.
Local Open Scope num_scope.

(** [Scene.findEntity]: the player, an entity, or [null]. *)
Definition findEntity (scene : Scene.Scene num) (entityId : string)
    : option (Scene.Player.t num + Scene.Entity.t num) :=
  if String.eqb entityId "player" then Some (inl (Scene.player scene))
  else
    match find (fun entity => String.eqb (Scene.Entity.id entity) entityId)
            (Scene.entities scene) with
    | Some entity => Some (inr entity)
    | None => None
    end.
End Queries.
End SceneQueries.

Module SceneBuilder.
(** [current], a partial scene: a key is present or not. *)
Record Builder (num : Type) : Type := mkBuilder {
  player : option (Scene.Player.t num);
  entities : option (list (Scene.Entity.t num));
  mirrors : option (list (Scene.Mirror.t num))
}.

Section Builder.
Context {num : Type} `{Number num} `{Storage num}.

Definition make : Builder num := mkBuilder None None None.

Definition addPlayer (position : vec2.t num) (current : Builder num)
    : Builder num :=
  let p := Scene.Player.mk position in
  mkBuilder (Some p) (entities current) (mirrors current).

Definition addEntity (position : vec2.t num) (current : Builder num)
    : Builder num :=
  let current_entities :=
    match entities current with Some l => l | None => [] end in
  let e :=
    Scene.entity position
      ("entity_" ++ toString (List.length current_entities + 1)) in
  mkBuilder (player current) (Some (current_entities ++ [e])) (mirrors current).

Definition addMirror (start end_ : vec2.t num) (current : Builder num)
    : Builder num :=
  let current_mirrors :=
    match mirrors current with Some l => l | None => [] end in
  let m :=
    Scene.Mirror.mk
      ("mirror_" ++ toString (List.length current_mirrors + 1))
      (vec2.clone start) (vec2.clone end_) in
  mkBuilder (player current) (entities current) (Some (current_mirrors ++ [m])).

(** [build], which the builder has once all three keys are present. *)
Definition build (current : Builder num) : option (Scene.Scene num) :=
  match player current, entities current, mirrors current with
  | Some p, Some es, Some ms => Some (Scene.mkScene p es ms)
  | _, _, _ => None
  end.

(** One call of the chain [make().addPlayer(..).addEntity(..)...]. *)
Inductive Call : Type :=
| AddPlayer (position : vec2.t num)
| AddEntity (position : vec2.t num)
| AddMirror (start end_ : vec2.t num).

Definition call (current : Builder num) (c : Call) : Builder num :=
  match c with
  | AddPlayer position => addPlayer position current
  | AddEntity position => addEntity position current
  | AddMirror start end_ => addMirror start end_ current
  end.

Definition chain (calls : list Call) : Builder num :=
  fold_left call calls make.
End Builder.
End SceneBuilder.

(** [Scene.Presets]: each preset is the [build()] of a chain. *)
Module Presets.
Section Presets.
Context {num : Type} `{Number num} `{Storage num}.
Import SceneBuilder.

Definition singleMirror : option (Scene.Scene num) :=
  build (chain [AddPlayer (ofZ 400, ofZ 300);
                AddEntity (ofZ 350, ofZ 250);
                AddMirror (ofZ 300, ofZ 200) (ofZ 300, ofZ 400)]).

Definition twoMirrors : option (Scene.Scene num) :=
  build (chain [AddPlayer (ofZ 400, ofZ 300);
                AddEntity (ofZ 375, ofZ 264);
                AddEntity (ofZ 400, ofZ 250);
                AddMirror (ofZ 300, ofZ 200) (ofZ 300, ofZ 400);
                AddMirror (ofZ 500, ofZ 200) (ofZ 500, ofZ 400)]).

Definition threeMirrors : option (Scene.Scene num) :=
  build (chain [AddPlayer (ofZ 400, ofZ 350);
                AddEntity (ofZ 375, ofZ 264);
                AddEntity (ofZ 400, ofZ 250);
                AddMirror (ofZ 300, ofZ 200) (ofZ 300, ofZ 400);
                AddMirror (ofZ 300, ofZ 200) (ofZ 500, ofZ 200);
                AddMirror (ofZ 500, ofZ 200) (ofZ 500, ofZ 400)]).
End Presets.
End Presets.

Module Lesson.
Section Edits.
Context {num : Type} `{Number num} `{Storage num}.

Definition moveEntity (scene : Scene.Scene num) (entityId : string)
    (position : vec2.t num) : Scene.Scene num :=
  if String.eqb entityId "player" then
    Scene.mkScene (Scene.Player.mk (vec2.clone position))
      (Scene.entities scene) (Scene.mirrors scene)
  else
    match findIndex (fun entity => String.eqb (Scene.Entity.id entity) entityId)
            (Scene.entities scene) with
    | Some entityIndex =>
        let newEntities :=
          assignAt entityIndex
            (Scene.entity position
               ("entity_" ++ toString (List.length (Scene.entities scene) + 1)))
            (Scene.entities scene) in
        Scene.mkScene (Scene.player scene) newEntities (Scene.mirrors scene)
    | None => scene
    end.

Definition addEntity (scene : Scene.Scene num) (position : vec2.t num)
    : Scene.Scene num :=
  let newEntity :=
    Scene.entity position
      ("entity_" ++ toString (List.length (Scene.entities scene) + 1)) in
  Scene.mkScene (Scene.player scene) (Scene.entities scene ++ [newEntity])
    (Scene.mirrors scene).
End Edits.
End Lesson.

Module Input.
Section Picking.
Context {num : Type} `{Number num} `{Storage num}.
Local Open Scope num_scope.

Definition CLICK_RADIUS : num := ofZ 20.

(** [Handler.findEntityAtPosition], on the handler's [player] and
    [entities] fields. *)
Definition findEntityAtPosition (player : option (Scene.Player.t num))
    (entities : list (Scene.Entity.t num)) (position : vec2.t num)
    : option (Scene.Player.t num + Scene.Entity.t num) :=
  let amongEntities :=
    match find (fun entity =>
                  vec2.distance position (Scene.Entity.position entity)
                  <=? CLICK_RADIUS) entities with
    | Some entity => Some (inr entity)
    | None => None
    end in
  match player with
  | Some p =>
      if vec2.distance position (Scene.Player.position p) <=? Scene.PLAYER_RADIUS
      then Some (inl p)
      else amongEntities
  | None => amongEntities
  end.
End Picking.
End Input.

(** ** A scene with a slanted mirror

    The viewer at (100,252), an entity at (400,252), and between them a
    mirror from (320,200) to (280,400), which crosses the line from the
    viewer to the entity at (309.6,252). *)
Section SlantedMirror.
Context {num : Type} `{Number num} `{Storage num}.
Import SceneBuilder.

End SlantedMirror.

Module Binary64Scenes.
Import PrimFloat.
Local Open Scope string_scope.


End Binary64Scenes.

Section BuilderVocabulary.
Context {num : Type} `{Number num} `{Storage num}.

(** The ids the builder hands out: [entity_1], [entity_2], ... *)
Definition numbered (prefix : string) (count : nat) : list string :=
  map (fun k => (prefix ++ toString k)%string) (seq 1 count).

(** The positions given to [addEntity], in the order of the calls. *)
Definition addedEntities (calls : list (@SceneBuilder.Call num))
    : list (vec2.t num) :=
  flat_map (fun c => match c with
                     | SceneBuilder.AddEntity position => [position]
                     | _ => []
                     end) calls.

(** The segments given to [addMirror], in the order of the calls. *)
Definition addedMirrors (calls : list (@SceneBuilder.Call num))
    : list (vec2.t num * vec2.t num) :=
  flat_map (fun c => match c with
                     | SceneBuilder.AddMirror start end_ => [(start, end_)]
                     | _ => []
                     end) calls.

(** The positions given to [addPlayer], in the order of the calls. *)
Definition addedPlayers (calls : list (@SceneBuilder.Call num))
    : list (vec2.t num) :=
  flat_map (fun c => match c with
                     | SceneBuilder.AddPlayer position => [position]
                     | _ => []
                     end) calls.
End BuilderVocabulary.

(** The first occurrence of [a] replaced by [y]: what [moveEntity] does to
    the list of entity ids. *)
Fixpoint replaceFirst (a y : string) (l : list string) : list string :=
  match l with
  | [] => []
  | x :: rest =>
      if String.eqb x a then y :: rest else x :: replaceFirst a y rest
  end.

(** * Properties of the virtual-image generator *)

Unset Implicit Arguments.

Section VirtualFacts.
Context {num : Type} `{Number num} `{Storage num}.

Lemma includes_In (l : list string) (x : string) :
  includes l x = true <-> In x l.
Proof.
  unfold includes. rewrite existsb_exists. split.
  - intros [y [Hy Heq]]. apply String.eqb_eq in Heq. now subst.
  - intros Hx. exists x. split; [assumption | apply String.eqb_refl].
Qed.

Lemma includes_false_not_In (l : list string) (x : string) :
  includes l x = false <-> ~ In x l.
Proof.
  rewrite <- includes_In. destruct (includes l x); split; congruence.
Qed.

(** What one run of the loop over the original mirrors returns. *)
Lemma forEachMirror_In
    (body : Scene.Mirror.t num -> option (list (Virtual.VirtualImage num)))
    (ms : list (Scene.Mirror.t num)) (imgs : list (Virtual.VirtualImage num)) :
  Virtual.forEachMirror body ms = Some imgs ->
  forall img, In img imgs <->
    exists m here, In m ms /\ body m = Some here /\ In img here.
Proof.
  revert imgs. induction ms as [|m rest IH]; intros imgs Hrun img; simpl in Hrun.
  - inversion Hrun; subst. split; [intros [] | intros [m [here [[] _]]]].
  - destruct (body m) as [here|] eqn:Hbody; [|discriminate].
    destruct (Virtual.forEachMirror body rest) as [after|] eqn:Hrest; [|discriminate].
    inversion Hrun; subst. rewrite in_app_iff, (IH after eq_refl img). split.
    + intros [Hin | [m' [here' [Hm' [Hb' Hin]]]]].
      * exists m, here. simpl; auto.
      * exists m', here'. simpl; auto.
    + intros [m' [here' [[Heq | Hm'] [Hb' Hin]]]].
      * subst m'. left. congruence.
      * right. exists m', here'. auto.
Qed.

Lemma forEachMirror_total
    (body : Scene.Mirror.t num -> option (list (Virtual.VirtualImage num)))
    (ms : list (Scene.Mirror.t num)) :
  (forall m, In m ms -> exists here, body m = Some here) ->
  exists imgs, Virtual.forEachMirror body ms = Some imgs.
Proof.
  induction ms as [|m rest IH]; intros Hbody; simpl.
  - now exists [].
  - destruct (Hbody m (or_introl eq_refl)) as [here ->].
    destruct IH as [after ->]; [intros; apply Hbody; now right|].
    now exists (here ++ after).
Qed.

(** The images of one call: those of a room it creates, or those of a
    nested call. *)
Lemma calculateVirtualRoomsRecursive_In fuel bounds
    (room : Scene.Scene num) orig n chain imgs img :
  Virtual.calculateVirtualRoomsRecursive (S fuel) bounds room orig n chain = Some imgs ->
  (In img imgs <->
   exists m nested, In m orig /\ includes chain (Scene.Mirror.id m) = false /\
     Virtual.calculateVirtualRoomsRecursive fuel bounds (Virtual.nextRoom room m)
       orig (n + 1) (chain ++ [Scene.Mirror.id m]) = Some nested /\
     (In img (Virtual.createVirtualRoom bounds room m n chain) \/ In img nested)).
Proof.
  intros Hrun. simpl in Hrun.
  rewrite (forEachMirror_In _ _ _ Hrun img). split.
  - intros [m [here [Hm [Hbody Hin]]]].
    destruct (includes chain (Scene.Mirror.id m)) eqn:Hinc.
    + inversion Hbody; subst. destruct Hin.
    + destruct (Virtual.calculateVirtualRoomsRecursive fuel bounds _ orig _ _)
        as [nested|] eqn:Hnested; [|discriminate].
      inversion Hbody; subst. exists m, nested.
      apply in_app_iff in Hin. auto.
  - intros [m [nested [Hm [Hinc [Hnested Hin]]]]].
    exists m, (Virtual.createVirtualRoom bounds room m n chain ++ nested).
    rewrite Hinc, Hnested, in_app_iff. auto.
Qed.

(** Proof rule for the recursion: a property of the images that every
    created room has, under an invariant of the threaded state that every
    step keeps, holds of all the images returned. *)
Lemma calculateVirtualRoomsRecursive_Forall
    (P : Virtual.VirtualImage num -> Prop)
    (Inv : Scene.Scene num -> nat -> list string -> Prop)
    bounds orig :
  (forall room n chain m,
      Inv room n chain -> In m orig ->
      includes chain (Scene.Mirror.id m) = false ->
      Forall P (Virtual.createVirtualRoom bounds room m n chain) /\
      Inv (Virtual.nextRoom room m) (n + 1) (chain ++ [Scene.Mirror.id m])) ->
  forall fuel room n chain imgs,
    Inv room n chain ->
    Virtual.calculateVirtualRoomsRecursive fuel bounds room orig n chain = Some imgs ->
    Forall P imgs.
Proof.
  intros Hstep fuel. induction fuel as [|fuel IH]; intros room n chain imgs HInv Hrun.
  - discriminate.
  - apply Forall_forall. intros img Himg.
    apply (calculateVirtualRoomsRecursive_In _ _ _ _ _ _ _ img Hrun) in Himg.
    destruct Himg as [m [nested [Hm [Hinc [Hnested Hin]]]]].
    destruct (Hstep room n chain m HInv Hm Hinc) as [Hroom HInv'].
    destruct Hin as [Hin | Hin].
    + now apply (proj1 (Forall_forall _ _) Hroom).
    + exact (proj1 (Forall_forall _ _) (IH _ _ _ _ HInv' Hnested) img Hin).
Qed.

Lemma unusedMirrors_step (orig : list (Scene.Mirror.t num)) chain m :
  In m orig -> includes chain (Scene.Mirror.id m) = false ->
  (List.length (unusedMirrors orig (chain ++ [Scene.Mirror.id m]))
   < List.length (unusedMirrors orig chain)).
Proof.
  intros Hm Hinc. unfold unusedMirrors.
  induction orig as [|a rest IH]; [destruct Hm|]. simpl.
  assert (Hmono : forall l : list (Scene.Mirror.t num),
    List.length
      (filter (fun m0 => negb (includes (chain ++ [Scene.Mirror.id m])
                                 (Scene.Mirror.id m0))) l)
    <= List.length
         (filter (fun m0 => negb (includes chain (Scene.Mirror.id m0))) l)).
  { induction l as [|b l IHl]; simpl; [lia|].
    destruct (includes chain (Scene.Mirror.id b)) eqn:Hb.
    - assert (Hb' : includes (chain ++ [Scene.Mirror.id m]) (Scene.Mirror.id b) = true).
      { apply includes_In, in_app_iff. left. now apply includes_In. }
      rewrite Hb'. simpl. exact IHl.
    - destruct (includes (chain ++ [Scene.Mirror.id m]) (Scene.Mirror.id b)); simpl; lia. }
  destruct Hm as [-> | Hm].
  - rewrite Hinc.
    assert (Hm' : includes (chain ++ [Scene.Mirror.id m]) (Scene.Mirror.id m) = true).
    { apply includes_In, in_app_iff. right. now left. }
    rewrite Hm'. simpl. specialize (Hmono rest). lia.
  - specialize (IH Hm).
    destruct (includes chain (Scene.Mirror.id a)) eqn:Ha.
    + assert (Ha' : includes (chain ++ [Scene.Mirror.id m]) (Scene.Mirror.id a) = true).
      { apply includes_In, in_app_iff. left. now apply includes_In. }
      rewrite Ha'. simpl. exact IH.
    + destruct (includes (chain ++ [Scene.Mirror.id m]) (Scene.Mirror.id a)); simpl; lia.
Qed.

(** Enough fuel: one nested call per mirror that is still unused, and one
    for the call itself. *)
Lemma calculateVirtualRoomsRecursive_total fuel bounds
    (room : Scene.Scene num) orig n chain :
  (List.length (unusedMirrors orig chain) < fuel) ->
  exists imgs,
    Virtual.calculateVirtualRoomsRecursive fuel bounds room orig n chain = Some imgs.
Proof.
  revert room n chain.
  induction fuel as [|fuel IH]; intros room n chain Hfuel; [lia|].
  simpl. apply forEachMirror_total. intros m Hm.
  destruct (includes chain (Scene.Mirror.id m)) eqn:Hinc; [now exists []|].
  pose proof (unusedMirrors_step orig chain m Hm Hinc) as Hlt.
  destruct (IH (Virtual.nextRoom room m) (n + 1) (chain ++ [Scene.Mirror.id m]))
    as [nested ->]; [lia|].
  eexists; reflexivity.
Qed.

Lemma forEachMirror_mono
    (f g : Scene.Mirror.t num -> option (list (Virtual.VirtualImage num)))
    (ms : list (Scene.Mirror.t num)) imgs :
  (forall m here, In m ms -> f m = Some here -> g m = Some here) ->
  Virtual.forEachMirror f ms = Some imgs ->
  Virtual.forEachMirror g ms = Some imgs.
Proof.
  revert imgs. induction ms as [|m rest IH]; intros imgs Hfg Hrun; simpl in *;
    [assumption|].
  destruct (f m) as [here|] eqn:Hf; [|discriminate].
  rewrite (Hfg m here (or_introl eq_refl) Hf).
  destruct (Virtual.forEachMirror f rest) as [after|] eqn:Hrest; [|discriminate].
  rewrite (IH after); [assumption | | reflexivity].
  intros m' here' Hm'. apply Hfg. now right.
Qed.

(** More fuel than needed does not change the result. *)
Lemma calculateVirtualRoomsRecursive_fuel fuel fuel' bounds
    (room : Scene.Scene num) orig n chain imgs :
  fuel <= fuel' ->
  Virtual.calculateVirtualRoomsRecursive fuel bounds room orig n chain = Some imgs ->
  Virtual.calculateVirtualRoomsRecursive fuel' bounds room orig n chain = Some imgs.
Proof.
  revert fuel' room n chain imgs.
  induction fuel as [|fuel IH]; intros fuel' room n chain imgs Hle Hrun;
    [discriminate|].
  destruct fuel' as [|fuel']; [lia|].
  simpl in *. revert Hrun. apply forEachMirror_mono.
  intros m here _.
  destruct (includes chain (Scene.Mirror.id m)); [trivial|].
  destruct (Virtual.calculateVirtualRoomsRecursive fuel bounds _ orig _ _)
    as [nested|] eqn:Hnested; [|discriminate].
  now rewrite (IH fuel' _ _ _ nested ltac:(lia) Hnested).
Qed.

Lemma unusedMirrors_length (orig : list (Scene.Mirror.t num)) chain :
  (List.length (unusedMirrors orig chain) <= List.length orig).
Proof. apply filter_length_le. Qed.

Lemma calculateVirtualImages_total (scene : Scene.Scene num) bounds :
  exists imgs, Virtual.calculateVirtualImages scene bounds = Some imgs.
Proof.
  unfold Virtual.calculateVirtualImages.
  apply calculateVirtualRoomsRecursive_total.
  pose proof (unusedMirrors_length (Scene.mirrors scene) []). lia.
Qed.
End VirtualFacts.

Section VirtualRoomFacts.
Context {num : Type} `{Number num} `{Storage num}.

Lemma createVirtualRoom_In bounds (room : Scene.Scene num) m n chain img :
  In img (Virtual.createVirtualRoom bounds room m n chain) <->
  In img (Virtual.playerImages bounds room m n chain) \/
  (exists e, In e (Scene.entities room) /\
             In img (Virtual.entityImages bounds m n chain e)) \/
  (exists m', In m' (Scene.mirrors room) /\
              In img (Virtual.mirrorImages bounds m n chain m')).
Proof.
  unfold Virtual.createVirtualRoom.
  rewrite !in_app_iff, !in_flat_map. tauto.
Qed.

(** Every image of a room carries the chain extended by the reflecting
    mirror, and the room number as its bounce count. *)
Lemma createVirtualRoom_chain bounds (room : Scene.Scene num) m n chain img :
  In img (Virtual.createVirtualRoom bounds room m n chain) ->
  Virtual.mirrorChain img = chain ++ [Scene.Mirror.id m] /\
  Virtual.bounces img = n /\ Virtual.virtualRoom img = n /\
  Virtual.isVisible img = true.
Proof.
  rewrite createVirtualRoom_In.
  unfold Virtual.playerImages, Virtual.entityImages, Virtual.mirrorImages.
  intros [Hin | [[e [_ Hin]] | [m' [_ Hin]]]];
    match type of Hin with
    | In _ (if ?c then _ else _) =>
        destruct c; simpl in Hin;
        [destruct Hin as [<- | []]; simpl; auto | destruct Hin]
    end.
Qed.

End VirtualRoomFacts.

Section VirtualClaims.
Context {num : Type} `{Number num} `{Storage num}.

(** C5: the mirror chain of every emitted image has no repeated mirror
    id, and is no longer than the number of mirrors of the scene. *)
Theorem calculateVirtualImages_chain_unique (scene : Scene.Scene num) bounds :
  exists imgs,
    Virtual.calculateVirtualImages scene bounds = Some imgs /\
    Forall (fun img =>
              NoDup (Virtual.mirrorChain img) /\
              List.length (Virtual.mirrorChain img)
              <= List.length (Scene.mirrors scene)) imgs.
Proof.
  destruct (calculateVirtualImages_total scene bounds) as [imgs Hrun].
  exists imgs. split; [assumption|].
  unfold Virtual.calculateVirtualImages in Hrun.
  set (ids := map (@Scene.Mirror.id num) (Scene.mirrors scene)).
  assert (Hchains : Forall (fun img =>
            NoDup (Virtual.mirrorChain img) /\ incl (Virtual.mirrorChain img) ids) imgs).
  { refine (calculateVirtualRoomsRecursive_Forall _
              (fun _ _ chain => NoDup chain /\ incl chain ids)
              _ _ _ _ _ _ _ _ _ Hrun).
    - intros room n chain m [Hnd Hincl] Hm Hinc.
      assert (Hext : NoDup (chain ++ [Scene.Mirror.id m]) /\
                     incl (chain ++ [Scene.Mirror.id m]) ids).
      { split.
        - apply NoDup_app; [assumption | repeat constructor; intros [] | ].
          intros x Hx [<- | []]. now apply includes_false_not_In in Hinc.
        - apply incl_app; [assumption|].
          intros x [<- | []]. unfold ids. now apply in_map. }
      split; [|exact Hext].
      apply Forall_forall. intros img Himg.
      apply createVirtualRoom_chain in Himg. destruct Himg as [-> _]. exact Hext.
    - split; [constructor | intros x []]. }
  eapply Forall_impl; [|exact Hchains]. simpl.
  intros img [Hnd Hincl]. split; [assumption|].
  unfold ids in Hincl. rewrite <- (length_map (@Scene.Mirror.id num)).
  now apply NoDup_incl_length.
Qed.

(** C6: the recursion returns.  A nested call is made only for a mirror
    whose id is not yet in the chain, which leaves fewer unused mirrors
    for the callee; with M mirrors, M nested levels below the outermost
    call are enough, and allowing deeper nesting gives the same images. *)
Theorem calculateVirtualImages_terminates (scene : Scene.Scene num) bounds :
  exists imgs,
    Virtual.calculateVirtualImages scene bounds = Some imgs /\
    forall depth,
      List.length (Scene.mirrors scene) <= depth ->
      Virtual.calculateVirtualRoomsRecursive (S depth) bounds
        (Scene.mkScene (Scene.player scene) (Scene.entities scene)
           (Scene.mirrors scene))
        (Scene.mirrors scene) 1 [] = Some imgs.
Proof.
  destruct (calculateVirtualImages_total scene bounds) as [imgs Hrun].
  exists imgs. split; [assumption|].
  intros depth Hdepth. unfold Virtual.calculateVirtualImages in Hrun.
  eapply calculateVirtualRoomsRecursive_fuel; [|exact Hrun]. lia.
Qed.
End VirtualClaims.

Section ExploredFacts.
Context {num : Type} `{Number num} `{Storage num}.

Lemma forEachMirror_body
    (body : Scene.Mirror.t num -> option (list (Virtual.VirtualImage num)))
    (ms : list (Scene.Mirror.t num)) imgs m :
  Virtual.forEachMirror body ms = Some imgs -> In m ms ->
  exists here, body m = Some here /\ incl here imgs.
Proof.
  intros Hrun Hm.
  assert (Hbody : exists here, body m = Some here).
  { clear - Hrun Hm. revert imgs Hrun.
    induction ms as [|a rest IH]; intros imgs Hrun; [destruct Hm|].
    simpl in Hrun. destruct (body a) as [here|] eqn:Ha; [|discriminate].
    destruct (Virtual.forEachMirror body rest) as [after|]; [|discriminate].
    destruct Hm as [-> | Hm]; [now exists here | now apply (IH Hm after)]. }
  destruct Hbody as [here Hhere]. exists here. split; [assumption|].
  intros img Himg. apply (forEachMirror_In _ _ _ Hrun img). now exists m, here.
Qed.

(** Every explored room is created by a call that returns, and what that
    call returns is part of the final result. *)
Lemma Explored_call (scene : Scene.Scene num) bounds imgs room n chain :
  Virtual.calculateVirtualImages scene bounds = Some imgs ->
  Explored scene room n chain ->
  exists fuel imgs',
    Virtual.calculateVirtualRoomsRecursive fuel bounds room
      (Scene.mirrors scene) n chain = Some imgs' /\
    incl imgs' imgs.
Proof.
  intros Hrun Hexp. induction Hexp as [|room n chain m _ IH Hm Hinc].
  - exists (S (List.length (Scene.mirrors scene))), imgs.
    split; [exact Hrun | apply incl_refl].
  - destruct IH as [fuel [imgs' [Hcall Hincl]]].
    destruct fuel as [|fuel]; [discriminate|]. simpl in Hcall.
    destruct (forEachMirror_body _ _ _ m Hcall Hm) as [here [Hbody Hhere]].
    rewrite Hinc in Hbody.
    destruct (Virtual.calculateVirtualRoomsRecursive fuel bounds
                (Virtual.nextRoom room m) (Scene.mirrors scene) (n + 1)
                (chain ++ [Scene.Mirror.id m])) as [nested|] eqn:Hnested;
      [|discriminate].
    inversion Hbody; subst here. exists fuel, nested. split; [exact Hnested|].
    intros img Himg. apply Hincl, Hhere, in_app_iff. now right.
Qed.

Lemma Explored_room_images (scene : Scene.Scene num) bounds imgs room n chain m :
  Virtual.calculateVirtualImages scene bounds = Some imgs ->
  Explored scene room n chain ->
  In m (Scene.mirrors scene) ->
  includes chain (Scene.Mirror.id m) = false ->
  incl (Virtual.createVirtualRoom bounds room m n chain) imgs.
Proof.
  intros Hrun Hexp Hm Hinc.
  destruct (Explored_call scene bounds imgs room n chain Hrun Hexp)
    as [fuel [imgs' [Hcall Hincl]]].
  destruct fuel as [|fuel]; [discriminate|]. simpl in Hcall.
  destruct (forEachMirror_body _ _ _ m Hcall Hm) as [here [Hbody Hhere]].
  rewrite Hinc in Hbody.
  destruct (Virtual.calculateVirtualRoomsRecursive fuel bounds
              (Virtual.nextRoom room m) (Scene.mirrors scene) (n + 1)
              (chain ++ [Scene.Mirror.id m])) as [nested|]; [|discriminate].
  inversion Hbody; subst here.
  intros img Himg. apply Hincl, Hhere, in_app_iff. now left.
Qed.

(** The mirrors of an explored room are the images of all the mirrors of
    the scene, in the order of the scene: none is left out. *)
Lemma Explored_mirror_ids (scene : Scene.Scene num) room n chain :
  Explored scene room n chain ->
  map (@Scene.Mirror.id num) (Scene.mirrors room)
  = map (@Scene.Mirror.id num) (Scene.mirrors scene).
Proof.
  induction 1 as [|room n chain m _ IH _ _]; [reflexivity|].
  rewrite <- IH. simpl. rewrite map_map. reflexivity.
Qed.

End ExploredFacts.

(** * Geometry on the real numbers *)

Section RealGeometry.
Local Open Scope R_scope.

Lemma num_ltb_R (a b : R) : (a <? b)%num = true <-> a < b.
Proof. cbn. destruct (Rlt_dec a b); split; intros; congruence || assumption. Qed.

Lemma num_leb_R (a b : R) : (a <=? b)%num = true <-> a <= b.
Proof. cbn. destruct (Rle_dec a b); split; intros; congruence || assumption. Qed.

Lemma num_ltb_R_false (a b : R) : (a <? b)%num = false <-> b <= a.
Proof.
  cbn. destruct (Rlt_dec a b); split; intros; try congruence; lra.
Qed.

Lemma num_leb_R_false (a b : R) : (a <=? b)%num = false <-> b < a.
Proof.
  cbn. destruct (Rle_dec a b); split; intros; try congruence; lra.
Qed.

(** The unit normal that [reflectPointAcrossMirror] reflects about. *)
Lemma normalize_unit (dx dy : R) :
  0 < dx * dx + dy * dy ->
  let n := @vec2.normalize R _ _ (dx, dy) in
  fst n * fst n + snd n * snd n = 1.
Proof.
  intros Hq. unfold vec2.normalize. cbn.
  destruct (Rlt_dec 0 (dx * dx + dy * dy)) as [_|Hn]; [|contradiction].
  set (q := dx * dx + dy * dy) in *.
  assert (Hs : sqrt q * sqrt q = q) by (apply sqrt_sqrt; lra).
  assert (Hs0 : sqrt q <> 0) by (intros E; rewrite E in Hs; lra).
  transitivity (q / (sqrt q * sqrt q)); [unfold q; field; assumption|].
  rewrite Hs. field. lra.
Qed.

Lemma normalize_zero (dx dy : R) :
  ~ 0 < dx * dx + dy * dy -> @vec2.normalize R _ _ (dx, dy) = (0, 0).
Proof.
  intros Hq. unfold vec2.normalize. cbn.
  destruct (Rlt_dec 0 (dx * dx + dy * dy)) as [Hp|_]; [contradiction|].
  assert (dx = 0) by nra. assert (dy = 0) by nra. subst. f_equal; ring.
Qed.

Lemma reflect_twice_algebra (px py sx sy nx ny : R) :
  nx * nx + ny * ny = 1 \/ (nx = 0 /\ ny = 0) ->
  let a := (px - sx) * - ny + (py - sy) * nx in
  let qx := px + - ny * (-2 * a) in
  let qy := py + nx * (-2 * a) in
  let b := (qx - sx) * - ny + (qy - sy) * nx in
  (qx + - ny * (-2 * b), qy + nx * (-2 * b)) = (px, py).
Proof.
  intros Hn a qx qy b.
  assert (Hx : qx + - ny * (-2 * b)
               = px + 4 * ny * a * (1 - (nx * nx + ny * ny)))
    by (unfold b, qx, qy, a; ring).
  assert (Hy : qy + nx * (-2 * b)
               = py - 4 * nx * a * (1 - (nx * nx + ny * ny)))
    by (unfold b, qx, qy, a; ring).
  rewrite Hx, Hy. destruct Hn as [-> | [-> ->]]; f_equal; ring.
Qed.

(** C9: reflection across a mirror is an involution.  In real arithmetic,
    reflecting a point across a mirror twice gives the point back.  This
    holds for every mirror: when the endpoints are distinct the normal is
    a unit vector, and when they coincide [normalize] leaves the zero
    vector and the reflection moves nothing. *)
Theorem reflectPointAcrossMirror_involution
    (P : vec2.t R) (M : Scene.Mirror.t R) :
  Virtual.reflectPointAcrossMirror (Virtual.reflectPointAcrossMirror P M) M = P.
Proof.
  destruct P as [px py], M as [id [sx sy] [ex ey]].
  unfold Virtual.reflectPointAcrossMirror.
  cbn [Scene.Mirror.start Scene.Mirror.end_].
  set (n := vec2.normalize (vec2.sub (ex, ey) (sx, sy))).
  assert (Hn : fst n * fst n + snd n * snd n = 1 \/ (fst n = 0 /\ snd n = 0)).
  { unfold n, vec2.sub. cbn [fst snd Math_fround exactStorage num_sub RNumber].
    destruct (Rlt_dec 0 ((ex - sx) * (ex - sx) + (ey - sy) * (ey - sy))) as [Hq|Hq].
    - left. now apply normalize_unit.
    - right. rewrite (normalize_zero _ _ Hq). now split. }
  destruct n as [nx ny]. cbn in Hn |- *.
  apply reflect_twice_algebra. assumption.
Qed.

Lemma isPointInBounds_R (w h x y : R) :
  Virtual.isPointInBounds (w, h) (x, y) = true <->
  - w <= x <= w * 2 /\ - h <= y <= h * 2.
Proof.
  unfold Virtual.isPointInBounds. cbn [fst snd].
  rewrite !andb_true_iff, !num_leb_R. cbn. tauto.
Qed.

Lemma isPointInBounds_R_false (w h x y : R) :
  Virtual.isPointInBounds (w, h) (x, y) = false <->
  ~ (- w <= x <= w * 2 /\ - h <= y <= h * 2).
Proof.
  rewrite <- isPointInBounds_R.
  destruct (Virtual.isPointInBounds (w, h) (x, y)); split; congruence.
Qed.

(** Reflection across a vertical mirror [x = a]. *)
Lemma reflect_across_vertical id (a y1 y2 x y : R) :
  y1 < y2 ->
  Virtual.reflectPointAcrossMirror (x, y) (Scene.Mirror.mk id (a, y1) (a, y2))
  = (2 * a - x, y).
Proof.
  intros Hlt. unfold Virtual.reflectPointAcrossMirror.
  cbn [Scene.Mirror.start Scene.Mirror.end_].
  assert (Hn : vec2.normalize (vec2.sub (a, y2) (a, y1)) = (0, 1)).
  { unfold vec2.normalize, vec2.sub. cbn.
    replace ((a - a) * (a - a) + (y2 - y1) * (y2 - y1))
      with ((y2 - y1) * (y2 - y1)) by ring.
    destruct (Rlt_dec 0 ((y2 - y1) * (y2 - y1))) as [_|Hn]; [|nra].
    rewrite sqrt_square by lra. f_equal; field; lra. }
  rewrite Hn. unfold vec2.scaleAndAdd, vec2.set, vec2.dot, vec2.sub. cbn. f_equal; ring.
Qed.

Lemma single_mirror_rooms bounds (player : Scene.Player.t R) entities m :
  Virtual.calculateVirtualImages (Scene.mkScene player entities [m]) bounds
  = Some (Virtual.createVirtualRoom bounds (Scene.mkScene player entities [m])
            m 1 []).
Proof.
  unfold Virtual.calculateVirtualImages. cbn -[Virtual.createVirtualRoom].
  rewrite String.eqb_refl. cbn -[Virtual.createVirtualRoom].
  now rewrite !app_nil_r.
Qed.
End RealGeometry.

Section PlayerImages.
Context {num : Type} `{Number num} `{Storage num}.

Lemma entityImages_not_player bounds (m : Scene.Mirror.t num) n chain es :
  filter isPlayerImage (flat_map (Virtual.entityImages bounds m n chain) es) = [].
Proof.
  induction es as [|e es IH]; [reflexivity|].
  simpl. rewrite filter_app, IH, app_nil_r.
  unfold Virtual.entityImages.
  now destruct (Virtual.isPointInBounds bounds _).
Qed.

Lemma mirrorImages_not_player bounds (m : Scene.Mirror.t num) n chain ms :
  filter isPlayerImage (flat_map (Virtual.mirrorImages bounds m n chain) ms) = [].
Proof.
  induction ms as [|m' ms IH]; [reflexivity|].
  simpl. rewrite filter_app, IH, app_nil_r.
  unfold Virtual.mirrorImages.
  now destruct (_ || _).
Qed.
End PlayerImages.

Section SingleMirror.
Import Scenes.
Local Open Scope R_scope.
Local Open Scope string_scope.

Lemma reflect_across_mirror_1 (x y : R) :
  Virtual.reflectPointAcrossMirror (x, y) mirror_1 = (600 - x, y).
Proof.
  unfold mirror_1. rewrite reflect_across_vertical by lra. f_equal; lra.
Qed.

(** C7: in the scene with the viewer at (400,300) and the single mirror
    "mirror_1" from (300,200) to (300,400), with bounds (400,300),
    exactly one image of the player is returned: bounce count 1, mirror
    chain ["mirror_1"], position (200,300).  This holds whatever the
    entities of the scene are. *)
Theorem single_mirror_player_image (entities : list (Scene.Entity.t R)) :
  exists imgs,
    Virtual.calculateVirtualImages (singleMirrorWith entities) (400, 300)
    = Some imgs /\
    filter isPlayerImage imgs
    = [Virtual.mkVirtualImage "player" Virtual.player (200, 300) 1 true
         ["mirror_1"] 1 None].
Proof.
  unfold singleMirrorWith. rewrite single_mirror_rooms.
  eexists. split; [reflexivity|].
  unfold Virtual.createVirtualRoom.
  rewrite !filter_app, entityImages_not_player, mirrorImages_not_player, !app_nil_r.
  unfold Virtual.playerImages. cbn [Scene.player Scene.Player.position].
  rewrite reflect_across_mirror_1.
  replace (600 - 400) with 200 by lra.
  assert (Hin : Virtual.isPointInBounds (400, 300) (200, 300) = true)
    by (apply isPointInBounds_R; lra).
  rewrite Hin. reflexivity.
Qed.

Lemma mirror_1_image_of_itself bounds :
  Virtual.isPointInBounds bounds (300, 200) = true ->
  Virtual.mirrorImages bounds mirror_1 1 [] mirror_1 = [mirror_1_in_own_room].
Proof.
  intros Hstart. unfold Virtual.mirrorImages, Virtual.reflectMirrorAcrossMirror.
  cbn [Scene.Mirror.start Scene.Mirror.end_ Scene.Mirror.id].
  assert (Hs : Virtual.reflectPointAcrossMirror (Scene.Mirror.start mirror_1) mirror_1
               = (300, 200)).
  { unfold mirror_1 at 1. cbn [Scene.Mirror.start].
    rewrite reflect_across_mirror_1. f_equal; lra. }
  assert (He : Virtual.reflectPointAcrossMirror (Scene.Mirror.end_ mirror_1) mirror_1
               = (300, 400)).
  { unfold mirror_1 at 1. cbn [Scene.Mirror.end_].
    rewrite reflect_across_mirror_1. f_equal; lra. }
  rewrite Hs, He, Hstart. cbn [orb].
  unfold mirror_1_in_own_room, vec2.clone, vec2.add, vec2.scale. cbn.
  do 2 f_equal. f_equal; lra.
Qed.

Lemma mirror_1_image_emitted bounds imgs :
  Virtual.isPointInBounds bounds (300, 200) = true ->
  Virtual.calculateVirtualImages (singleMirrorWith []) bounds = Some imgs ->
  In mirror_1_in_own_room imgs.
Proof.
  intros Hstart Hrun. unfold singleMirrorWith in Hrun.
  rewrite single_mirror_rooms in Hrun. inversion Hrun; subst imgs.
  apply createVirtualRoom_In. right. right. exists mirror_1.
  split; [now left|]. rewrite (mirror_1_image_of_itself bounds Hstart). now left.
Qed.

(** C1 fails for mirror images.  With bounds (200,120) the mirror
    (300,200)-(300,400), reflected across itself, has its start (300,200)
    in [-200,400] x [-120,240], so its image is emitted, with the midpoint
    (300,300) as position, which is outside. *)
Lemma mirror_image_position_out_of_bounds :
  exists imgs img,
    Virtual.calculateVirtualImages (singleMirrorWith []) (200, 120) = Some imgs /\
    In img imgs /\
    Virtual.originalType img = Virtual.mirror /\
    Virtual.position img = (300, 300) /\
    Virtual.isPointInBounds (200, 120) (Virtual.position img) = false.
Proof.
  destruct (calculateVirtualImages_total (singleMirrorWith []) (200, 120))
    as [imgs Hrun].
  exists imgs, mirror_1_in_own_room. split; [assumption|]. split.
  - apply (mirror_1_image_emitted (200, 120)); [|assumption].
    apply isPointInBounds_R; lra.
  - split; [reflexivity|]. split; [reflexivity|].
    apply isPointInBounds_R_false. cbn. lra.
Qed.

(** C2 fails.  In the single-mirror scene, the room produced by
    "mirror_1" contains the image of "mirror_1" itself: a mirror image
    whose original id is the last (and only) id of its chain. *)
Lemma mirror_reflected_across_itself :
  exists imgs img,
    Virtual.calculateVirtualImages (singleMirrorWith []) (400, 300) = Some imgs /\
    In img imgs /\
    Virtual.originalType img = Virtual.mirror /\
    Virtual.mirrorChain img = ["mirror_1"] /\
    Virtual.originalId img = last (Virtual.mirrorChain img) "".
Proof.
  destruct (calculateVirtualImages_total (singleMirrorWith []) (400, 300))
    as [imgs Hrun].
  exists imgs, mirror_1_in_own_room. split; [assumption|]. split.
  - apply (mirror_1_image_emitted (400, 300)); [|assumption].
    apply isPointInBounds_R; lra.
  - now repeat split.
Qed.
End SingleMirror.

(** * Properties of the ray tracer *)

Section ExactStorage.
Context {num : Type} `{Number num}.

(** With exact storage a copy is the vector itself. *)
Lemma clone_id (a : vec2.t num) : vec2.clone a = a.
Proof. now destruct a. Qed.
End ExactStorage.

Section RayFacts.
Context {num : Type} `{Number num} `{Storage num}.

Lemma rayLineIntersection_untagged (o d s e : vec2.t num) i :
  Ray.rayLineIntersection o d s e = Some i ->
  Ray.Intersection.mirrorId i = None /\ Ray.Intersection.entityId i = None.
Proof.
  unfold Ray.rayLineIntersection.
  repeat match goal with
         | |- context [if ?c then _ else _] => destruct c; [discriminate|]
         end.
  intros Hi. inversion Hi; subst i. now split.
Qed.

Lemma nearest_after_mirrors (scene : Scene.Scene num) o d ms nearest n :
  incl ms (Scene.mirrors scene) ->
  (forall n0, nearest = Some n0 -> Tagged scene o d n0) ->
  fold_left (Ray.nearestMirrorStep o d) ms nearest = Some n ->
  Tagged scene o d n.
Proof.
  revert nearest. induction ms as [|m ms IH]; intros nearest Hincl Hnear Hfold.
  - now apply Hnear.
  - simpl in Hfold. apply IH in Hfold; [assumption | | ].
    + intros x Hx. apply Hincl. now right.
    + intros n0 Hn0. unfold Ray.nearestMirrorStep in Hn0.
      destruct (Ray.rayLineIntersection o d _ _) as [i|] eqn:Hi;
        [|now apply Hnear].
      destruct (Ray.closer i nearest); [|now apply Hnear].
      inversion Hn0; subst n0.
      apply Tagged_mirror with (m := m) (i := i); simpl; auto.
      * apply Hincl. now left.
      * now apply rayLineIntersection_untagged in Hi.
Qed.

Lemma nearest_after_entities (scene : Scene.Scene num) o d es nearest n :
  incl es (Scene.entities scene) ->
  (forall n0, nearest = Some n0 -> Tagged scene o d n0) ->
  fold_left (Ray.nearestEntityStep o d) es nearest = Some n ->
  Tagged scene o d n.
Proof.
  revert nearest. induction es as [|e es IH]; intros nearest Hincl Hnear Hfold.
  - now apply Hnear.
  - simpl in Hfold. apply IH in Hfold; [assumption | | ].
    + intros x Hx. apply Hincl. now right.
    + intros n0 Hn0. unfold Ray.nearestEntityStep in Hn0.
      destruct (Ray.rayTriangleIntersection o d _) as [i|] eqn:Hi;
        [|now apply Hnear].
      destruct (Ray.closer i nearest); [|now apply Hnear].
      inversion Hn0; subst n0.
      apply Tagged_entity with (e := e) (i := i); simpl; auto.
      * apply Hincl. now left.
      * unfold Ray.rayTriangleIntersection in Hi.
        destruct (Scene.Entity.vertices e) as [[v0 v1] v2].
        destruct (Ray.firstEdgeHit o d _); [|discriminate].
        now inversion Hi.
Qed.

Lemma findNearestIntersection_tagged (scene : Scene.Scene num) o d n :
  Ray.findNearestIntersection o d scene true = Some n ->
  Tagged scene o d n.
Proof.
  unfold Ray.findNearestIntersection. simpl negb. cbv iota.
  apply nearest_after_entities; [apply incl_refl|].
  intros n0. apply nearest_after_mirrors; [apply incl_refl | discriminate].
Qed.

(** The loop of [traceRay]: a ray is returned only after at least one
    bounce, fewer bounces than [remaining], and then a hit on an entity
    whose id is not empty. *)
Lemma traceLoop_returns remaining (scene : Scene.Scene num) ray o d hitMirror r :
  Ray.traceLoop remaining scene ray o d hitMirror = Some r ->
  exists hits final e,
    Ray.history r = Ray.history ray ++ hits ++ [final] /\
    List.length hits < remaining /\
    Forall (MirrorHit scene) hits /\
    (hitMirror = true \/ hits <> []) /\
    In e (Scene.entities scene) /\
    Ray.entityId r = Some (Scene.Entity.id e) /\
    truthy (Ray.entityId r) = true /\
    EntityHit e final.
Proof.
  revert ray o d hitMirror.
  induction remaining as [|k IH]; intros ray o d hitMirror Hrun; [discriminate|].
  simpl in Hrun.
  destruct (Ray.findNearestIntersection o d scene true) as [n|] eqn:Hnear;
    [|discriminate].
  apply findNearestIntersection_tagged in Hnear.
  destruct (truthy (Ray.Intersection.mirrorId n)) eqn:Hmirror.
  - apply IH in Hrun.
    destruct Hrun as [hits [final [e [Hhist [Hlen [Hhits [_ Hrest]]]]]]].
    simpl in Hhist. rewrite <- app_assoc in Hhist.
    exists (vec2.clone (Ray.Intersection.point n) :: hits), final, e.
    split; [exact Hhist|]. split; [simpl; lia|]. split.
    + constructor; [|assumption].
      destruct Hnear as [m i Hm Hi Hp _ _ | e' i _ _ _ Hnone _].
      * exists o, d, m, i. rewrite Hp. auto.
      * rewrite Hnone in Hmirror. discriminate.
    + split; [right; discriminate | exact Hrest].
  - destruct hitMirror; [|discriminate]. simpl in Hrun.
    destruct (truthy (Ray.Intersection.entityId n)) eqn:Hentity; [|discriminate].
    inversion Hrun; subst r. simpl.
    destruct Hnear as [m i _ _ _ _ Hnone | e i He Hi Hp _ Hid].
    + rewrite Hnone in Hentity. discriminate.
    + exists [], (vec2.clone (Ray.Intersection.point n)), e. simpl.
      repeat split; auto; try lia.
      exists o, d, i. rewrite Hp. auto.
Qed.

(** What [traceRay] returns, from the initial state of its loop. *)
Lemma traceRay_returns (scene : Scene.Scene num) o d maxBounces r :
  Ray.traceRay o d scene maxBounces = Some r ->
  exists hits final e,
    Ray.history r = vec2.clone o :: hits ++ [final] /\
    hits <> [] /\ List.length hits < maxBounces /\
    Forall (MirrorHit scene) hits /\
    In e (Scene.entities scene) /\
    Ray.entityId r = Some (Scene.Entity.id e) /\
    truthy (Ray.entityId r) = true /\
    EntityHit e final.
Proof.
  unfold Ray.traceRay. intros Hrun. apply traceLoop_returns in Hrun.
  destruct Hrun as [hits [final [e [Hhist [Hlen [Hhits [Hb Hrest]]]]]]].
  exists hits, final, e. simpl in Hhist.
  split; [assumption|]. split; [destruct Hb; [discriminate | assumption]|].
  auto.
Qed.
End RayFacts.

Section TraceFacts.
Context {num : Type} `{Number num} `{Storage num}.

Lemma insertSorted_In {A : Type} (compare : A -> A -> num) a l x :
  In x (Ray.insertSorted compare a l) <-> x = a \/ In x l.
Proof.
  induction l as [|b l IH]; simpl.
  - intuition auto.
  - destruct (num_leb (compare a b) (ofZ 0)); simpl; [intuition auto|].
    rewrite IH. intuition auto.
Qed.

Lemma sort_In {A : Type} (compare : A -> A -> num) l x :
  In x (Ray.sort compare l) <-> In x l.
Proof.
  induction l as [|a l IH]; simpl; [tauto|].
  rewrite insertSorted_In, IH. intuition auto.
Qed.

Lemma targets_true (ray : Ray.Ray num) (e : Scene.Entity.t num) :
  Ray.targets ray e = true <-> Ray.entityId ray = Some (Scene.Entity.id e).
Proof.
  unfold Ray.targets. destruct (Ray.entityId ray) as [id|].
  - rewrite String.eqb_eq. split; congruence.
  - split; discriminate.
Qed.

Lemma bestRay_In rays (e : Scene.Entity.t num) r :
  Ray.bestRay rays e = Some r ->
  In r rays /\ Ray.entityId r = Some (Scene.Entity.id e).
Proof.
  unfold Ray.bestRay. intros Hhd.
  assert (Hin : In r (Ray.sort (Ray.byDistanceTo e)
                        (filter (fun ray => Ray.targets ray e) rays))).
  { destruct (Ray.sort _ _) as [|x l]; [discriminate|].
    inversion Hhd. now left. }
  apply sort_In, filter_In in Hin. now rewrite <- targets_true.
Qed.

Lemma bestRay_None rays (e : Scene.Entity.t num) :
  Ray.bestRay rays e = None <->
  existsb (fun ray => Ray.targets ray e) rays = false.
Proof.
  unfold Ray.bestRay. split.
  - intros Hhd. destruct (existsb _ rays) eqn:Hex; [|reflexivity].
    apply existsb_exists in Hex. destruct Hex as [c [Hc Ht]].
    assert (Hin : In c (Ray.sort (Ray.byDistanceTo e)
                          (filter (fun ray => Ray.targets ray e) rays)))
      by (apply sort_In, filter_In; auto).
    destruct (Ray.sort _ _); [destruct Hin | discriminate].
  - intros Hex.
    destruct (Ray.sort _ _) as [|x l] eqn:Hs; [reflexivity|].
    assert (Hin : In x (Ray.sort (Ray.byDistanceTo e)
                          (filter (fun ray => Ray.targets ray e) rays)))
      by (rewrite Hs; now left).
    apply sort_In, filter_In in Hin. destruct Hin as [Hx Ht].
    assert (existsb (fun ray => Ray.targets ray e) rays = true)
      by (apply existsb_exists; eauto).
    congruence.
Qed.

Lemma castRays_eq (scene : Scene.Scene num) :
  Ray.castRays scene = flat_map (Ray.castRay scene) (seq 0 Ray.rayCount).
Proof. unfold Ray.castRays. reflexivity. Qed.

Lemma trace_eq (scene : Scene.Scene num) :
  Ray.trace scene
  = Ray.filterBoolean
      (map (Ray.bestRay (Ray.castRays scene)) (Scene.entities scene)).
Proof. unfold Ray.trace. reflexivity. Qed.

Lemma castRay_In (scene : Scene.Scene num) i r :
  In r (Ray.castRay scene i) ->
  exists direction,
    Ray.traceRay (Scene.Player.position (Scene.player scene)) direction
      scene Ray.MAX_BOUNCES = Some r.
Proof.
  unfold Ray.castRay.
  set (direction := vec2.fromValues _ _). clearbody direction.
  destruct (Ray.traceRay _ direction scene Ray.MAX_BOUNCES) as [ray|] eqn:Hray;
    [|intros []].
  destruct (_ && _); [|intros []].
  intros [<- | []]. now exists direction.
Qed.

Lemma castRays_In (scene : Scene.Scene num) r :
  In r (Ray.castRays scene) ->
  exists direction,
    Ray.traceRay (Scene.Player.position (Scene.player scene)) direction
      scene Ray.MAX_BOUNCES = Some r.
Proof.
  rewrite castRays_eq, in_flat_map. intros [i [_ Hin]].
  now apply castRay_In in Hin.
Qed.

Lemma filterBoolean_In (l : list (option (Ray.Ray num))) r :
  In r (Ray.filterBoolean l) <-> In (Some r) l.
Proof.
  unfold Ray.filterBoolean. rewrite in_flat_map. split.
  - intros [[x|] [Hx Hin]]; [|destruct Hin].
    destruct Hin as [<- | []]. assumption.
  - intros Hin. exists (Some r). split; [assumption | now left].
Qed.

Lemma trace_In (scene : Scene.Scene num) r :
  In r (Ray.trace scene) <->
  exists e, In e (Scene.entities scene) /\
            Ray.bestRay (Ray.castRays scene) e = Some r.
Proof.
  rewrite trace_eq, filterBoolean_In, in_map_iff.
  split; intros [e He]; exists e; tauto.
Qed.

Lemma hasCandidate_eq (scene : Scene.Scene num) e :
  hasCandidate scene e
  = existsb (fun ray => Ray.targets ray e) (Ray.castRays scene).
Proof. unfold hasCandidate. reflexivity. Qed.

(** [trace] on a scene with one entity that some candidate targets. *)
Lemma trace_single_entity (scene : Scene.Scene num) e :
  Scene.entities scene = [e] ->
  hasCandidate scene e = true ->
  exists r, Ray.trace scene = [r] /\
            Ray.entityId r = Some (Scene.Entity.id e) /\
            In r (Ray.castRays scene).
Proof.
  rewrite trace_eq, hasCandidate_eq. intros -> Hex.
  generalize dependent (Ray.castRays scene). intros rays Hex.
  destruct (Ray.bestRay rays e) as [r|] eqn:Hbest.
  - exists r. destruct (bestRay_In _ _ _ Hbest) as [Hin Hid].
    simpl. rewrite Hbest. auto.
  - apply bestRay_None in Hbest. congruence.
Qed.

(** Every ray that [trace] returns was accepted by [traceRay]: it left
    the viewer, bounced off at least one mirror and fewer than
    [MAX_BOUNCES], and then met the entity it is tagged with. *)
Lemma trace_paths (scene : Scene.Scene num) :
  Forall (fun r =>
            exists hits final,
              BouncedPath scene r hits final /\
              hits <> [] /\ List.length hits < Ray.MAX_BOUNCES /\
              truthy (Ray.entityId r) = true)
         (Ray.trace scene).
Proof.
  apply Forall_forall. intros r Hr.
  apply trace_In in Hr. destruct Hr as [e0 [_ Hbest]].
  apply bestRay_In in Hbest. destruct Hbest as [Hcast _].
  apply castRays_In in Hcast. destruct Hcast as [direction Hray].
  apply traceRay_returns in Hray.
  destruct Hray as [hits [final [e [Hhist [Hne [Hlen [Hhits [He [Hid [Ht Hfinal]]]]]]]]]].
  exists hits, final. unfold BouncedPath. repeat split; auto.
  exists e. auto.
Qed.

(** C10: a returned ray bounced off at most 9 mirrors, so that its
    history has at most 11 points: the position of the viewer, at most 9
    hits on mirrors, and the final hit on the entity. *)
Theorem trace_bounce_limit (scene : Scene.Scene num) :
  Forall (fun r =>
            exists hits final,
              BouncedPath scene r hits final /\
              List.length hits <= 9 /\
              List.length (Ray.history r) <= 11)
         (Ray.trace scene).
Proof.
  eapply Forall_impl; [|apply trace_paths]. simpl.
  intros r [hits [final [Hpath [_ [Hlen _]]]]].
  exists hits, final. unfold Ray.MAX_BOUNCES in Hlen.
  split; [assumption|]. split; [lia|].
  destruct Hpath as [-> _]. simpl. rewrite length_app. simpl. lia.
Qed.


Lemma traceRay_no_mirrors (player : Scene.Player.t num) entities o d maxBounces :
  Ray.traceRay o d (Scene.mkScene player entities []) maxBounces = None.
Proof.
  destruct (Ray.traceRay o d _ maxBounces) as [r|] eqn:Hray; [|reflexivity].
  apply traceRay_returns in Hray.
  destruct Hray as [hits [final [e [_ [Hne [_ [Hhits _]]]]]]].
  destruct hits as [|p hits]; [congruence|].
  inversion Hhits as [|? ? [o' [d' [m [i [[] _]]]]] _].
Qed.

(** C8: without mirrors [trace] returns no ray and
    [calculateVirtualImages] returns no image; both return. *)
Theorem no_mirrors_no_output (player : Scene.Player.t num) entities bounds :
  Ray.trace (Scene.mkScene player entities []) = [] /\
  Virtual.calculateVirtualImages (Scene.mkScene player entities []) bounds
  = Some [].
Proof.
  split; [|reflexivity].
  assert (Hcast : Ray.castRays (Scene.mkScene player entities []) = []).
  { rewrite castRays_eq.
    induction (seq 0 Ray.rayCount) as [|i l IH]; [reflexivity|].
    simpl. rewrite IH, app_nil_r. unfold Ray.castRay.
    now rewrite traceRay_no_mirrors. }
  rewrite trace_eq, Hcast. cbn [Scene.entities]. clear Hcast.
  induction entities as [|e es IH]; [reflexivity | exact IH].
Qed.
End TraceFacts.

Section RealRays.
Local Open Scope R_scope.

Lemma EPSILON_pos : 0 < @Ray.EPSILON R _.
Proof. unfold Ray.EPSILON. cbn. unfold Q2R. cbn. lra. Qed.

(** The point [rayLineIntersection] returns lies on the segment. *)
Lemma rayLineIntersection_on_segment (o d s e : vec2.t R) i :
  Ray.rayLineIntersection o d s e = Some i ->
  onSegment (Ray.Intersection.point i) s e.
Proof.
  destruct o as [ox oy], d as [dx dy], s as [sx sy], e as [ex ey].
  unfold Ray.rayLineIntersection, vec2.sub. cbn [fst snd Math_fround exactStorage].
  pose proof EPSILON_pos as Heps.
  set (cross1 := (dx * (ey - sy) - dy * (ex - sx))%num).
  destruct (num_ltb (Math_abs cross1) Ray.EPSILON) eqn:H1; [discriminate|].
  apply num_ltb_R_false in H1.
  set (t := (_ / cross1)%num).
  destruct (num_ltb t Ray.EPSILON) eqn:H2; [discriminate|].
  set (u := (_ / cross1)%num).
  destruct (num_ltb u (ofZ 0) || num_ltb (ofZ 1) u) eqn:H3; [discriminate|].
  apply orb_false_iff in H3. destruct H3 as [H3 H4].
  apply num_ltb_R_false in H3, H4.
  intros Hi. inversion Hi; subst i. cbn [Ray.Intersection.point].
  exists u. split; [split; [exact H3 | exact H4]|].
  assert (Hc : cross1 <> 0).
  { intros E. rewrite E in H1. cbn in H1. rewrite Rabs_R0 in H1. lra. }
  unfold vec2.scaleAndAdd, u, t. unfold cross1 in *. cbn in Hc |- *.
  f_equal; field; exact Hc.
Qed.

Lemma MirrorHit_onSomeMirror (scene : Scene.Scene R) p :
  MirrorHit scene p -> onSomeMirror scene p.
Proof.
  intros [o [d [m [i [Hm [Hi ->]]]]]]. exists m. split; [assumption|].
  rewrite clone_id. now apply (rayLineIntersection_on_segment o d).
Qed.

(** X27: in exact arithmetic, every ray returned by [trace] has at least
    two points in its history, has an entity id set (the non-empty id of
    an entity of the scene), and has a point of its history on a mirror
    segment.  More precisely, after the position of the viewer the history
    consists of one or more points that lie on mirrors and then the hit on
    the entity: the point just after the viewer is never the entity.
    (The implementation stores every point in single precision, and a
    stored point is on the segment only up to that rounding.) *)
Theorem trace_rays_bounced (scene : Scene.Scene R) :
  Forall (fun r =>
            2 <= List.length (Ray.history r) /\
            (exists id, Ray.entityId r = Some id /\ id <> EmptyString) /\
            Exists (onSomeMirror scene) (Ray.history r) /\
            exists hits final,
              BouncedPath scene r hits final /\
              hits <> [] /\ Forall (onSomeMirror scene) hits)%nat
         (Ray.trace scene).
Proof.
  eapply Forall_impl; [|apply trace_paths]. simpl.
  intros r [hits [final [Hpath [Hne [_ Htruthy]]]]].
  assert (Hon : Forall (onSomeMirror scene) hits).
  { destruct Hpath as [_ [Hhits _]].
    eapply Forall_impl; [|exact Hhits]. apply MirrorHit_onSomeMirror. }
  pose proof Hpath as [Hhist _].
  split; [|split; [|split]].
  - rewrite Hhist. simpl. rewrite length_app. simpl. lia.
  - unfold truthy in Htruthy. destruct (Ray.entityId r) as [id|]; [|discriminate].
    exists id. split; [reflexivity|]. intros ->. discriminate.
  - rewrite Hhist. apply Exists_cons_tl, Exists_app. left.
    destruct hits as [|p hits]; [congruence|].
    apply Exists_cons_hd. now inversion Hon.
  - exists hits, final. auto.
Qed.
End RealRays.

Section SelectionFacts.
Context {num : Type} `{Number num} `{Storage num}.

Lemma sort_nil {A : Type} (compare : A -> A -> num) l :
  Ray.sort compare l = [] -> l = [].
Proof.
  destruct l as [|a l]; [reflexivity|]. intros Hs.
  assert (Hin : In a (Ray.sort compare (a :: l))) by (apply sort_In; now left).
  rewrite Hs in Hin. destruct Hin.
Qed.

(** The ids of the rays kept by the selection: one for each entity that
    some candidate targets, in the order of the entities. *)
Lemma selected_ids rays (l : list (Scene.Entity.t num)) :
  map (@Ray.entityId num) (Ray.filterBoolean (map (Ray.bestRay rays) l))
  = map (fun e => Some (Scene.Entity.id e))
      (filter (fun e => existsb (fun ray => Ray.targets ray e) rays) l).
Proof.
  induction l as [|e l IH]; [reflexivity|]. simpl.
  destruct (Ray.bestRay rays e) as [r|] eqn:Hbest.
  - destruct (existsb _ rays) eqn:Hex.
    + simpl. rewrite IH. f_equal. now apply bestRay_In in Hbest.
    + apply bestRay_None in Hex. congruence.
  - apply bestRay_None in Hbest. rewrite Hbest. exact IH.
Qed.

Lemma selected_In rays (l : list (Scene.Entity.t num)) r :
  In r (Ray.filterBoolean (map (Ray.bestRay rays) l)) ->
  exists e, In e l /\ Ray.bestRay rays e = Some r.
Proof.
  rewrite filterBoolean_In, in_map_iff. intros [e He]. exists e. tauto.
Qed.

Lemma selected_none rays (l : list (Scene.Entity.t num)) e :
  Ray.bestRay rays e = None ->
  filter (fun ray => Ray.targets ray e)
    (Ray.filterBoolean (map (Ray.bestRay rays) l)) = [].
Proof.
  intros Hnone. apply bestRay_None in Hnone.
  destruct (filter _ _) as [|r rest] eqn:Hf; [reflexivity|].
  assert (Hin : In r (filter (fun ray => Ray.targets ray e)
                        (Ray.filterBoolean (map (Ray.bestRay rays) l))))
    by (rewrite Hf; now left).
  apply filter_In in Hin. destruct Hin as [Hsel Ht].
  apply selected_In in Hsel. destruct Hsel as [e' [_ Hbest]].
  apply bestRay_In in Hbest. destruct Hbest as [Hr _].
  assert (existsb (fun ray => Ray.targets ray e) rays = true)
    by (apply existsb_exists; eauto).
  congruence.
Qed.

Lemma selected_other rays (l : list (Scene.Entity.t num)) e :
  ~ In (Scene.Entity.id e) (map (@Scene.Entity.id num) l) ->
  filter (fun ray => Ray.targets ray e)
    (Ray.filterBoolean (map (Ray.bestRay rays) l)) = [].
Proof.
  intros Hfresh.
  destruct (filter _ _) as [|r rest] eqn:Hf; [reflexivity|].
  assert (Hin : In r (filter (fun ray => Ray.targets ray e)
                        (Ray.filterBoolean (map (Ray.bestRay rays) l))))
    by (rewrite Hf; now left).
  apply filter_In in Hin. destruct Hin as [Hsel Ht].
  apply selected_In in Hsel. destruct Hsel as [e' [He' Hbest]].
  apply bestRay_In in Hbest. destruct Hbest as [_ Hid].
  apply targets_true in Ht. rewrite Hid in Ht. inversion Ht as [Heq].
  exfalso. apply Hfresh. rewrite <- Heq. now apply in_map.
Qed.

(** With distinct entity ids, exactly one of the rays kept targets an
    entity that has a candidate: the one selected for it. *)
Lemma selected_unique rays (l : list (Scene.Entity.t num)) e r :
  NoDup (map (@Scene.Entity.id num) l) ->
  In e l ->
  Ray.bestRay rays e = Some r ->
  filter (fun ray => Ray.targets ray e)
    (Ray.filterBoolean (map (Ray.bestRay rays) l)) = [r].
Proof.
  induction l as [|a l IH]; intros Hnd He Hbest; [destruct He|].
  simpl in Hnd. inversion Hnd as [|? ? Hfresh Hnd']; subst.
  change (Ray.filterBoolean (map (Ray.bestRay rays) (a :: l)))
    with ((match Ray.bestRay rays a with Some ray => [ray] | None => [] end)
          ++ Ray.filterBoolean (map (Ray.bestRay rays) l)).
  rewrite filter_app. destruct He as [-> | He].
  - rewrite Hbest, (selected_other rays l e Hfresh), app_nil_r. simpl.
    apply bestRay_In in Hbest. destruct Hbest as [_ Hid].
    apply targets_true in Hid. now rewrite Hid.
  - rewrite (IH Hnd' He Hbest).
    destruct (Ray.bestRay rays a) as [ra|] eqn:Ha; [|reflexivity].
    simpl. destruct (Ray.targets ra e) eqn:Ht; [|reflexivity].
    apply targets_true in Ht. apply bestRay_In in Ha. destruct Ha as [_ Hid].
    rewrite Hid in Ht. inversion Ht as [Heq].
    exfalso. apply Hfresh. rewrite Heq. now apply in_map.
Qed.
End SelectionFacts.

Section RealEvaluation.
Local Open Scope R_scope.

Lemma EPSILON_R : @Ray.EPSILON R _ = 1 / 1000000.
Proof. unfold Ray.EPSILON. cbn. unfold Q2R. cbn. lra. Qed.

Lemma rayLineIntersection_parallel (ox oy dx dy sx sy ex ey : R) :
  dx * (ey - sy) - dy * (ex - sx) = 0 ->
  Ray.rayLineIntersection (ox, oy) (dx, dy) (sx, sy) (ex, ey) = None.
Proof.
  intros Hc. unfold Ray.rayLineIntersection, vec2.sub. cbn [fst snd Math_fround exactStorage].
  assert (Hlt : num_ltb (Math_abs (dx * (ey - sy) - dy * (ex - sx))%num)
                  Ray.EPSILON = true).
  { apply num_ltb_R. cbn. rewrite Hc, Rabs_R0. apply EPSILON_pos. }
  now rewrite Hlt.
Qed.

Lemma rayLineIntersection_behind (ox oy dx dy sx sy ex ey : R) :
  ((sx - ox) * (ey - sy) - (sy - oy) * (ex - sx))
  / (dx * (ey - sy) - dy * (ex - sx)) < 1 / 1000000 ->
  Ray.rayLineIntersection (ox, oy) (dx, dy) (sx, sy) (ex, ey) = None.
Proof.
  intros Ht. unfold Ray.rayLineIntersection, vec2.sub. cbn [fst snd Math_fround exactStorage].
  destruct (num_ltb (Math_abs _) Ray.EPSILON); [reflexivity|].
  assert (Hlt : num_ltb
            (((sx - ox) * (ey - sy) - (sy - oy) * (ex - sx))
             / (dx * (ey - sy) - dy * (ex - sx)))%num Ray.EPSILON = true).
  { apply num_ltb_R. rewrite EPSILON_R. exact Ht. }
  now rewrite Hlt.
Qed.

Lemma rayLineIntersection_hit (ox oy dx dy sx sy ex ey : R) :
  let cross1 := dx * (ey - sy) - dy * (ex - sx) in
  let t := ((sx - ox) * (ey - sy) - (sy - oy) * (ex - sx)) / cross1 in
  let u := ((sx - ox) * dy - (sy - oy) * dx) / cross1 in
  1 / 1000000 <= cross1 \/ cross1 <= - (1 / 1000000) ->
  1 / 1000000 <= t ->
  0 <= u <= 1 ->
  Ray.rayLineIntersection (ox, oy) (dx, dy) (sx, sy) (ex, ey)
  = Some (Ray.Intersection.mk (ox + dx * t, oy + dy * t) t
            (vec2.normalize (- (ey - sy), ex - sx)) None None).
Proof.
  intros cross1 t u Hc Ht Hu.
  unfold Ray.rayLineIntersection, vec2.sub. cbn [fst snd Math_fround exactStorage].
  assert (H1 : num_ltb (Math_abs (dx * (ey - sy) - dy * (ex - sx))%num)
                 Ray.EPSILON = false).
  { apply num_ltb_R_false. rewrite EPSILON_R. cbn. fold cross1.
    unfold Rabs. destruct (Rcase_abs cross1); lra. }
  rewrite H1.
  assert (H2 : num_ltb
            (((sx - ox) * (ey - sy) - (sy - oy) * (ex - sx))
             / (dx * (ey - sy) - dy * (ex - sx)))%num Ray.EPSILON = false).
  { apply num_ltb_R_false. rewrite EPSILON_R. exact Ht. }
  rewrite H2.
  assert (H3 : num_ltb
            (((sx - ox) * dy - (sy - oy) * dx)
             / (dx * (ey - sy) - dy * (ex - sx)))%num (ofZ 0) = false).
  { apply num_ltb_R_false. exact (proj1 Hu). }
  assert (H4 : num_ltb (ofZ 1)
            (((sx - ox) * dy - (sy - oy) * dx)
             / (dx * (ey - sy) - dy * (ex - sx)))%num = false).
  { apply num_ltb_R_false. exact (proj2 Hu). }
  rewrite H3, H4. reflexivity.
Qed.
End RealEvaluation.

Section FacingMirror.
Import Scenes.
Local Open Scope R_scope.
Local Open Scope string_scope.

Lemma normalize_left (a : R) : a < 0 -> @vec2.normalize R _ _ (a, 0) = (-1, 0).
Proof.
  intros Ha. unfold vec2.normalize. cbn.
  replace (a * a + 0 * 0) with ((- a) * (- a)) by ring.
  destruct (Rlt_dec 0 (- a * - a)) as [_|Hn]; [|nra].
  rewrite sqrt_square by lra. f_equal; field; lra.
Qed.

Ltac ray_line_miss :=
  first [ rewrite rayLineIntersection_parallel by lra
        | rewrite rayLineIntersection_behind by lra ].

Lemma nearest_towards_mirror :
  Ray.findNearestIntersection (400, 300) (-1, 0) facingMirror true
  = Some (Ray.Intersection.mk (300, 300) 100 (-1, 0) (Some "mirror_1") None).
Proof.
  unfold Ray.findNearestIntersection, facingMirror, mirror_1.
  cbn [Scene.mirrors Scene.entities fold_left negb].
  unfold Ray.nearestMirrorStep.
  cbn [Scene.Mirror.start Scene.Mirror.end_ Scene.Mirror.id].
  rewrite rayLineIntersection_hit by lra.
  cbn [Ray.closer Ray.Intersection.point Ray.Intersection.distance
       Ray.Intersection.normal Ray.Intersection.entityId].
  unfold Ray.nearestEntityStep, Scene.entity, Ray.rayTriangleIntersection,
    Scene.ENTITY_SIZE, vec2.fromValues.
  cbn [Scene.Entity.vertices Ray.firstEdgeHit ofZ RNumber num_add num_sub Math_fround exactStorage].
  repeat ray_line_miss.
  replace (- (400 - 200)) with (-200) by lra.
  replace (300 - 300) with 0 by lra.
  rewrite normalize_left by lra.
  do 2 f_equal; [f_equal|]; lra.
Qed.

Lemma nearest_after_bounce :
  exists normal,
    Ray.findNearestIntersection (300, 300) (1, 0) facingMirror true
    = Some (Ray.Intersection.mk (446, 300) 146 normal None (Some "entity_1")).
Proof.
  unfold Ray.findNearestIntersection, facingMirror, mirror_1.
  cbn [Scene.mirrors Scene.entities fold_left negb].
  unfold Ray.nearestMirrorStep.
  cbn [Scene.Mirror.start Scene.Mirror.end_ Scene.Mirror.id].
  ray_line_miss.
  unfold Ray.nearestEntityStep, Scene.entity, Ray.rayTriangleIntersection,
    Scene.ENTITY_SIZE, vec2.fromValues.
  cbn [Scene.Entity.vertices Ray.firstEdgeHit ofZ RNumber num_add num_sub Math_fround exactStorage].
  rewrite rayLineIntersection_hit by lra.
  cbn [Ray.closer Ray.Intersection.point Ray.Intersection.distance
       Ray.Intersection.normal Ray.Intersection.mirrorId Scene.Entity.id].
  eexists. do 2 f_equal; [f_equal|]; lra.
Qed.

Lemma reflect_off_mirror_1 :
  @Ray.reflect R _ _ (-1, 0) (-1, 0) = (1, 0).
Proof. unfold Ray.reflect, vec2.dot, vec2.scaleAndAdd. cbn. f_equal; lra. Qed.

Lemma traceLoop_step remaining (scene : Scene.Scene R) ray o d hitMirror :
  Ray.traceLoop (S remaining) scene ray o d hitMirror
  = match Ray.findNearestIntersection o d scene true with
    | None => None
    | Some intersection =>
        let ray :=
          Ray.mkRay (Ray.origin ray) (Ray.direction ray)
            (Ray.history ray ++ [vec2.clone (Ray.Intersection.point intersection)])
            (Ray.entityId ray) in
        if truthy (Ray.Intersection.mirrorId intersection) then
          Ray.traceLoop remaining scene ray
            (vec2.clone (Ray.Intersection.point intersection))
            (Ray.reflect d (Ray.Intersection.normal intersection)) true
        else if hitMirror && truthy (Ray.Intersection.entityId intersection) then
          Some (Ray.mkRay (Ray.origin ray) (Ray.direction ray) (Ray.history ray)
                  (Ray.Intersection.entityId intersection))
        else None
    end.
Proof. reflexivity. Qed.

(** A ray sent from the viewer straight at the mirror comes back, passes
    the viewer and meets the entity behind it. *)
Lemma traceRay_facingMirror :
  Ray.traceRay (400, 300) (-1, 0) facingMirror Ray.MAX_BOUNCES
  = Some bouncedRay.
Proof.
  unfold Ray.traceRay, Ray.MAX_BOUNCES, vec2.clone. cbn [fst snd Math_fround exactStorage].
  rewrite traceLoop_step, nearest_towards_mirror.
  cbn [Ray.Intersection.mirrorId Ray.Intersection.point Ray.Intersection.normal
       truthy String.eqb Ascii.eqb Bool.eqb negb fst snd Ray.history Ray.origin Ray.direction
       Ray.entityId app].
  rewrite reflect_off_mirror_1.
  unfold vec2.clone. cbn [fst snd Math_fround exactStorage].
  rewrite traceLoop_step.
  destruct nearest_after_bounce as [normal ->].
  reflexivity.
Qed.

(** The ray cast at index 64, half a turn from angle 0, is this one. *)
Lemma castRay_facingMirror : Ray.castRay facingMirror 64 = [bouncedRay].
Proof.
  unfold Ray.castRay, Ray.rayCount.
  assert (Hangle : (ofZ (Z.of_nat 64) / ofZ (Z.of_nat 128) * Math_PI * ofZ 2)%num
                   = PI).
  { cbn. field. }
  rewrite Hangle. cbn [Math_cos Math_sin RNumber].
  rewrite cos_PI, sin_PI. unfold vec2.fromValues.
  cbn [Math_fround exactStorage].
  cbn [facingMirror Scene.player Scene.Player.position].
  change (Ray.traceRay (400, 300) (-1, 0)
            {| Scene.player := {| Scene.Player.position := (400, 300) |};
               Scene.entities := [Scene.entity (450, 300) "entity_1"];
               Scene.mirrors := [mirror_1] |} Ray.MAX_BOUNCES)
    with (Ray.traceRay (400, 300) (-1, 0) facingMirror Ray.MAX_BOUNCES).
  rewrite traceRay_facingMirror. reflexivity.
Qed.

Lemma castRays_facingMirror : In bouncedRay (Ray.castRays facingMirror).
Proof.
  rewrite castRays_eq. apply in_flat_map. exists 64%nat. split.
  - apply in_seq. unfold Ray.rayCount. lia.
  - rewrite castRay_facingMirror. now left.
Qed.

Lemma hasCandidate_facingMirror :
  hasCandidate facingMirror (Scene.entity (450, 300) "entity_1") = true.
Proof.
  rewrite hasCandidate_eq. apply existsb_exists. exists bouncedRay.
  split; [apply castRays_facingMirror | reflexivity].
Qed.

Lemma entities_facingMirror :
  Scene.entities facingMirror = [Scene.entity (450, 300) "entity_1"].
Proof. reflexivity. Qed.

(** [trace] does return rays: in [facingMirror] it returns one ray, for
    the entity. *)
Lemma trace_facingMirror :
  exists r, Ray.trace facingMirror = [r] /\
            Ray.entityId r = Some "entity_1" /\
            In r (Ray.castRays facingMirror).
Proof.
  exact (trace_single_entity facingMirror _ entities_facingMirror
           hasCandidate_facingMirror).
Qed.

End FacingMirror.

(** * More on the virtual images *)

Section ImageRecords.
Context {num : Type} `{Number num} `{Storage num}.

Lemma createVirtualRoom_Forall (P : Virtual.VirtualImage num -> Prop)
    bounds (room : Scene.Scene num) m n chain :
  Forall P (Virtual.playerImages bounds room m n chain) ->
  (forall e, In e (Scene.entities room) ->
             Forall P (Virtual.entityImages bounds m n chain e)) ->
  (forall m', In m' (Scene.mirrors room) ->
              Forall P (Virtual.mirrorImages bounds m n chain m')) ->
  Forall P (Virtual.createVirtualRoom bounds room m n chain).
Proof.
  intros Hp He Hm. apply Forall_forall. intros img Himg.
  apply createVirtualRoom_In in Himg.
  destruct Himg as [Hin | [[e [Hin1 Hin]] | [m' [Hin1 Hin]]]].
  - exact (proj1 (Forall_forall _ _) Hp img Hin).
  - exact (proj1 (Forall_forall _ _) (He e Hin1) img Hin).
  - exact (proj1 (Forall_forall _ _) (Hm m' Hin1) img Hin).
Qed.

(** X1: every emitted image counts its reflections: [bounces] is the
    length of the mirror chain, [virtualRoom] is the same number, it is at
    least 1, and [isVisible] is set. *)
Theorem calculateVirtualImages_bounces_count_chain
    (scene : Scene.Scene num) bounds :
  exists imgs,
    Virtual.calculateVirtualImages scene bounds = Some imgs /\
    Forall (fun img =>
              Virtual.bounces img = List.length (Virtual.mirrorChain img) /\
              Virtual.virtualRoom img = Virtual.bounces img /\
              1 <= Virtual.bounces img /\
              Virtual.isVisible img = true) imgs.
Proof.
  destruct (calculateVirtualImages_total scene bounds) as [imgs Hrun].
  exists imgs. split; [assumption|].
  unfold Virtual.calculateVirtualImages in Hrun.
  refine (calculateVirtualRoomsRecursive_Forall _
            (fun _ n chain => n = S (List.length chain))
            _ _ _ _ _ _ _ _ _ Hrun); [|reflexivity].
  intros room n chain m Hn _ _. split.
  - apply Forall_forall. intros img Himg.
    apply createVirtualRoom_chain in Himg.
    destruct Himg as [-> [-> [-> ->]]].
    rewrite length_app. simpl. subst n. repeat split; lia.
  - rewrite length_app. simpl. lia.
Qed.

Lemma nextRoom_entity_ids (room : Scene.Scene num) m :
  map (@Scene.Entity.id num) (Scene.entities (Virtual.nextRoom room m))
  = map (@Scene.Entity.id num) (Scene.entities room).
Proof. simpl. rewrite map_map. reflexivity. Qed.

Lemma nextRoom_mirror_ids (room : Scene.Scene num) m :
  map (@Scene.Mirror.id num) (Scene.mirrors (Virtual.nextRoom room m))
  = map (@Scene.Mirror.id num) (Scene.mirrors room).
Proof. simpl. rewrite map_map. reflexivity. Qed.

(** X2: an emitted image names an original of the scene.  A player
    image has the id [player], an entity image the id of an entity of the
    scene, a mirror image the id of a mirror of the scene; [mirrorData] is
    present on the mirror images and on no other. *)
Theorem calculateVirtualImages_original_ids (scene : Scene.Scene num) bounds :
  exists imgs,
    Virtual.calculateVirtualImages scene bounds = Some imgs /\
    Forall (fun img =>
              match Virtual.originalType img with
              | Virtual.player =>
                  Virtual.originalId img = "player"%string /\
                  Virtual.mirrorData img = None
              | Virtual.entity =>
                  In (Virtual.originalId img)
                     (map (@Scene.Entity.id num) (Scene.entities scene)) /\
                  Virtual.mirrorData img = None
              | Virtual.mirror =>
                  In (Virtual.originalId img)
                     (map (@Scene.Mirror.id num) (Scene.mirrors scene)) /\
                  Virtual.mirrorData img <> None
              end) imgs.
Proof.
  destruct (calculateVirtualImages_total scene bounds) as [imgs Hrun].
  exists imgs. split; [assumption|].
  unfold Virtual.calculateVirtualImages in Hrun.
  refine (calculateVirtualRoomsRecursive_Forall _
            (fun room _ _ =>
               map (@Scene.Entity.id num) (Scene.entities room)
               = map (@Scene.Entity.id num) (Scene.entities scene) /\
               map (@Scene.Mirror.id num) (Scene.mirrors room)
               = map (@Scene.Mirror.id num) (Scene.mirrors scene))
            _ _ _ _ _ _ _ _ _ Hrun); [|now split].
  intros room n chain m [He Hm] _ _. split.
  - apply createVirtualRoom_Forall.
    + unfold Virtual.playerImages.
      destruct (Virtual.isPointInBounds bounds _); repeat constructor.
    + intros e Hin. unfold Virtual.entityImages.
      destruct (Virtual.isPointInBounds bounds _); repeat constructor.
      simpl. rewrite <- He. now apply in_map.
    + intros m' Hin. unfold Virtual.mirrorImages.
      destruct (_ || _); repeat constructor; simpl.
      * rewrite <- Hm. now apply in_map.
      * discriminate.
  - now rewrite nextRoom_entity_ids, nextRoom_mirror_ids.
Qed.
End ImageRecords.

Section ReflectionSequences.
Context {num : Type} `{Number num} `{Storage num}.

(** The calls of the recursion are those for the sequences of mirrors of
    the scene without a repeated id. *)
Lemma Explored_sequence (scene : Scene.Scene num) room n chain :
  Explored scene room n chain <->
  exists ms,
    incl ms (Scene.mirrors scene) /\
    NoDup (map (@Scene.Mirror.id num) ms) /\
    chain = map (@Scene.Mirror.id num) ms /\
    n = S (List.length ms) /\
    room = roomThrough scene ms.
Proof.
  split.
  - induction 1 as [|room n chain m _ IH Hm Hinc].
    + exists []. repeat split; [intros x [] | constructor].
    + destruct IH as [ms [Hincl [Hnd [-> [-> ->]]]]].
      exists (ms ++ [m]). split; [|split; [|split; [|split]]].
      * apply incl_app; [assumption | intros x [<- | []]; assumption].
      * rewrite map_app. apply NoDup_app; [assumption | repeat constructor; intros [] |].
        intros x Hx [<- | []]. now apply includes_false_not_In in Hinc.
      * now rewrite map_app.
      * rewrite length_app. simpl. lia.
      * unfold roomThrough. now rewrite fold_left_app.
  - intros [ms [Hincl [Hnd [-> [-> ->]]]]].
    induction ms as [|m ms IH] using rev_ind; [constructor|].
    rewrite map_app in Hnd |- *. rewrite length_app. simpl.
    unfold roomThrough. rewrite fold_left_app. simpl.
    replace (S (List.length ms + 1)) with (S (List.length ms) + 1) by lia.
    apply NoDup_remove in Hnd. rewrite app_nil_r in Hnd. destruct Hnd as [Hnd Hfresh].
    constructor.
    + apply IH; [|assumption]. intros x Hx. apply Hincl, in_app_iff. now left.
    + apply Hincl, in_app_iff. right. now left.
    + now apply includes_false_not_In.
Qed.

(** Every image comes from the room of some call. *)
Lemma calculateVirtualRoomsRecursive_from_room
    (scene : Scene.Scene num) bounds fuel room n chain imgs img :
  Explored scene room n chain ->
  Virtual.calculateVirtualRoomsRecursive fuel bounds room
    (Scene.mirrors scene) n chain = Some imgs ->
  In img imgs ->
  exists room' n' chain' m,
    Explored scene room' n' chain' /\
    In m (Scene.mirrors scene) /\
    includes chain' (Scene.Mirror.id m) = false /\
    In img (Virtual.createVirtualRoom bounds room' m n' chain').
Proof.
  revert room n chain imgs.
  induction fuel as [|fuel IH]; intros room n chain imgs Hexp Hrun Himg;
    [discriminate|].
  apply (calculateVirtualRoomsRecursive_In _ _ _ _ _ _ _ img Hrun) in Himg.
  destruct Himg as [m [nested [Hm [Hinc [Hnested [Hin | Hin]]]]]].
  - exists room, n, chain, m. auto.
  - apply (IH (Virtual.nextRoom room m) (n + 1)
             (chain ++ [Scene.Mirror.id m]) nested); [|assumption|assumption].
    now constructor.
Qed.

(** The images returned are those of the rooms of the reflection
    sequences of the scene. *)
Lemma images_of_rooms (scene : Scene.Scene num) bounds imgs :
  Virtual.calculateVirtualImages scene bounds = Some imgs ->
  forall img,
    In img imgs <->
    exists ms m,
      reflectionSequence scene (ms ++ [m]) /\
      In img (Virtual.createVirtualRoom bounds (roomThrough scene ms) m
                (List.length (ms ++ [m]))
                (map (@Scene.Mirror.id num) ms)).
Proof.
  intros Hrun img. split.
  - intros Himg.
    destruct (calculateVirtualRoomsRecursive_from_room scene bounds _ _ _ _
                imgs img (Explored_first scene) Hrun Himg)
      as [room [n [chain [m [Hexp [Hm [Hinc Hin]]]]]]].
    apply Explored_sequence in Hexp.
    destruct Hexp as [ms [Hincl [Hnd [-> [-> ->]]]]].
    exists ms, m. split.
    + split; [destruct ms; discriminate|]. split.
      * apply incl_app; [assumption | intros x [<- | []]; assumption].
      * rewrite map_app. apply NoDup_app; [assumption | repeat constructor; intros [] |].
        intros x Hx [<- | []]. now apply includes_false_not_In in Hinc.
    + rewrite length_app. simpl.
      replace (List.length ms + 1) with (S (List.length ms)) by lia. exact Hin.
  - intros [ms [m [[_ [Hincl Hnd]] Hin]]].
    rewrite map_app in Hnd. apply NoDup_remove in Hnd.
    rewrite app_nil_r in Hnd. destruct Hnd as [Hnd Hfresh].
    apply (Explored_room_images scene bounds imgs (roomThrough scene ms)
             (S (List.length ms)) (map (@Scene.Mirror.id num) ms) m Hrun).
    + apply Explored_sequence. exists ms. repeat split; [|assumption].
      intros x Hx. apply Hincl, in_app_iff. now left.
    + apply Hincl, in_app_iff. right. now left.
    + now apply includes_false_not_In.
    + rewrite length_app in Hin. simpl in Hin.
      replace (List.length ms + 1) with (S (List.length ms)) in Hin by lia.
      exact Hin.
Qed.

(** X3: the result is made of the rooms of the reflection sequences.
    An image is emitted exactly when [createVirtualRoom] produces it for
    some sequence [ms ++ [m]] of mirrors of the scene without a repeated
    id: in the room reached through [ms], reflected across [m], with the
    length of the sequence as room number and the ids of [ms] as chain. *)
Theorem calculateVirtualImages_rooms (scene : Scene.Scene num) bounds :
  exists imgs,
    Virtual.calculateVirtualImages scene bounds = Some imgs /\
    forall img,
      In img imgs <->
      exists ms m,
        reflectionSequence scene (ms ++ [m]) /\
        In img (Virtual.createVirtualRoom bounds (roomThrough scene ms) m
                  (List.length (ms ++ [m]))
                  (map (@Scene.Mirror.id num) ms)).
Proof.
  destruct (calculateVirtualImages_total scene bounds) as [imgs Hrun].
  exists imgs. split; [assumption | now apply images_of_rooms].
Qed.

Lemma roomThrough_player (scene : Scene.Scene num) ms :
  Scene.Player.position (Scene.player (roomThrough scene ms))
  = reflectThrough ms (Scene.Player.position (Scene.player scene)).
Proof.
  unfold roomThrough, reflectThrough.
  induction ms as [|m ms IH] using rev_ind; [reflexivity|].
  rewrite !fold_left_app. simpl. now rewrite IH.
Qed.

(** X4: the player images, exactly.  There is one for every
    non-empty sequence of mirrors of the scene without a repeated id
    across which the viewer, reflected in order, lands in bounds; it is at
    that reflected position, and counts and lists the mirrors of the
    sequence. *)
Theorem calculateVirtualImages_player_images (scene : Scene.Scene num) bounds :
  exists imgs,
    Virtual.calculateVirtualImages scene bounds = Some imgs /\
    forall img,
      In img imgs /\ Virtual.originalType img = Virtual.player <->
      exists ms,
        reflectionSequence scene ms /\
        Virtual.isPointInBounds bounds
          (reflectThrough ms (Scene.Player.position (Scene.player scene)))
        = true /\
        img = Virtual.mkVirtualImage "player" Virtual.player
                (reflectThrough ms (Scene.Player.position (Scene.player scene)))
                (List.length ms) true (map (@Scene.Mirror.id num) ms)
                (List.length ms) None.
Proof.
  destruct (calculateVirtualImages_total scene bounds) as [imgs Hrun].
  exists imgs. split; [assumption|]. intros img.
  rewrite (images_of_rooms scene bounds imgs Hrun). split.
  - intros [[ms [m [Hseq Hin]]] Htype]. exists (ms ++ [m]).
    split; [assumption|].
    apply createVirtualRoom_In in Hin.
    unfold Virtual.playerImages, Virtual.entityImages, Virtual.mirrorImages in Hin.
    rewrite roomThrough_player in Hin.
    unfold reflectThrough. rewrite fold_left_app, map_app. simpl. fold (reflectThrough ms).
    destruct Hin as [Hin | [[e [_ Hin]] | [m' [_ Hin]]]];
      match type of Hin with
      | In _ (if ?c then _ else _) =>
          destruct c eqn:Hc; simpl in Hin;
          [destruct Hin as [<- | []] | destruct Hin]
      end; try discriminate Htype.
    split; [exact Hc | reflexivity].
  - intros [ms [Hseq [Hb ->]]]. split; [|reflexivity].
    destruct Hseq as [Hne [Hincl Hnd]].
    destruct ms as [|m ms _] using rev_ind; [congruence|].
    exists ms, m. split; [now repeat split|].
    apply createVirtualRoom_In. left.
    unfold Virtual.playerImages. rewrite roomThrough_player.
    unfold reflectThrough in Hb |- *. rewrite fold_left_app in Hb |- *.
    simpl in Hb |- *. rewrite Hb, map_app. now left.
Qed.
End ReflectionSequences.

Section ImageKeys.
Context {num : Type} `{Number num} `{Storage num}.

Lemma entityImages_keys bounds (m : Scene.Mirror.t num) n chain es :
  NoDup (map (@Scene.Entity.id num) es) ->
  NoDup (map imageKey (flat_map (Virtual.entityImages bounds m n chain) es)) /\
  forall k, In k (map imageKey (flat_map (Virtual.entityImages bounds m n chain) es)) ->
            fst (fst k) = Virtual.entity /\
            In (snd (fst k)) (map (@Scene.Entity.id num) es).
Proof.
  induction es as [|e es IH]; intros Hnd; simpl.
  - split; [constructor | intros k []].
  - inversion Hnd as [|? ? Hfresh Hnd']; subst.
    destruct (IH Hnd') as [IHnd IHin]. rewrite map_app.
    unfold Virtual.entityImages at 1 3.
    destruct (Virtual.isPointInBounds bounds _); simpl.
    + split.
      * constructor; [|assumption]. intros Hin. apply IHin in Hin. simpl in Hin. tauto.
      * intros k [<- | Hk]; [simpl; auto|]. apply IHin in Hk. tauto.
    + split; [assumption|]. intros k Hk. apply IHin in Hk. tauto.
Qed.

Lemma mirrorImages_keys bounds (m : Scene.Mirror.t num) n chain ms :
  NoDup (map (@Scene.Mirror.id num) ms) ->
  NoDup (map imageKey (flat_map (Virtual.mirrorImages bounds m n chain) ms)) /\
  forall k, In k (map imageKey (flat_map (Virtual.mirrorImages bounds m n chain) ms)) ->
            fst (fst k) = Virtual.mirror /\
            In (snd (fst k)) (map (@Scene.Mirror.id num) ms).
Proof.
  induction ms as [|m' ms IH]; intros Hnd; simpl.
  - split; [constructor | intros k []].
  - inversion Hnd as [|? ? Hfresh Hnd']; subst.
    destruct (IH Hnd') as [IHnd IHin]. rewrite map_app.
    unfold Virtual.mirrorImages at 1 3.
    destruct (_ || _); simpl.
    + split.
      * constructor; [|assumption]. intros Hin. apply IHin in Hin. simpl in Hin. tauto.
      * intros k [<- | Hk]; [simpl; auto|]. apply IHin in Hk. tauto.
    + split; [assumption|]. intros k Hk. apply IHin in Hk. tauto.
Qed.

(** Within one room no two images have the same kind and original id. *)
Lemma createVirtualRoom_keys bounds (room : Scene.Scene num) m n chain :
  NoDup (map (@Scene.Entity.id num) (Scene.entities room)) ->
  NoDup (map (@Scene.Mirror.id num) (Scene.mirrors room)) ->
  NoDup (map imageKey (Virtual.createVirtualRoom bounds room m n chain)).
Proof.
  intros He Hm. unfold Virtual.createVirtualRoom. rewrite !map_app.
  destruct (entityImages_keys bounds m n chain _ He) as [Hend Hein].
  destruct (mirrorImages_keys bounds m n chain _ Hm) as [Hmnd Hmin].
  assert (Hp : forall k, In k (map imageKey (Virtual.playerImages bounds room m n chain)) ->
                         fst (fst k) = Virtual.player).
  { unfold Virtual.playerImages.
    destruct (Virtual.isPointInBounds bounds _); simpl; [|intros k []].
    intros k [<- | []]. reflexivity. }
  apply NoDup_app; [| apply NoDup_app; [assumption | assumption |] |].
  - unfold Virtual.playerImages.
    destruct (Virtual.isPointInBounds bounds _); simpl; repeat constructor.
    intros [].
  - intros k Hk1 Hk2. apply Hein in Hk1. apply Hmin in Hk2.
    destruct Hk1 as [Hk1 _], Hk2 as [Hk2 _]. congruence.
  - intros k Hk1 Hk2. apply Hp in Hk1. apply in_app_iff in Hk2.
    destruct Hk2 as [Hk2 | Hk2]; [apply Hein in Hk2 | apply Hmin in Hk2];
      destruct Hk2 as [Hk2 _]; congruence.
Qed.

(** The chain of every image of a call extends the chain of the call. *)
Lemma calculateVirtualRoomsRecursive_chain_prefix
    fuel bounds (room : Scene.Scene num) orig n chain imgs :
  Virtual.calculateVirtualRoomsRecursive fuel bounds room orig n chain = Some imgs ->
  Forall (fun img => exists suffix,
            suffix <> [] /\ Virtual.mirrorChain img = chain ++ suffix) imgs.
Proof.
  intros Hrun.
  refine (calculateVirtualRoomsRecursive_Forall _
            (fun _ _ c => exists s, c = chain ++ s)
            _ _ _ _ _ _ _ _ _ Hrun); [|exists []; now rewrite app_nil_r].
  intros room' n' c m [s ->] _ _. split.
  - apply Forall_forall. intros img Himg.
    apply createVirtualRoom_chain in Himg. destruct Himg as [-> _].
    exists (s ++ [Scene.Mirror.id m]). split; [destruct s; discriminate|].
    now rewrite app_assoc.
  - exists (s ++ [Scene.Mirror.id m]). now rewrite app_assoc.
Qed.

Lemma calculateVirtualRoomsRecursive_keys
    fuel bounds (room : Scene.Scene num) orig n chain imgs :
  NoDup (map (@Scene.Mirror.id num) orig) ->
  NoDup (map (@Scene.Entity.id num) (Scene.entities room)) ->
  NoDup (map (@Scene.Mirror.id num) (Scene.mirrors room)) ->
  Virtual.calculateVirtualRoomsRecursive fuel bounds room orig n chain = Some imgs ->
  NoDup (map imageKey imgs).
Proof.
  intros Horig. revert room n chain imgs.
  induction fuel as [|fuel IH]; intros room n chain imgs He Hm Hrun;
    [discriminate|].
  simpl in Hrun.
  set (body := fun mirror : Scene.Mirror.t num => _) in Hrun.
  assert (Hloop : forall ms imgs',
    NoDup (map (@Scene.Mirror.id num) ms) ->
    Virtual.forEachMirror body ms = Some imgs' ->
    NoDup (map imageKey imgs') /\
    Forall (fun img => exists m suffix,
              In m ms /\
              Virtual.mirrorChain img = chain ++ Scene.Mirror.id m :: suffix) imgs').
  { clear Hrun imgs Horig. induction ms as [|m ms IHms]; intros imgs' Hnd Hloop.
    - inversion Hloop; subst. split; constructor.
    - simpl in Hloop. inversion Hnd as [|? ? Hfresh Hnd']; subst.
      destruct (body m) as [here|] eqn:Hbody; [|discriminate].
      destruct (Virtual.forEachMirror body ms) as [after|] eqn:Hafter; [|discriminate].
      inversion Hloop; subst imgs'. clear Hloop.
      destruct (IHms after Hnd' eq_refl) as [IHnd IHch].
      assert (Hhere : NoDup (map imageKey here) /\
                Forall (fun img => exists suffix,
                  Virtual.mirrorChain img = chain ++ Scene.Mirror.id m :: suffix) here).
      { unfold body in Hbody.
        destruct (includes chain (Scene.Mirror.id m)).
        - inversion Hbody; subst. split; constructor.
        - destruct (Virtual.calculateVirtualRoomsRecursive fuel bounds _ orig _ _)
            as [nested|] eqn:Hnested; [|discriminate].
          inversion Hbody; subst here. clear Hbody.
          pose proof (calculateVirtualRoomsRecursive_chain_prefix _ _ _ _ _ _ _ Hnested)
            as Hprefix.
          assert (Hroom : Forall (fun img =>
                    Virtual.mirrorChain img = chain ++ [Scene.Mirror.id m])
                    (Virtual.createVirtualRoom bounds room m n chain)).
          { apply Forall_forall. intros img Himg.
            now apply createVirtualRoom_chain in Himg. }
          split.
          + rewrite map_app. apply NoDup_app.
            * now apply createVirtualRoom_keys.
            * apply (IH (Virtual.nextRoom room m) (n + 1)
                       (chain ++ [Scene.Mirror.id m]) nested); [| |exact Hnested].
              -- now rewrite nextRoom_entity_ids.
              -- now rewrite nextRoom_mirror_ids.
            * intros k Hk1 Hk2.
              apply in_map_iff in Hk1. destruct Hk1 as [i1 [<- Hi1]].
              apply in_map_iff in Hk2. destruct Hk2 as [i2 [Heq Hi2]].
              apply (proj1 (Forall_forall _ _) Hroom) in Hi1.
              apply (proj1 (Forall_forall _ _) Hprefix) in Hi2.
              destruct Hi2 as [suffix [Hne Hi2]].
              unfold imageKey in Heq. injection Heq as _ _ Hc.
              rewrite Hi1, Hi2 in Hc.
              apply (f_equal (@List.length string)) in Hc.
              rewrite !length_app in Hc. simpl in Hc.
              destruct suffix; [congruence | simpl in Hc; lia].
          + apply Forall_app. split.
            * eapply Forall_impl; [|exact Hroom]. simpl.
              intros img ->. now exists [].
            * eapply Forall_impl; [|exact Hprefix]. simpl.
              intros img [suffix [_ ->]]. exists suffix.
              now rewrite <- app_assoc. }
      destruct Hhere as [Hhnd Hhch]. split.
      + rewrite map_app. apply NoDup_app; [assumption | assumption |].
        intros k Hk1 Hk2.
        apply in_map_iff in Hk1. destruct Hk1 as [i1 [<- Hi1]].
        apply in_map_iff in Hk2. destruct Hk2 as [i2 [Heq Hi2]].
        apply (proj1 (Forall_forall _ _) Hhch) in Hi1.
        apply (proj1 (Forall_forall _ _) IHch) in Hi2.
        destruct Hi1 as [s1 Hi1]. destruct Hi2 as [m2 [s2 [Hm2 Hi2]]].
        unfold imageKey in Heq. injection Heq as _ _ Hc.
        rewrite Hi1, Hi2 in Hc. apply app_inv_head in Hc.
        injection Hc as Hid _.
        apply Hfresh. rewrite <- Hid. now apply in_map.
      + apply Forall_app. split.
        * eapply Forall_impl; [|exact Hhch]. simpl.
          intros img [suffix Hc]. exists m, suffix. split; [now left | assumption].
        * eapply Forall_impl; [|exact IHch]. simpl.
          intros img [m2 [suffix [Hm2 Hc]]]. exists m2, suffix.
          split; [now right | assumption]. }
  exact (proj1 (Hloop orig imgs Horig Hrun)).
Qed.

(** X6: when the entities of the scene have distinct ids and so have
    its mirrors, no two emitted images share kind, original id and mirror
    chain. *)
Theorem calculateVirtualImages_keys_distinct (scene : Scene.Scene num) bounds :
  NoDup (map (@Scene.Entity.id num) (Scene.entities scene)) ->
  NoDup (map (@Scene.Mirror.id num) (Scene.mirrors scene)) ->
  exists imgs,
    Virtual.calculateVirtualImages scene bounds = Some imgs /\
    NoDup (map imageKey imgs).
Proof.
  intros He Hm.
  destruct (calculateVirtualImages_total scene bounds) as [imgs Hrun].
  exists imgs. split; [assumption|].
  unfold Virtual.calculateVirtualImages in Hrun.
  exact (calculateVirtualRoomsRecursive_keys _ _
           (Scene.mkScene (Scene.player scene) (Scene.entities scene)
              (Scene.mirrors scene)) _ _ _ _ Hm He Hm Hrun).
Qed.
End ImageKeys.

Section ImageKeysExample.
Import Scenes.
Local Open Scope R_scope.
Local Open Scope string_scope.

(** In [facingMirror] the ids are distinct, and so are the keys of its
    images. *)
Lemma calculateVirtualImages_keys_distinct_witness :
  NoDup (map (@Scene.Entity.id R) (Scene.entities facingMirror)) /\
  NoDup (map (@Scene.Mirror.id R) (Scene.mirrors facingMirror)) /\
  exists imgs,
    Virtual.calculateVirtualImages facingMirror (400, 300) = Some imgs /\
    NoDup (map imageKey imgs).
Proof.
  assert (He : NoDup (map (@Scene.Entity.id R) (Scene.entities facingMirror))).
  { simpl. constructor; [intros [] | constructor]. }
  assert (Hm : NoDup (map (@Scene.Mirror.id R) (Scene.mirrors facingMirror))).
  { simpl. constructor; [intros [] | constructor]. }
  split; [exact He|]. split; [exact Hm|].
  exact (calculateVirtualImages_keys_distinct facingMirror (400, 300) He Hm).
Defined.
End ImageKeysExample.

Section RoomContents.
Context {num : Type} `{Number num} `{Storage num}.

Lemma roomThrough_entities (scene : Scene.Scene num) ms :
  Scene.entities (roomThrough scene ms)
  = map (fun e => Scene.Entity.mk (Scene.Entity.id e)
                    (reflectThrough ms (Scene.Entity.position e))
                    (Scene.Entity.vertices e))
      (Scene.entities scene).
Proof.
  unfold roomThrough, reflectThrough.
  induction ms as [|m ms IH] using rev_ind.
  - simpl. induction (Scene.entities scene) as [|[i p v] l IHl]; [reflexivity|].
    simpl. now rewrite <- IHl.
  - rewrite fold_left_app. simpl. rewrite IH, map_map. apply map_ext.
    intros e. simpl. now rewrite fold_left_app.
Qed.

Lemma roomThrough_mirrors (scene : Scene.Scene num) ms :
  Scene.mirrors (roomThrough scene ms)
  = map (fun m => Scene.Mirror.mk (Scene.Mirror.id m)
                    (reflectThrough ms (Scene.Mirror.start m))
                    (reflectThrough ms (Scene.Mirror.end_ m)))
      (Scene.mirrors scene).
Proof.
  unfold roomThrough, reflectThrough.
  induction ms as [|m ms IH] using rev_ind.
  - simpl. induction (Scene.mirrors scene) as [|[i s e] l IHl]; [reflexivity|].
    simpl. now rewrite <- IHl.
  - rewrite fold_left_app. simpl. rewrite IH, map_map. apply map_ext.
    intros m'. unfold Virtual.reflectMirrorAcrossMirror. simpl.
    now rewrite !fold_left_app.
Qed.

Lemma reflectThrough_snoc (ms : list (Scene.Mirror.t num)) m p :
  reflectThrough (ms ++ [m]) p
  = Virtual.reflectPointAcrossMirror (reflectThrough ms p) m.
Proof. unfold reflectThrough. now rewrite fold_left_app. Qed.

Lemma images_origin (scene : Scene.Scene num) bounds imgs :
  Virtual.calculateVirtualImages scene bounds = Some imgs ->
  Forall (imageOrigin scene) imgs.
Proof.
  intros Hrun. apply Forall_forall. intros img Himg.
  apply (images_of_rooms scene bounds imgs Hrun) in Himg.
  destruct Himg as [ms [m [Hseq Hin]]].
  exists (ms ++ [m]). split; [assumption|].
  apply createVirtualRoom_In in Hin.
  rewrite roomThrough_entities, roomThrough_mirrors in Hin.
  unfold Virtual.playerImages, Virtual.entityImages, Virtual.mirrorImages in Hin.
  rewrite roomThrough_player in Hin.
  rewrite map_app. simpl.
  destruct Hin as [Hin | [[e [He Hin]] | [m' [Hm' Hin]]]].
  - destruct (Virtual.isPointInBounds bounds _); [|destruct Hin].
    destruct Hin as [<- | []]. simpl. rewrite reflectThrough_snoc. now split.
  - apply in_map_iff in He. destruct He as [e0 [<- He0]]. simpl in Hin.
    destruct (Virtual.isPointInBounds bounds _); [|destruct Hin].
    destruct Hin as [<- | []]. simpl. split; [reflexivity|].
    exists e0. rewrite reflectThrough_snoc. auto.
  - apply in_map_iff in Hm'. destruct Hm' as [m0 [<- Hm0]].
    unfold Virtual.reflectMirrorAcrossMirror in Hin. simpl in Hin.
    destruct (_ || _); [|destruct Hin].
    destruct Hin as [<- | []]. simpl. split; [reflexivity|].
    exists m0. rewrite !reflectThrough_snoc. auto.
Qed.

(** X5: every emitted image is its original reflected through its
    chain.  The chain lists the ids of a sequence of mirrors of the scene;
    an entity image sits at the position of an entity of the scene
    reflected across them in order, a mirror image carries the endpoints of
    a mirror of the scene reflected across them and sits at the midpoint of
    the two. *)
Theorem calculateVirtualImages_reflected_originals
    (scene : Scene.Scene num) bounds :
  exists imgs,
    Virtual.calculateVirtualImages scene bounds = Some imgs /\
    Forall (imageOrigin scene) imgs.
Proof.
  destruct (calculateVirtualImages_total scene bounds) as [imgs Hrun].
  exists imgs. split; [assumption | now apply (images_origin scene bounds)].
Qed.
End RoomContents.

(** * The bounds filter *)

Section BoundsFacts.
Context {num : Type} `{Number num} `{Storage num}.

Lemma isPointInBounds_inRectangle (bounds p : vec2.t num) :
  Virtual.isPointInBounds bounds p = true <-> inRectangle bounds p.
Proof.
  destruct bounds as [width height].
  unfold Virtual.isPointInBounds, inRectangle. cbn [fst snd].
  rewrite !andb_true_iff. tauto.
Qed.

(** The test that guards a mirror image, for the mirror [m'] of the scene
    in the room reached through [ms], reflected across [m]. *)
Lemma mirror_guard bounds (ms : list (Scene.Mirror.t num)) m m' :
  Virtual.isPointInBounds bounds (reflectThrough (ms ++ [m]) (Scene.Mirror.start m'))
  || Virtual.isPointInBounds bounds (reflectThrough (ms ++ [m]) (Scene.Mirror.end_ m'))
  || Virtual.isPointInBounds bounds
       (vec2.scale
          (vec2.add (reflectThrough (ms ++ [m]) (Scene.Mirror.start m'))
             (reflectThrough (ms ++ [m]) (Scene.Mirror.end_ m')))
          (ofQ (1 # 2)%Q)) = true
  <-> reflectedMirrorInBounds bounds (ms ++ [m]) m'.
Proof.
  unfold reflectedMirrorInBounds. cbv zeta.
  rewrite !orb_true_iff, !isPointInBounds_inRectangle. tauto.
Qed.

(** What the loop over the mirrors of a room pushes for the mirror [m']
    of the scene. *)
Lemma mirrorImages_roomThrough bounds (ms : list (Scene.Mirror.t num)) m m' :
  Virtual.mirrorImages bounds m (List.length (ms ++ [m]))
    (map (@Scene.Mirror.id num) ms)
    (Scene.Mirror.mk (Scene.Mirror.id m')
       (reflectThrough ms (Scene.Mirror.start m'))
       (reflectThrough ms (Scene.Mirror.end_ m')))
  = if Virtual.isPointInBounds bounds
         (reflectThrough (ms ++ [m]) (Scene.Mirror.start m'))
       || Virtual.isPointInBounds bounds
            (reflectThrough (ms ++ [m]) (Scene.Mirror.end_ m'))
       || Virtual.isPointInBounds bounds
            (vec2.scale
               (vec2.add (reflectThrough (ms ++ [m]) (Scene.Mirror.start m'))
                  (reflectThrough (ms ++ [m]) (Scene.Mirror.end_ m')))
               (ofQ (1 # 2)%Q))
    then [reflectedMirrorImage (ms ++ [m]) m'] else [].
Proof.
  unfold Virtual.mirrorImages, Virtual.reflectMirrorAcrossMirror,
    reflectedMirrorImage.
  cbn [Scene.Mirror.start Scene.Mirror.end_ Scene.Mirror.id].
  rewrite <- !reflectThrough_snoc, map_app. reflexivity.
Qed.

(** The mirror images of the result: the images, through the reflection
    sequences of the scene, of the mirrors of the scene that pass the
    guard. *)
Lemma mirror_images_emitted (scene : Scene.Scene num) bounds imgs :
  Virtual.calculateVirtualImages scene bounds = Some imgs ->
  forall img,
    In img imgs /\ Virtual.originalType img = Virtual.mirror <->
    exists ms m,
      reflectionSequence scene ms /\ In m (Scene.mirrors scene) /\
      img = reflectedMirrorImage ms m /\
      reflectedMirrorInBounds bounds ms m.
Proof.
  intros Hrun img. rewrite (images_of_rooms scene bounds imgs Hrun). split.
  - intros [[ms [m [Hseq Hin]]] Hkind]. exists (ms ++ [m]).
    apply createVirtualRoom_In in Hin.
    rewrite roomThrough_mirrors in Hin.
    destruct Hin as [Hin | [[e [_ Hin]] | [m' [Hm' Hin]]]].
    + unfold Virtual.playerImages in Hin.
      destruct (Virtual.isPointInBounds bounds _); [|destruct Hin].
      destruct Hin as [<- | []]. discriminate.
    + unfold Virtual.entityImages in Hin.
      destruct (Virtual.isPointInBounds bounds _); [|destruct Hin].
      destruct Hin as [<- | []]. discriminate.
    + apply in_map_iff in Hm'. destruct Hm' as [m0 [<- Hm0]].
      rewrite mirrorImages_roomThrough in Hin.
      destruct (_ || _) eqn:Hguard; [|destruct Hin].
      destruct Hin as [<- | []]. exists m0.
      apply mirror_guard in Hguard. auto.
  - intros [ms [m [Hseq [Hm [-> Hguard]]]]]. split; [|reflexivity].
    destruct Hseq as [Hne Hrest].
    destruct (exists_last Hne) as [ms0 [m0 ->]].
    exists ms0, m0. split; [split; assumption|].
    apply createVirtualRoom_In. right. right.
    exists (Scene.Mirror.mk (Scene.Mirror.id m)
              (reflectThrough ms0 (Scene.Mirror.start m))
              (reflectThrough ms0 (Scene.Mirror.end_ m))).
    split.
    + rewrite roomThrough_mirrors. apply in_map_iff. now exists m.
    + rewrite mirrorImages_roomThrough.
      apply mirror_guard in Hguard. rewrite Hguard. now left.
Qed.

(** The position of a player or entity image passed the bounds test. *)
Lemma other_images_in_bounds (scene : Scene.Scene num) bounds imgs img :
  Virtual.calculateVirtualImages scene bounds = Some imgs ->
  In img imgs ->
  Virtual.originalType img <> Virtual.mirror ->
  inRectangle bounds (Virtual.position img).
Proof.
  intros Hrun Himg Hkind.
  apply (images_of_rooms scene bounds imgs Hrun) in Himg.
  destruct Himg as [ms [m [_ Hin]]].
  apply createVirtualRoom_In in Hin.
  unfold Virtual.playerImages, Virtual.entityImages, Virtual.mirrorImages in Hin.
  destruct Hin as [Hin | [[e [_ Hin]] | [m' [_ Hin]]]].
  - destruct (Virtual.isPointInBounds bounds _) eqn:Hb; [|destruct Hin].
    destruct Hin as [<- | []]. now apply isPointInBounds_inRectangle.
  - destruct (Virtual.isPointInBounds bounds _) eqn:Hb; [|destruct Hin].
    destruct Hin as [<- | []]. now apply isPointInBounds_inRectangle.
  - destruct (_ || _); [|destruct Hin].
    destruct Hin as [<- | []]. now contradiction Hkind.
Qed.

Lemma images_boundsFiltered (scene : Scene.Scene num) bounds imgs :
  Virtual.calculateVirtualImages scene bounds = Some imgs ->
  Forall (boundsFiltered scene bounds) imgs.
Proof.
  intros Hrun. apply Forall_forall. intros img Himg. unfold boundsFiltered.
  destruct (Virtual.originalType img) eqn:Hkind.
  - apply (other_images_in_bounds scene bounds imgs img Hrun Himg). congruence.
  - apply (other_images_in_bounds scene bounds imgs img Hrun Himg). congruence.
  - now apply (mirror_images_emitted scene bounds imgs Hrun).
Qed.

(** C2, as the code has it: in the room produced by reflecting across a
    mirror [m], after the mirrors [ms], every mirror of the scene is
    reflected, [m] itself included.  For every mirror [m'] of the scene
    the mirror image with the id of [m'], the reflected endpoints of [m']
    and the chain of [ms ++ [m]] is emitted as soon as the reflected
    start, the reflected end or their midpoint is in the rectangle.  So is
    the image of [m] itself: a mirror image whose original id is the last
    id of its chain.  This holds for every arithmetic and every
    storage. *)
Theorem calculateVirtualImages_reflects_every_mirror
    (scene : Scene.Scene num) bounds :
  exists imgs,
    Virtual.calculateVirtualImages scene bounds = Some imgs /\
    forall ms m,
      reflectionSequence scene (ms ++ [m]) ->
      (forall m',
         In m' (Scene.mirrors scene) ->
         reflectedMirrorInBounds bounds (ms ++ [m]) m' ->
         In (reflectedMirrorImage (ms ++ [m]) m') imgs) /\
      (reflectedMirrorInBounds bounds (ms ++ [m]) m ->
       exists img,
         In img imgs /\
         Virtual.originalType img = Virtual.mirror /\
         Virtual.originalId img = Scene.Mirror.id m /\
         Virtual.mirrorChain img
         = map (@Scene.Mirror.id num) ms ++ [Scene.Mirror.id m] /\
         Virtual.mirrorData img
         = Some (vec2.clone (reflectThrough (ms ++ [m]) (Scene.Mirror.start m)),
                 vec2.clone (reflectThrough (ms ++ [m]) (Scene.Mirror.end_ m)))).
Proof.
  destruct (calculateVirtualImages_total scene bounds) as [imgs Hrun].
  exists imgs. split; [assumption|]. intros ms m Hseq.
  assert (Hall : forall m',
             In m' (Scene.mirrors scene) ->
             reflectedMirrorInBounds bounds (ms ++ [m]) m' ->
             In (reflectedMirrorImage (ms ++ [m]) m') imgs).
  { intros m' Hm' Hguard.
    apply (mirror_images_emitted scene bounds imgs Hrun).
    exists (ms ++ [m]), m'. auto. }
  split; [exact Hall|]. intros Hguard.
  exists (reflectedMirrorImage (ms ++ [m]) m). split.
  - apply Hall; [|assumption].
    destruct Hseq as [_ [Hincl _]]. apply Hincl, in_app_iff. right. now left.
  - unfold reflectedMirrorImage. cbn. rewrite map_app. auto.
Qed.
End BoundsFacts.

Section BoundsClaim.
Local Open Scope R_scope.

Lemma inRectangle_R (w h x y : R) :
  @inRectangle R _ (w, h) (x, y) <->
  - w <= x <= 2 * w /\ - h <= y <= 2 * h.
Proof.
  unfold inRectangle. cbn [fst snd]. rewrite !num_leb_R. cbn. lra.
Qed.

(** C1, as the code has it.  Every image of a player or of an entity has
    its position in [-width, 2*width] x [-height, 2*height].  A mirror
    image is the image of a mirror of the scene through a sequence of
    mirrors of the scene: it carries the reflected segment, its position
    is the midpoint of that segment, and the reflected start, the
    reflected end or the midpoint is in the rectangle; and every such
    image is emitted.  This holds for every arithmetic, with its own
    comparison, and every storage; on the real numbers the rectangle is
    the set of points with [-width <= x <= 2*width] and
    [-height <= y <= 2*height]. *)
Theorem calculateVirtualImages_bounds_filter :
  (forall (num : Type) (arithmetic : Number num) (storage : Storage num)
          (scene : Scene.Scene num) (bounds : vec2.t num),
     exists imgs,
       Virtual.calculateVirtualImages scene bounds = Some imgs /\
       Forall (boundsFiltered scene bounds) imgs /\
       forall ms m,
         reflectionSequence scene ms -> In m (Scene.mirrors scene) ->
         reflectedMirrorInBounds bounds ms m ->
         In (reflectedMirrorImage ms m) imgs) /\
  (forall (storage : Storage R) (scene : Scene.Scene R) (width height : R),
     exists imgs,
       Virtual.calculateVirtualImages scene (width, height) = Some imgs /\
       Forall (fun img =>
                 Virtual.originalType img <> Virtual.mirror ->
                 - width <= fst (Virtual.position img) <= 2 * width /\
                 - height <= snd (Virtual.position img) <= 2 * height) imgs) /\
  (forall width height x y : R,
     inRectangle (width, height) (x, y) <->
     - width <= x <= 2 * width /\ - height <= y <= 2 * height).
Proof.
  split; [|split; [|exact inRectangle_R]].
  - intros num arithmetic storage scene bounds.
    destruct (calculateVirtualImages_total scene bounds) as [imgs Hrun].
    exists imgs. split; [assumption|].
    split; [now apply images_boundsFiltered|].
    intros ms m Hseq Hm Hguard.
    apply (mirror_images_emitted scene bounds imgs Hrun). exists ms, m. auto.
  - intros storage scene width height.
    destruct (calculateVirtualImages_total scene (width, height)) as [imgs Hrun].
    exists imgs. split; [assumption|].
    apply Forall_forall. intros img Himg Hkind.
    pose proof (other_images_in_bounds scene (width, height) imgs img
                  Hrun Himg Hkind) as Hin.
    destruct (Virtual.position img) as [x y]. now apply inRectangle_R.
Qed.
End BoundsClaim.

Section RealReflection.
Local Open Scope R_scope.

(** [reflectPointAcrossMirror] in coordinates: the reflection about a
    normal [(nx, ny)] of the mirror that is a unit vector, or zero when
    the endpoints of the mirror coincide. *)
Lemma reflect_normal_form (m : Scene.Mirror.t R) :
  exists nx ny,
    (nx * nx + ny * ny = 1 \/ (nx = 0 /\ ny = 0)) /\
    nx * (fst (Scene.Mirror.end_ m) - fst (Scene.Mirror.start m))
    + ny * (snd (Scene.Mirror.end_ m) - snd (Scene.Mirror.start m)) = 0 /\
    forall px py,
      Virtual.reflectPointAcrossMirror (px, py) m
      = (px + nx * (-2 * ((px - fst (Scene.Mirror.start m)) * nx
                          + (py - snd (Scene.Mirror.start m)) * ny)),
         py + ny * (-2 * ((px - fst (Scene.Mirror.start m)) * nx
                          + (py - snd (Scene.Mirror.start m)) * ny))).
Proof.
  destruct m as [id [sx sy] [ex ey]]. cbn [Scene.Mirror.start Scene.Mirror.end_ fst snd].
  unfold Virtual.reflectPointAcrossMirror.
  cbn [Scene.Mirror.start Scene.Mirror.end_].
  set (n := vec2.normalize (vec2.sub (ex, ey) (sx, sy))).
  assert (Hn : (fst n * fst n + snd n * snd n = 1 \/ (fst n = 0 /\ snd n = 0)) /\
               fst n * (ey - sy) = snd n * (ex - sx)).
  { unfold n, vec2.sub. cbn [fst snd Math_fround exactStorage num_sub RNumber].
    destruct (Rlt_dec 0 ((ex - sx) * (ex - sx) + (ey - sy) * (ey - sy))) as [Hq|Hq].
    - split; [left; now apply normalize_unit|].
      unfold vec2.normalize. cbn. ring.
    - rewrite (normalize_zero _ _ Hq). cbn. split; [right; now split | ring]. }
  destruct n as [dx dy]. cbn [fst snd] in Hn. destruct Hn as [Hunit Hperp].
  exists (- dy), dx. split; [|split].
  - destruct Hunit as [Hu | [-> ->]]; [left; nra | right; split; ring].
  - nra.
  - intros px py. unfold vec2.set, vec2.sub, vec2.dot, vec2.scaleAndAdd. cbn.
    reflexivity.
Qed.

(** X8: reflection across a mirror keeps distances: two points are as
    far apart after the reflection as before. *)
Theorem reflectPointAcrossMirror_isometry (p q : vec2.t R) (m : Scene.Mirror.t R) :
  vec2.distance (Virtual.reflectPointAcrossMirror p m)
    (Virtual.reflectPointAcrossMirror q m)
  = vec2.distance p q.
Proof.
  destruct p as [px py], q as [qx qy].
  destruct (reflect_normal_form m) as [nx [ny [Hn [_ Hr]]]].
  rewrite !Hr. unfold vec2.distance. cbn. f_equal.
  set (sx := fst (Scene.Mirror.start m)). set (sy := snd (Scene.Mirror.start m)).
  set (a := (px - sx) * nx + (py - sy) * ny).
  set (b := (qx - sx) * nx + (qy - sy) * ny).
  transitivity ((qx - px) * (qx - px) + (qy - py) * (qy - py)
                + 4 * (b - a) * (b - a) * (nx * nx + ny * ny - 1)).
  - unfold a, b. ring.
  - destruct Hn as [-> | [-> ->]]; [ring|]. unfold a, b. ring.
Qed.

(** X9: reflection across a mirror leaves the points of the mirror's
    line where they are, and so a mirror reflected across itself is
    itself: the image of a mirror in its own room coincides with the
    mirror. *)
Theorem reflectPointAcrossMirror_fixes_mirror_line (m : Scene.Mirror.t R) :
  (forall t,
      let p := (fst (Scene.Mirror.start m)
                + t * (fst (Scene.Mirror.end_ m) - fst (Scene.Mirror.start m)),
                snd (Scene.Mirror.start m)
                + t * (snd (Scene.Mirror.end_ m) - snd (Scene.Mirror.start m))) in
      Virtual.reflectPointAcrossMirror p m = p) /\
  Virtual.reflectMirrorAcrossMirror m m = m.
Proof.
  destruct (reflect_normal_form m) as [nx [ny [_ [Hperp Hr]]]].
  assert (Hline : forall t,
    let p := (fst (Scene.Mirror.start m)
              + t * (fst (Scene.Mirror.end_ m) - fst (Scene.Mirror.start m)),
              snd (Scene.Mirror.start m)
              + t * (snd (Scene.Mirror.end_ m) - snd (Scene.Mirror.start m))) in
    Virtual.reflectPointAcrossMirror p m = p).
  { intros t p. unfold p. rewrite Hr.
    set (dx := fst (Scene.Mirror.end_ m) - fst (Scene.Mirror.start m)) in *.
    set (dy := snd (Scene.Mirror.end_ m) - snd (Scene.Mirror.start m)) in *.
    set (sx := fst (Scene.Mirror.start m)). set (sy := snd (Scene.Mirror.start m)).
    replace ((sx + t * dx - sx) * nx + (sy + t * dy - sy) * ny)
      with (t * (nx * dx + ny * dy)) by ring.
    rewrite Hperp. f_equal; ring. }
  split; [exact Hline|].
  unfold Virtual.reflectMirrorAcrossMirror.
  pose proof (Hline 0) as H0. pose proof (Hline 1) as H1.
  destruct m as [id [sx sy] [ex ey]]. cbn in H0, H1 |- *.
  replace (sx + 0 * (ex - sx)) with sx in H0 by ring.
  replace (sy + 0 * (ey - sy)) with sy in H0 by ring.
  replace (sx + 1 * (ex - sx)) with ex in H1 by ring.
  replace (sy + 1 * (ey - sy)) with ey in H1 by ring.
  now rewrite H0, H1.
Qed.
End RealReflection.

Section RealImages.
Local Open Scope R_scope.

(** The midpoint, as [createVirtualRoom] computes it. *)
Lemma reflect_midpoint (a b : vec2.t R) (m : Scene.Mirror.t R) :
  Virtual.reflectPointAcrossMirror (vec2.scale (vec2.add a b) (ofQ (1 # 2)%Q)) m
  = vec2.scale (vec2.add (Virtual.reflectPointAcrossMirror a m)
                  (Virtual.reflectPointAcrossMirror b m)) (ofQ (1 # 2)%Q).
Proof.
  destruct a as [ax ay], b as [bx by_].
  destruct (reflect_normal_form m) as [nx [ny [_ [_ Hr]]]].
  unfold vec2.scale, vec2.add. cbn [fst snd]. rewrite !Hr.
  cbn. unfold Q2R. cbn. f_equal; field.
Qed.

Lemma reflectThrough_midpoint (ms : list (Scene.Mirror.t R)) (a b : vec2.t R) :
  reflectThrough ms (vec2.scale (vec2.add a b) (ofQ (1 # 2)%Q))
  = vec2.scale (vec2.add (reflectThrough ms a) (reflectThrough ms b))
      (ofQ (1 # 2)%Q).
Proof.
  unfold reflectThrough. revert a b.
  induction ms as [|m ms IH]; intros a b; [reflexivity|].
  simpl. now rewrite reflect_midpoint, IH.
Qed.

(** X10: a mirror image sits at the midpoint of its original mirror,
    reflected through the mirrors of its chain, a sequence of mirrors of
    the scene (the code takes the midpoint of the reflected endpoints
    instead). *)
Theorem mirror_image_position_is_reflected_midpoint
    (scene : Scene.Scene R) bounds :
  exists imgs,
    Virtual.calculateVirtualImages scene bounds = Some imgs /\
    Forall (fun img =>
              match Virtual.originalType img with
              | Virtual.mirror =>
                  exists m ms,
                    In m (Scene.mirrors scene) /\
                    reflectionSequence scene ms /\
                    Virtual.originalId img = Scene.Mirror.id m /\
                    Virtual.mirrorChain img = map (@Scene.Mirror.id R) ms /\
                    Virtual.position img
                    = reflectThrough ms
                        (vec2.scale
                           (vec2.add (Scene.Mirror.start m) (Scene.Mirror.end_ m))
                           (ofQ (1 # 2)%Q))
              | _ => True
              end) imgs.
Proof.
  destruct (calculateVirtualImages_total scene bounds) as [imgs Hrun].
  exists imgs. split; [assumption|].
  eapply Forall_impl; [|apply (images_origin scene bounds imgs Hrun)].
  intros img [ms [Hseq [Hchain Horigin]]].
  destruct (Virtual.originalType img); try exact I.
  destruct Horigin as [m [Hm [Hid [_ Hpos]]]].
  exists m, ms. rewrite reflectThrough_midpoint. auto.
Qed.

Lemma createVirtualRoom_nothing_in_bounds bounds (room : Scene.Scene R) m n chain :
  (forall p, Virtual.isPointInBounds bounds p = false) ->
  Virtual.createVirtualRoom bounds room m n chain = [].
Proof.
  intros Hout. unfold Virtual.createVirtualRoom, Virtual.playerImages.
  rewrite Hout. simpl.
  assert (He : forall es, flat_map (Virtual.entityImages bounds m n chain) es = []).
  { induction es as [|e es IH]; [reflexivity|]. simpl.
    unfold Virtual.entityImages at 1. now rewrite Hout. }
  assert (Hm : forall ms, flat_map (Virtual.mirrorImages bounds m n chain) ms = []).
  { induction ms as [|m' ms IH]; [reflexivity|]. simpl.
    unfold Virtual.mirrorImages at 1. now rewrite !Hout. }
  now rewrite He, Hm.
Qed.

(** X7: with a negative width or a negative height nothing is in
    bounds, and no image is emitted, whatever the scene. *)
Theorem calculateVirtualImages_negative_bounds
    (scene : Scene.Scene R) (width height : R) :
  width < 0 \/ height < 0 ->
  Virtual.calculateVirtualImages scene (width, height) = Some [].
Proof.
  intros Hneg.
  assert (Hout : forall p, Virtual.isPointInBounds (width, height) p = false).
  { intros [x y]. apply isPointInBounds_R_false. lra. }
  destruct (calculateVirtualImages_total scene (width, height)) as [imgs Hrun].
  rewrite Hrun. f_equal.
  unfold Virtual.calculateVirtualImages in Hrun.
  assert (Hnone : Forall (fun _ => False) imgs).
  { refine (calculateVirtualRoomsRecursive_Forall _ (fun _ _ _ => True)
              _ _ _ _ _ _ _ _ _ Hrun); [|exact I].
    intros room n chain m _ _ _. split; [|exact I].
    rewrite createVirtualRoom_nothing_in_bounds by assumption. constructor. }
  destruct imgs as [|img imgs]; [reflexivity|]. now inversion Hnone.
Qed.

Lemma calculateVirtualImages_negative_bounds_witness :
  (-1 < 0 \/ 5 < 0) /\
  Virtual.calculateVirtualImages (Scenes.singleMirrorWith []) (-1, 5) = Some [].
Proof.
  assert (Hneg : -1 < 0 \/ 5 < 0) by (left; lra).
  split; [exact Hneg|].
  exact (calculateVirtualImages_negative_bounds (Scenes.singleMirrorWith []) (-1) 5 Hneg).
Defined.
End RealImages.

(** * More on the rays *)

Section RealIntersections.
Local Open Scope R_scope.

Lemma sum_of_squares_pos (a b : R) : ~ (a = 0 /\ b = 0) -> 0 < a * a + b * b.
Proof.
  intros Hab. destruct (Rlt_dec 0 (a * a + b * b)) as [Hpos|Hn]; [exact Hpos|].
  exfalso. apply Hab. split; nra.
Qed.

(** What a hit of [rayLineIntersection] is made of. *)
Lemma rayLineIntersection_inv (ox oy dx dy sx sy ex ey : R) i :
  Ray.rayLineIntersection (ox, oy) (dx, dy) (sx, sy) (ex, ey) = Some i ->
  let cross1 := dx * (ey - sy) - dy * (ex - sx) in
  let t := ((sx - ox) * (ey - sy) - (sy - oy) * (ex - sx)) / cross1 in
  let u := ((sx - ox) * dy - (sy - oy) * dx) / cross1 in
  1 / 1000000 <= Rabs cross1 /\ 1 / 1000000 <= t /\ 0 <= u <= 1 /\
  i = Ray.Intersection.mk (ox + dx * t, oy + dy * t) t
        (vec2.normalize (- (ey - sy), ex - sx)) None None.
Proof.
  unfold Ray.rayLineIntersection, vec2.sub. cbn [fst snd].
  destruct (num_ltb (Math_abs _) Ray.EPSILON) eqn:H1; [discriminate|].
  apply num_ltb_R_false in H1. rewrite EPSILON_R in H1.
  destruct (num_ltb (_ / _)%num Ray.EPSILON) eqn:H2; [discriminate|].
  apply num_ltb_R_false in H2. rewrite EPSILON_R in H2.
  destruct (num_ltb (_ / _)%num (ofZ 0) || num_ltb (ofZ 1) (_ / _)%num) eqn:H3;
    [discriminate|].
  apply orb_false_iff in H3. destruct H3 as [H3 H4].
  apply num_ltb_R_false in H3, H4.
  intros Hi. injection Hi as <-. cbn.
  split; [exact H1|]. split; [exact H2|]. split; [split; [exact H3 | exact H4]|].
  reflexivity.
Qed.

(** X11: what [rayLineIntersection] returns when it returns a hit.
    The distance is at least the tolerance 1e-6, the point is the origin
    moved by that distance along the direction and lies on the segment, the
    normal is a unit vector perpendicular to the segment, and the hit
    carries no mirror id and no entity id. *)
Theorem rayLineIntersection_hit_facts (o d s e : vec2.t R) i :
  Ray.rayLineIntersection o d s e = Some i ->
  1 / 1000000 <= Ray.Intersection.distance i /\
  Ray.Intersection.point i
  = (fst o + fst d * Ray.Intersection.distance i,
     snd o + snd d * Ray.Intersection.distance i) /\
  onSegment (Ray.Intersection.point i) s e /\
  (let n := Ray.Intersection.normal i in
   fst n * fst n + snd n * snd n = 1 /\
   fst n * (fst e - fst s) + snd n * (snd e - snd s) = 0) /\
  Ray.Intersection.mirrorId i = None /\
  Ray.Intersection.entityId i = None.
Proof.
  intros Hi. pose proof (rayLineIntersection_on_segment o d s e i Hi) as Hon.
  destruct o as [ox oy], d as [dx dy], s as [sx sy], e as [ex ey].
  apply rayLineIntersection_inv in Hi. cbn zeta in Hi.
  destruct Hi as [Hc [Ht [_ Hi]]]. rewrite Hi in Hon |- *. clear Hi.
  cbn [Ray.Intersection.distance Ray.Intersection.point Ray.Intersection.normal
       Ray.Intersection.mirrorId Ray.Intersection.entityId fst snd].
  split; [exact Ht|]. split; [reflexivity|]. split; [exact Hon|].
  split; [|now split].
  assert (Hq : 0 < - (ey - sy) * - (ey - sy) + (ex - sx) * (ex - sx)).
  { apply sum_of_squares_pos. intros [Hy Hx].
    assert (Hy' : ey - sy = 0) by lra. rewrite Hy', Hx in Hc.
    replace (dx * 0 - dy * 0) with 0 in Hc by ring.
    rewrite Rabs_R0 in Hc. lra. }
  split; [now apply normalize_unit|].
  unfold vec2.normalize. cbn. ring.
Qed.

End RealIntersections.

Section RealBounces.
Local Open Scope R_scope.

Lemma normalize_opp (a b : R) :
  @vec2.normalize R _ _ (- a, - b)
  = (- fst (@vec2.normalize R _ _ (a, b)), - snd (@vec2.normalize R _ _ (a, b))).
Proof.
  unfold vec2.normalize. cbn.
  replace (- a * - a + - b * - b) with (a * a + b * b) by ring.
  destruct (Rlt_dec 0 (a * a + b * b)); f_equal; ring.
Qed.

Lemma reflect_opp_normal (d n : vec2.t R) :
  Ray.reflect d (- fst n, - snd n) = Ray.reflect d n.
Proof.
  destruct d as [dx dy], n as [nx ny].
  unfold Ray.reflect, vec2.dot, vec2.scaleAndAdd. cbn. f_equal; ring.
Qed.

Lemma reflect_unit_normal (d n : vec2.t R) :
  fst n * fst n + snd n * snd n = 1 ->
  vec2.dot (Ray.reflect d n) (Ray.reflect d n) = vec2.dot d d.
Proof.
  destruct d as [dx dy], n as [nx ny]. cbn [fst snd]. intros Hn.
  unfold Ray.reflect, vec2.dot, vec2.scaleAndAdd. cbn.
  transitivity (dx * dx + dy * dy
                + 4 * (dx * nx + dy * ny) * (dx * nx + dy * ny)
                  * (nx * nx + ny * ny - 1)); [ring|].
  rewrite Hn. ring.
Qed.

Lemma Rabs_bound_cases (x eps : R) :
  eps <= Rabs x -> 0 < eps -> eps <= x \/ x <= - eps.
Proof. unfold Rabs. destruct (Rcase_abs x); lra. Qed.

(** X12: the orientation of a segment does not matter to a ray: with
    start and end swapped, [rayLineIntersection] hits again, at the same
    point and distance, and although the normal is the opposite one the
    reflected direction is the same. *)
Theorem rayLineIntersection_orientation (o d s e : vec2.t R) i :
  Ray.rayLineIntersection o d s e = Some i ->
  exists i',
    Ray.rayLineIntersection o d e s = Some i' /\
    Ray.Intersection.point i' = Ray.Intersection.point i /\
    Ray.Intersection.distance i' = Ray.Intersection.distance i /\
    Ray.reflect d (Ray.Intersection.normal i')
    = Ray.reflect d (Ray.Intersection.normal i).
Proof.
  destruct o as [ox oy], d as [dx dy], s as [sx sy], e as [ex ey].
  intros Hi. apply rayLineIntersection_inv in Hi. cbn zeta in Hi.
  destruct Hi as [Hc [Ht [Hu ->]]].
  set (cross1 := dx * (ey - sy) - dy * (ex - sx)) in *.
  assert (Hc0 : cross1 <> 0).
  { intros E. rewrite E, Rabs_R0 in Hc. lra. }
  assert (Hc' : dx * (sy - ey) - dy * (sx - ex) = - cross1) by (unfold cross1; ring).
  assert (Ht' : ((ex - ox) * (sy - ey) - (ey - oy) * (sx - ex))
                / (dx * (sy - ey) - dy * (sx - ex))
                = ((sx - ox) * (ey - sy) - (sy - oy) * (ex - sx)) / cross1).
  { rewrite Hc'. unfold cross1 in *. field. exact Hc0. }
  assert (Hu' : ((ex - ox) * dy - (ey - oy) * dx)
                / (dx * (sy - ey) - dy * (sx - ex))
                = 1 - ((sx - ox) * dy - (sy - oy) * dx) / cross1).
  { rewrite Hc'. unfold cross1 in *. field. exact Hc0. }
  eexists. split.
  - apply rayLineIntersection_hit.
    + rewrite Hc'. destruct (Rabs_bound_cases cross1 _ Hc); lra.
    + rewrite Ht'. exact Ht.
    + rewrite Hu'. lra.
  - cbn [Ray.Intersection.point Ray.Intersection.distance Ray.Intersection.normal].
    rewrite Ht'. split; [reflexivity|]. split; [reflexivity|].
    replace (- (sy - ey)) with (- - (ey - sy)) by ring.
    replace (sx - ex) with (- (ex - sx)) by ring.
    rewrite normalize_opp. apply reflect_opp_normal.
Qed.

(** X13: a bounce keeps the direction a unit vector: reflecting a
    unit direction about the normal of a hit of [rayLineIntersection]
    gives a unit direction. *)
Theorem bounce_keeps_unit_direction (o d s e : vec2.t R) i :
  vec2.dot d d = 1 ->
  Ray.rayLineIntersection o d s e = Some i ->
  let d' := Ray.reflect d (Ray.Intersection.normal i) in
  vec2.dot d' d' = 1.
Proof.
  intros Hd Hi d'. unfold d'. rewrite reflect_unit_normal; [exact Hd|].
  destruct o as [ox oy], d as [dx dy], s as [sx sy], e as [ex ey].
  apply rayLineIntersection_inv in Hi. cbn zeta in Hi.
  destruct Hi as [Hc [_ [_ ->]]]. cbn [Ray.Intersection.normal].
  apply normalize_unit. apply sum_of_squares_pos. intros [Hy Hx].
  assert (Hy' : ey - sy = 0) by lra. rewrite Hy', Hx in Hc.
  replace (dx * 0 - dy * 0) with 0 in Hc by ring.
  rewrite Rabs_R0 in Hc. lra.
Qed.
End RealBounces.

Section RealShapes.
Local Open Scope R_scope.

(** X14: a hit returned by [rayCircleIntersection] for a unit
    direction lies on the circle, at least the tolerance 1e-6 away from
    the origin, at its distance along the ray. *)
Theorem rayCircleIntersection_on_circle (o d c : vec2.t R) (radius : R) i :
  vec2.dot d d = 1 ->
  0 <= radius ->
  Ray.rayCircleIntersection o d c radius = Some i ->
  vec2.distance (Ray.Intersection.point i) c = radius /\
  1 / 1000000 <= Ray.Intersection.distance i /\
  Ray.Intersection.point i
  = (fst o + fst d * Ray.Intersection.distance i,
     snd o + snd d * Ray.Intersection.distance i).
Proof.
  destruct o as [ox oy], d as [dx dy], c as [cx cy].
  unfold vec2.dot. cbn [fst snd]. intros Hd Hr. cbn in Hd.
  unfold Ray.rayCircleIntersection, vec2.sub, vec2.dot, vec2.scale, vec2.add,
    vec2.distance. cbn [fst snd Math_fround exactStorage].
  set (proj := ((cx - ox) * dx + (cy - oy) * dy)%num).
  destruct (num_ltb proj (ofZ 0)); [discriminate|].
  set (Qd := ((cx - (ox + dx * proj)) * (cx - (ox + dx * proj))
              + (cy - (oy + dy * proj)) * (cy - (oy + dy * proj)))%num).
  set (D := Math_sqrt Qd).
  destruct (num_ltb radius D) eqn:H2; [discriminate|].
  apply num_ltb_R_false in H2.
  set (Hh := Math_sqrt (radius * radius - D * D)%num).
  destruct (num_ltb (proj - Hh)%num Ray.EPSILON) eqn:H3; [discriminate|].
  apply num_ltb_R_false in H3. rewrite EPSILON_R in H3.
  intros Hi. injection Hi as <-.
  cbn [Ray.Intersection.point Ray.Intersection.distance].
  unfold vec2.scaleAndAdd. cbn [fst snd].
  split; [|split; [exact H3 | reflexivity]].
  assert (HQ : 0 <= Qd)
    by (unfold Qd; cbn; apply Rplus_le_le_0_compat; exact (Rle_0_sqr _)).
  assert (HD0 : 0 <= D) by (apply sqrt_pos).
  assert (HDD : D * D = Qd) by (apply sqrt_sqrt; exact HQ).
  assert (HHH : Hh * Hh = radius * radius - D * D).
  { apply sqrt_sqrt. change (0 <= radius * radius - D * D).
    clear - H2 HD0 Hr. clearbody D. nra. }
  rewrite <- (sqrt_square radius Hr). cbn. f_equal.
  transitivity (Qd + Hh * Hh
                + (dx * dx + dy * dy - 1) * (Hh * Hh - 2 * proj * Hh)).
  - unfold Qd, proj. cbn. ring.
  - rewrite Hd, HHH, HDD. ring.
Qed.

Lemma firstEdgeHit_In (o d : vec2.t R) edges i :
  Ray.firstEdgeHit o d edges = Some i ->
  exists a b, In (a, b) edges /\ Ray.rayLineIntersection o d a b = Some i.
Proof.
  induction edges as [|[a b] edges IH]; [discriminate|]. simpl.
  destruct (Ray.rayLineIntersection o d a b) as [hit|] eqn:Hhit.
  - intros Hi. injection Hi as <-. exists a, b. auto.
  - intros Hi. destruct (IH Hi) as [a' [b' [Hin Hi']]]. exists a', b'. auto.
Qed.

(** A hit on the triangle of an entity is a hit on one of its edges. *)
Lemma rayTriangleIntersection_edge (o d v0 v1 v2 : vec2.t R) i :
  Ray.rayTriangleIntersection o d (v0, v1, v2) = Some i ->
  exists a b hit,
    In (a, b) [(v0, v1); (v1, v2); (v2, v0)] /\
    Ray.rayLineIntersection o d a b = Some hit /\
    Ray.Intersection.point i = Ray.Intersection.point hit /\
    Ray.Intersection.distance i = Ray.Intersection.distance hit /\
    Ray.Intersection.mirrorId i = None /\ Ray.Intersection.entityId i = None.
Proof.
  unfold Ray.rayTriangleIntersection.
  destruct (Ray.firstEdgeHit o d _) as [hit|] eqn:Hhit; [|discriminate].
  intros Hi. injection Hi as <-.
  apply firstEdgeHit_In in Hhit. destruct Hhit as [a [b [Hin Hhit]]].
  exists a, b, hit. simpl. repeat split; auto.
Qed.

(** X15: a hit returned by [rayTriangleIntersection] lies on one of
    the three edges of the triangle, at least the tolerance 1e-6 away from
    the origin, at its distance along the ray; it carries no mirror id and
    no entity id yet. *)
Theorem rayTriangleIntersection_on_edge (o d v0 v1 v2 : vec2.t R) i :
  Ray.rayTriangleIntersection o d (v0, v1, v2) = Some i ->
  (onSegment (Ray.Intersection.point i) v0 v1 \/
   onSegment (Ray.Intersection.point i) v1 v2 \/
   onSegment (Ray.Intersection.point i) v2 v0) /\
  1 / 1000000 <= Ray.Intersection.distance i /\
  Ray.Intersection.point i
  = (fst o + fst d * Ray.Intersection.distance i,
     snd o + snd d * Ray.Intersection.distance i) /\
  Ray.Intersection.mirrorId i = None /\ Ray.Intersection.entityId i = None.
Proof.
  intros Hi. apply rayTriangleIntersection_edge in Hi.
  destruct Hi as [a [b [hit [Hin [Hhit [Hp [Hdist [Hm He]]]]]]]].
  pose proof (rayLineIntersection_on_segment o d a b hit Hhit) as Hon.
  rewrite Hp, Hdist. split.
  - destruct Hin as [E | [E | [E | []]]]; injection E as <- <-; auto.
  - destruct o as [ox oy], d as [dx dy], a as [ax ay], b as [bx by_].
    apply rayLineIntersection_inv in Hhit. cbn zeta in Hhit.
    destruct Hhit as [_ [Ht [_ ->]]].
    cbn [Ray.Intersection.point Ray.Intersection.distance fst snd]. auto.
Qed.
End RealShapes.

Section RealNearest.
Local Open Scope R_scope.

Lemma closer_keep (i : Ray.Intersection.t R) nearest Seen
    (n' : Ray.Intersection.t R) :
  LowerBound nearest Seen ->
  Ray.Intersection.distance n' = Ray.Intersection.distance i ->
  LowerBound (if Ray.closer i nearest then Some n' else nearest)
    (fun x => Seen x \/ x = Ray.Intersection.distance i).
Proof.
  intros Hb Hd. unfold Ray.closer. destruct nearest as [n|].
  - destruct Hb as [Hs Hb].
    destruct (num_ltb (Ray.Intersection.distance i) (Ray.Intersection.distance n))
      eqn:Hlt.
    + apply num_ltb_R in Hlt. split; [right; exact Hd|].
      intros x [Hx | ->]; [specialize (Hb x Hx)|]; rewrite Hd; lra.
    + apply num_ltb_R_false in Hlt. split; [left; exact Hs|].
      intros x [Hx | ->]; [now apply Hb | exact Hlt].
  - split; [right; exact Hd|].
    intros x [Hx | ->]; [now apply Hb in Hx | rewrite Hd; lra].
Qed.

Lemma LowerBound_ext nearest (S1 S2 : R -> Prop) :
  (forall x, S2 x <-> S1 x) -> LowerBound nearest S1 -> LowerBound nearest S2.
Proof.
  unfold LowerBound. destruct nearest; intros H12 H1.
  - destruct H1 as [Hs Hb]. split; [now apply H12|].
    intros x Hx. apply Hb. now apply H12.
  - intros x Hx. apply (H1 x). now apply H12.
Qed.

Lemma nearest_mirrors_bound (o d : vec2.t R) ms nearest Seen :
  LowerBound nearest Seen ->
  LowerBound (fold_left (Ray.nearestMirrorStep o d) ms nearest)
    (fun x => Seen x \/
       exists m i, In m ms /\
         Ray.rayLineIntersection o d (Scene.Mirror.start m) (Scene.Mirror.end_ m)
         = Some i /\ x = Ray.Intersection.distance i).
Proof.
  revert nearest Seen. induction ms as [|m ms IH]; intros nearest Seen Hb; simpl.
  - eapply LowerBound_ext; [|exact Hb]. intros x. split; [|now left].
    intros [Hx | [m [i [[] _]]]]. exact Hx.
  - unfold Ray.nearestMirrorStep at 2.
    destruct (Ray.rayLineIntersection o d (Scene.Mirror.start m) (Scene.Mirror.end_ m))
      as [i|] eqn:Hi.
    + eapply LowerBound_ext; [|apply IH; apply (closer_keep i nearest Seen);
                                 [exact Hb | reflexivity]].
      intros x. split.
      * intros [Hx | [m' [i' [[<- | Hin] [Hi' ->]]]]].
        -- left. now left.
        -- left. right. congruence.
        -- right. exists m', i'. auto.
      * intros [[Hx | ->] | [m' [i' [Hin [Hi' ->]]]]].
        -- now left.
        -- right. exists m, i. simpl. auto.
        -- right. exists m', i'. simpl. auto.
    + eapply LowerBound_ext; [|apply IH; exact Hb].
      intros x. split.
      * intros [Hx | [m' [i' [[<- | Hin] [Hi' ->]]]]].
        -- now left.
        -- congruence.
        -- right. exists m', i'. auto.
      * intros [Hx | [m' [i' [Hin [Hi' ->]]]]].
        -- now left.
        -- right. exists m', i'. simpl. auto.
Qed.

Lemma nearest_entities_bound (o d : vec2.t R) es nearest Seen :
  LowerBound nearest Seen ->
  LowerBound (fold_left (Ray.nearestEntityStep o d) es nearest)
    (fun x => Seen x \/
       exists e i, In e es /\
         Ray.rayTriangleIntersection o d (Scene.Entity.vertices e) = Some i /\
         x = Ray.Intersection.distance i).
Proof.
  revert nearest Seen. induction es as [|e es IH]; intros nearest Seen Hb; simpl.
  - eapply LowerBound_ext; [|exact Hb]. intros x. split; [|now left].
    intros [Hx | [e [i [[] _]]]]. exact Hx.
  - unfold Ray.nearestEntityStep at 2.
    destruct (Ray.rayTriangleIntersection o d (Scene.Entity.vertices e))
      as [i|] eqn:Hi.
    + eapply LowerBound_ext; [|apply IH; apply (closer_keep i nearest Seen);
                                 [exact Hb | reflexivity]].
      intros x. split.
      * intros [Hx | [e' [i' [[<- | Hin] [Hi' ->]]]]].
        -- left. now left.
        -- left. right. congruence.
        -- right. exists e', i'. auto.
      * intros [[Hx | ->] | [e' [i' [Hin [Hi' ->]]]]].
        -- now left.
        -- right. exists e, i. simpl. auto.
        -- right. exists e', i'. simpl. auto.
    + eapply LowerBound_ext; [|apply IH; exact Hb].
      intros x. split.
      * intros [Hx | [e' [i' [[<- | Hin] [Hi' ->]]]]].
        -- now left.
        -- congruence.
        -- right. exists e', i'. auto.
      * intros [Hx | [e' [i' [Hin [Hi' ->]]]]].
        -- now left.
        -- right. exists e', i'. simpl. auto.
Qed.

(** X16: [findNearestIntersection] returns a nearest hit.  Its
    distance is that of a hit of a mirror, of the viewer's circle (unless
    the viewer is ignored) or of an entity's triangle, and no such hit is
    nearer; it returns nothing only when there is no such hit at all. *)
Theorem findNearestIntersection_nearest (o d : vec2.t R)
    (scene : Scene.Scene R) (ignorePlayer : bool) :
  match Ray.findNearestIntersection o d scene ignorePlayer with
  | Some n =>
      candidateDistance o d scene ignorePlayer (Ray.Intersection.distance n) /\
      forall x, candidateDistance o d scene ignorePlayer x ->
                Ray.Intersection.distance n <= x
  | None => forall x, ~ candidateDistance o d scene ignorePlayer x
  end.
Proof.
  assert (Hb : LowerBound (Ray.findNearestIntersection o d scene ignorePlayer)
                 (candidateDistance o d scene ignorePlayer)).
  { unfold Ray.findNearestIntersection.
    eapply LowerBound_ext;
      [|apply nearest_entities_bound
          with (Seen := fun x =>
             (exists m i, In m (Scene.mirrors scene) /\
                Ray.rayLineIntersection o d (Scene.Mirror.start m)
                  (Scene.Mirror.end_ m) = Some i /\
                x = Ray.Intersection.distance i) \/
             (ignorePlayer = false /\
              exists i, Ray.rayCircleIntersection o d
                          (Scene.Player.position (Scene.player scene))
                          Scene.PLAYER_RADIUS = Some i /\
                        x = Ray.Intersection.distance i))].
    - intros x. unfold candidateDistance. tauto.
    - pose proof (nearest_mirrors_bound o d (Scene.mirrors scene) None
                    (fun _ => False) (fun x F => F)) as Hm.
      destruct ignorePlayer; simpl negb; cbv iota.
      + eapply LowerBound_ext; [|exact Hm].
        intros x. split; [|tauto]. intros [Hx | [F _]]; [tauto | discriminate].
      + unfold Ray.nearestPlayerStep.
        destruct (Ray.rayCircleIntersection o d _ Scene.PLAYER_RADIUS)
          as [i|] eqn:Hi.
        * eapply LowerBound_ext; [|apply (closer_keep i _ _ i Hm eq_refl)].
          intros x. split.
          -- intros [Hx | [_ [i' [Hi' ->]]]]; [left; tauto|].
             right. congruence.
          -- intros [[F | Hx] | ->]; [destruct F | now left |].
             right. split; [reflexivity|]. now exists i.
        * eapply LowerBound_ext; [|exact Hm].
          intros x. split; [|tauto].
          intros [Hx | [_ [i' [Hi' _]]]]; [tauto | discriminate]. }
  unfold LowerBound in Hb.
  destruct (Ray.findNearestIntersection o d scene ignorePlayer); exact Hb.
Qed.
End RealNearest.

Section TraceShape.
Context {num : Type} `{Number num} `{Storage num}.

Lemma traceLoop_origin remaining (scene : Scene.Scene num) ray o d hitMirror r :
  Ray.traceLoop remaining scene ray o d hitMirror = Some r ->
  Ray.origin r = Ray.origin ray /\ Ray.direction r = Ray.direction ray.
Proof.
  revert ray o d hitMirror.
  induction remaining as [|k IH]; intros ray o d hitMirror Hrun; [discriminate|].
  simpl in Hrun.
  destruct (Ray.findNearestIntersection o d scene true) as [n|]; [|discriminate].
  destruct (truthy (Ray.Intersection.mirrorId n)).
  - apply IH in Hrun. exact Hrun.
  - destruct (hitMirror && truthy (Ray.Intersection.entityId n)); [|discriminate].
    injection Hrun as <-. now split.
Qed.

Lemma traceRay_origin (scene : Scene.Scene num) o d maxBounces r :
  Ray.traceRay o d scene maxBounces = Some r ->
  Ray.origin r = vec2.clone o /\ Ray.direction r = vec2.clone d.
Proof.
  unfold Ray.traceRay. intros Hrun. apply traceLoop_origin in Hrun.
  cbn [Ray.origin Ray.direction] in Hrun. exact Hrun.
Qed.

Lemma castRays_In_angle (scene : Scene.Scene num) r :
  In r (Ray.castRays scene) ->
  exists angle,
    Ray.traceRay (Scene.Player.position (Scene.player scene))
      (vec2.fromValues (Math_cos angle) (Math_sin angle)) scene Ray.MAX_BOUNCES
    = Some r.
Proof.
  rewrite castRays_eq, in_flat_map. intros [i [_ Hin]]. revert Hin.
  unfold Ray.castRay.
  set (angle := (ofZ (Z.of_nat i) / ofZ (Z.of_nat Ray.rayCount) * Math_PI * ofZ 2)%num).
  clearbody angle.
  set (direction := vec2.fromValues (Math_cos angle) (Math_sin angle)).
  destruct (Ray.traceRay _ direction scene Ray.MAX_BOUNCES) as [ray|] eqn:Hray;
    [|intros []].
  destruct (_ && _); [|intros []].
  intros [<- | []]. now exists angle.
Qed.

Lemma filterBoolean_length (l : list (option (Ray.Ray num))) :
  List.length (Ray.filterBoolean l) <= List.length l.
Proof.
  induction l as [|[r|] l IH]; simpl; [lia | | ]; unfold Ray.filterBoolean in *;
    simpl; lia.
Qed.

(** X18: [trace] returns at most as many rays as the scene has
    entities, each of them one of the rays kept by the first loop. *)
Theorem trace_length_le_entities (scene : Scene.Scene num) :
  List.length (Ray.trace scene) <= List.length (Scene.entities scene) /\
  incl (Ray.trace scene) (Ray.castRays scene).
Proof.
  split.
  - rewrite trace_eq.
    etransitivity; [apply filterBoolean_length|]. now rewrite length_map.
  - intros r Hr. apply trace_In in Hr. destruct Hr as [e [_ Hbest]].
    now apply bestRay_In in Hbest.
Qed.

Lemma lastIntersection_final (ray : Ray.Ray num) first hits final :
  Ray.history ray = first :: hits ++ [final] ->
  Ray.lastIntersection ray = final.
Proof.
  intros Hh. unfold Ray.lastIntersection. rewrite Hh.
  change (first :: hits ++ [final]) with ((first :: hits) ++ [final]).
  rewrite length_app. simpl List.length.
  replace (S (List.length hits) + 1 - 1)%nat with (List.length (first :: hits))
    by (simpl; lia).
  apply nth_middle.
Qed.
End TraceShape.

Section RealTraceShape.
Local Open Scope R_scope.

(** X17: every ray of [trace] starts at the viewer, leaves in a unit
    direction, and ends on an edge of the triangle of the entity it is
    tagged with. *)
Theorem trace_rays_start_and_end (scene : Scene.Scene R) :
  Forall (fun r =>
            Ray.origin r = Scene.Player.position (Scene.player scene) /\
            vec2.dot (Ray.direction r) (Ray.direction r) = 1 /\
            exists e v0 v1 v2,
              In e (Scene.entities scene) /\
              Ray.entityId r = Some (Scene.Entity.id e) /\
              Scene.Entity.vertices e = (v0, v1, v2) /\
              (onSegment (Ray.lastIntersection r) v0 v1 \/
               onSegment (Ray.lastIntersection r) v1 v2 \/
               onSegment (Ray.lastIntersection r) v2 v0))
         (Ray.trace scene).
Proof.
  apply Forall_forall. intros r Hr.
  apply trace_In in Hr. destruct Hr as [e0 [_ Hbest]].
  apply bestRay_In in Hbest. destruct Hbest as [Hcast _].
  apply castRays_In_angle in Hcast. destruct Hcast as [angle Hray].
  destruct (traceRay_origin _ _ _ _ _ Hray) as [Ho Hd].
  rewrite clone_id in Ho, Hd.
  apply traceRay_returns in Hray.
  destruct Hray as [hits [final [e [Hhist [_ [_ [_ [He [Hid [_ Hfinal]]]]]]]]]].
  split; [exact Ho|]. split.
  - rewrite Hd. unfold vec2.dot, vec2.fromValues. cbn.
    pose proof (sin2_cos2 angle) as Hsc. unfold Rsqr in Hsc. lra.
  - destruct (Scene.Entity.vertices e) as [[v0 v1] v2] eqn:Hv.
    exists e, v0, v1, v2. repeat split; try assumption.
    rewrite (lastIntersection_final r _ _ _ Hhist).
    destruct Hfinal as [o [d [i [Hi ->]]]]. rewrite Hv in Hi.
    rewrite clone_id.
    apply rayTriangleIntersection_edge in Hi.
    destruct Hi as [a [b [hit [Hin [Hhit [-> _]]]]]].
    pose proof (rayLineIntersection_on_segment o d a b hit Hhit) as Hon.
    destruct Hin as [E | [E | [E | []]]]; injection E as <- <-; auto.
Qed.
End RealTraceShape.

Section RealIntersectionExamples.
Local Open Scope R_scope.

(** The ray that leaves (400,300) to the left meets the segment
    (300,200)-(300,400). *)
Lemma leftward_ray_hits :
  exists i, Ray.rayLineIntersection (400, 300) (-1, 0) (300, 200) (300, 400)
            = Some i.
Proof.
  eexists. apply (rayLineIntersection_hit 400 300 (-1) 0 300 200 300 400).
  - right. lra.
  - replace (((300 - 400) * (400 - 200) - (200 - 300) * (300 - 300))
             / (-1 * (400 - 200) - 0 * (300 - 300))) with 100 by (field; lra).
    lra.
  - replace (((300 - 400) * 0 - (200 - 300) * -1)
             / (-1 * (400 - 200) - 0 * (300 - 300))) with (1 / 2) by (field; lra).
    lra.
Qed.
End RealIntersectionExamples.

Section RealIntersectionWitnesses.
Local Open Scope R_scope.

(** The hit of the leftward ray on the segment (300,200)-(300,400). *)
Lemma rayLineIntersection_hit_facts_witness :
  exists i,
    Ray.rayLineIntersection (400, 300) (-1, 0) (300, 200) (300, 400) = Some i /\
    1 / 1000000 <= Ray.Intersection.distance i /\
    Ray.Intersection.point i
    = (400 + -1 * Ray.Intersection.distance i,
       300 + 0 * Ray.Intersection.distance i) /\
    onSegment (Ray.Intersection.point i) (300, 200) (300, 400) /\
    (let n := Ray.Intersection.normal i in
     fst n * fst n + snd n * snd n = 1 /\
     fst n * (300 - 300) + snd n * (400 - 200) = 0) /\
    Ray.Intersection.mirrorId i = None /\
    Ray.Intersection.entityId i = None.
Proof.
  destruct leftward_ray_hits as [i Hi]. exists i. split; [exact Hi|].
  exact (rayLineIntersection_hit_facts (400, 300) (-1, 0) (300, 200) (300, 400)
           i Hi).
Defined.

(** The same ray meets the segment taken from (300,400) to (300,200). *)
Lemma rayLineIntersection_orientation_witness :
  exists i,
    Ray.rayLineIntersection (400, 300) (-1, 0) (300, 200) (300, 400) = Some i /\
    exists i',
      Ray.rayLineIntersection (400, 300) (-1, 0) (300, 400) (300, 200) = Some i' /\
      Ray.Intersection.point i' = Ray.Intersection.point i /\
      Ray.Intersection.distance i' = Ray.Intersection.distance i /\
      Ray.reflect (-1, 0) (Ray.Intersection.normal i')
      = Ray.reflect (-1, 0) (Ray.Intersection.normal i).
Proof.
  destruct leftward_ray_hits as [i Hi]. exists i. split; [exact Hi|].
  exact (rayLineIntersection_orientation (400, 300) (-1, 0) (300, 200) (300, 400)
           i Hi).
Defined.

(** The leftward ray, a unit direction, bounced off that segment. *)
Lemma bounce_keeps_unit_direction_witness :
  exists i,
    vec2.dot (-1, 0) (-1, 0) = 1 /\
    Ray.rayLineIntersection (400, 300) (-1, 0) (300, 200) (300, 400) = Some i /\
    vec2.dot (Ray.reflect (-1, 0) (Ray.Intersection.normal i))
      (Ray.reflect (-1, 0) (Ray.Intersection.normal i)) = 1.
Proof.
  assert (Hd : @vec2.dot R _ (-1, 0) (-1, 0) = 1) by (cbn; ring).
  destruct leftward_ray_hits as [i Hi]. exists i.
  split; [exact Hd|]. split; [exact Hi|].
  exact (bounce_keeps_unit_direction (400, 300) (-1, 0) (300, 200) (300, 400)
           i Hd Hi).
Defined.

(** The ray from the origin along the x axis meets the circle of radius 2
    around (10,0). *)
Lemma rightward_ray_hits_circle :
  exists i, Ray.rayCircleIntersection (0, 0) (1, 0) (10, 0) 2 = Some i.
Proof.
  unfold Ray.rayCircleIntersection, vec2.sub, vec2.dot, vec2.scale, vec2.add,
    vec2.distance, vec2.scaleAndAdd. cbn [fst snd Math_fround exactStorage].
  assert (Hproj : ((10 - 0) * 1 + (0 - 0) * 0)%num = 10) by (cbn; ring).
  rewrite Hproj.
  assert (H1 : num_ltb 10 (ofZ 0) = false).
  { apply num_ltb_R_false. cbn. lra. }
  rewrite H1.
  assert (Hdist : Math_sqrt ((10 - (0 + 1 * 10)) * (10 - (0 + 1 * 10))
                             + (0 - (0 + 0 * 10)) * (0 - (0 + 0 * 10)))%num = 0).
  { cbn. replace ((10 - (0 + 1 * 10)) * (10 - (0 + 1 * 10))
                  + (0 - (0 + 0 * 10)) * (0 - (0 + 0 * 10))) with 0 by ring.
    apply sqrt_0. }
  rewrite Hdist.
  assert (H2 : num_ltb 2 0 = false).
  { apply num_ltb_R_false. lra. }
  rewrite H2.
  assert (Hhalf : Math_sqrt (2 * 2 - 0 * 0)%num = 2).
  { cbn. replace (2 * 2 - 0 * 0) with (2 * 2) by ring. apply sqrt_square. lra. }
  rewrite Hhalf.
  assert (H3 : num_ltb (10 - 2)%num Ray.EPSILON = false).
  { apply num_ltb_R_false. rewrite EPSILON_R. cbn. lra. }
  rewrite H3. eexists. reflexivity.
Qed.

(** The hit of the rightward ray on the circle around (10,0). *)
Lemma rayCircleIntersection_on_circle_witness :
  exists i,
    vec2.dot (1, 0) (1, 0) = 1 /\ 0 <= 2 /\
    Ray.rayCircleIntersection (0, 0) (1, 0) (10, 0) 2 = Some i /\
    vec2.distance (Ray.Intersection.point i) (10, 0) = 2 /\
    1 / 1000000 <= Ray.Intersection.distance i /\
    Ray.Intersection.point i
    = (0 + 1 * Ray.Intersection.distance i,
       0 + 0 * Ray.Intersection.distance i).
Proof.
  assert (Hd : @vec2.dot R _ (1, 0) (1, 0) = 1) by (cbn; ring).
  assert (Hr : 0 <= 2) by lra.
  destruct rightward_ray_hits_circle as [i Hi]. exists i.
  split; [exact Hd|]. split; [exact Hr|]. split; [exact Hi|].
  exact (rayCircleIntersection_on_circle (0, 0) (1, 0) (10, 0) 2 i Hd Hr Hi).
Defined.

(** The ray from the origin along the x axis meets the first edge of the
    triangle (5,-1), (5,1), (7,0). *)
Lemma rightward_ray_hits_triangle :
  exists i,
    Ray.rayTriangleIntersection (0, 0) (1, 0) ((5, -1), (5, 1), (7, 0)) = Some i.
Proof.
  unfold Ray.rayTriangleIntersection. cbn [Ray.firstEdgeHit].
  rewrite (rayLineIntersection_hit 0 0 1 0 5 (-1) 5 1).
  - eexists. reflexivity.
  - left. lra.
  - replace (((5 - 0) * (1 - -1) - (-1 - 0) * (5 - 5))
             / (1 * (1 - -1) - 0 * (5 - 5))) with 5 by (field; lra).
    lra.
  - replace (((5 - 0) * 0 - (-1 - 0) * 1) / (1 * (1 - -1) - 0 * (5 - 5)))
      with (1 / 2) by (field; lra).
    lra.
Qed.

(** The hit of the rightward ray on the triangle. *)
Lemma rayTriangleIntersection_on_edge_witness :
  exists i,
    Ray.rayTriangleIntersection (0, 0) (1, 0) ((5, -1), (5, 1), (7, 0)) = Some i /\
    (onSegment (Ray.Intersection.point i) (5, -1) (5, 1) \/
     onSegment (Ray.Intersection.point i) (5, 1) (7, 0) \/
     onSegment (Ray.Intersection.point i) (7, 0) (5, -1)) /\
    1 / 1000000 <= Ray.Intersection.distance i /\
    Ray.Intersection.point i
    = (0 + 1 * Ray.Intersection.distance i,
       0 + 0 * Ray.Intersection.distance i) /\
    Ray.Intersection.mirrorId i = None /\ Ray.Intersection.entityId i = None.
Proof.
  destruct rightward_ray_hits_triangle as [i Hi]. exists i. split; [exact Hi|].
  exact (rayTriangleIntersection_on_edge (0, 0) (1, 0) (5, -1) (5, 1) (7, 0) i Hi).
Defined.
End RealIntersectionWitnesses.

(** * Properties of the scene queries, the builder and the scene edits *)

Section Names.

Lemma toString_inj (n n' : nat) : toString n = toString n' -> n = n'.
Proof.
  unfold toString. intros Heq. apply DecimalNat.Unsigned.to_uint_inj.
  assert (Hs : Some (Nat.to_uint n) = Some (Nat.to_uint n')).
  { rewrite <- !NilEmpty.usu. now rewrite Heq. }
  now injection Hs.
Qed.

Lemma named_inj (prefix : string) (n n' : nat) :
  (prefix ++ toString n = prefix ++ toString n')%string -> n = n'.
Proof.
  intros Heq. apply toString_inj.
  induction prefix as [|c prefix IH]; simpl in Heq; [assumption|].
  injection Heq as Heq. now apply IH.
Qed.

Lemma names_NoDup (prefix : string) (start len : nat) :
  NoDup (map (fun k => (prefix ++ toString k)%string) (seq start len)).
Proof.
  apply Injective_map_NoDup; [|apply seq_NoDup].
  intros a b. apply named_inj.
Qed.

Lemma seq_snoc (start len : nat) :
  seq start (len + 1) = seq start len ++ [start + len].
Proof. rewrite seq_app. reflexivity. Qed.
End Names.

Section QueryFacts.
Context {num : Type} `{Number num} `{Storage num}.

(** X19: [findEntity] by id.  The id [player] finds the player;
    any other id finds the first entity of the list with that id, and
    nothing when no entity has it.  When the ids are distinct, every
    entity whose id is not [player] is found by its id. *)
Theorem findEntity_lookup (scene : Scene.Scene num) :
  SceneQueries.findEntity scene "player" = Some (inl (Scene.player scene)) /\
  (forall entityId, entityId <> "player"%string ->
     match SceneQueries.findEntity scene entityId with
     | Some (inr e) =>
         exists before after,
           Scene.entities scene = before ++ e :: after /\
           Scene.Entity.id e = entityId /\
           Forall (fun e' => Scene.Entity.id e' <> entityId) before
     | Some (inl _) => False
     | None =>
         Forall (fun e' => Scene.Entity.id e' <> entityId) (Scene.entities scene)
     end) /\
  (NoDup (map (@Scene.Entity.id num) (Scene.entities scene)) ->
   Forall (fun e =>
             Scene.Entity.id e <> "player"%string ->
             SceneQueries.findEntity scene (Scene.Entity.id e) = Some (inr e))
          (Scene.entities scene)).
Proof.
  assert (Hfind : forall entityId (l : list (Scene.Entity.t num)),
    match find (fun entity => String.eqb (Scene.Entity.id entity) entityId) l with
    | Some e =>
        exists before after,
          l = before ++ e :: after /\ Scene.Entity.id e = entityId /\
          Forall (fun e' => Scene.Entity.id e' <> entityId) before
    | None => Forall (fun e' => Scene.Entity.id e' <> entityId) l
    end).
  { intros entityId. induction l as [|x l IH]; simpl; [constructor|].
    destruct (String.eqb (Scene.Entity.id x) entityId) eqn:Hx.
    - apply String.eqb_eq in Hx. exists [], l. auto.
    - apply String.eqb_neq in Hx.
      destruct (find _ l) as [e|].
      + destruct IH as [before [after [-> [Hid Hb]]]].
        exists (x :: before), after. auto.
      + constructor; assumption. }
  split; [reflexivity|]. split.
  - intros entityId Hne. unfold SceneQueries.findEntity.
    apply String.eqb_neq in Hne. rewrite Hne.
    specialize (Hfind entityId (Scene.entities scene)).
    destruct (find _ (Scene.entities scene)); exact Hfind.
  - intros Hnd. apply Forall_forall. intros e He Hne.
    unfold SceneQueries.findEntity. apply String.eqb_neq in Hne. rewrite Hne.
    specialize (Hfind (Scene.Entity.id e) (Scene.entities scene)).
    destruct (find _ (Scene.entities scene)) as [e'|].
    + destruct Hfind as [before [after [Heq [Hid Hb]]]].
      rewrite Heq in He, Hnd. apply in_app_iff in He.
      destruct He as [He | [-> | He]]; [| reflexivity |].
      * exfalso. exact (proj1 (Forall_forall _ _) Hb e He eq_refl).
      * exfalso. rewrite map_app in Hnd. simpl in Hnd.
        apply NoDup_remove_2 in Hnd. apply Hnd, in_app_iff. right.
        rewrite Hid. now apply in_map.
    + exfalso. exact (proj1 (Forall_forall _ _) Hfind e He eq_refl).
Qed.
End QueryFacts.

Section BuilderFacts.
Context {num : Type} `{Number num}.

Lemma entity_id (p : vec2.t num) id : Scene.Entity.id (Scene.entity p id) = id.
Proof. now destruct p. Qed.

Lemma entity_position (p : vec2.t num) id :
  Scene.Entity.position (Scene.entity p id) = p.
Proof. now destruct p. Qed.

(** What a chain of calls has collected. *)
Lemma chain_contents (calls : list (@SceneBuilder.Call num)) :
  let b := SceneBuilder.chain calls in
  SceneBuilder.player b
  = match rev (addedPlayers calls) with
    | p :: _ => Some (Scene.Player.mk p)
    | [] => None
    end /\
  match SceneBuilder.entities b with
  | Some es =>
      addedEntities calls <> [] /\
      map (@Scene.Entity.position num) es = addedEntities calls /\
      map (@Scene.Entity.id num) es = numbered "entity_" (List.length es)
  | None => addedEntities calls = []
  end /\
  match SceneBuilder.mirrors b with
  | Some ms =>
      addedMirrors calls <> [] /\
      map (fun m => (Scene.Mirror.start m, Scene.Mirror.end_ m)) ms
      = addedMirrors calls /\
      map (@Scene.Mirror.id num) ms = numbered "mirror_" (List.length ms)
  | None => addedMirrors calls = []
  end.
Proof.
  unfold SceneBuilder.chain.
  induction calls as [|c calls IH] using rev_ind; [simpl; auto|].
  rewrite fold_left_app. simpl fold_left.
  unfold addedPlayers, addedEntities, addedMirrors in *.
  rewrite !flat_map_app. simpl flat_map. rewrite !app_nil_r.
  set (b := fold_left SceneBuilder.call calls SceneBuilder.make) in *.
  cbv zeta in IH. destruct IH as [Hp [He Hm]].
  destruct c as [position | position | start end_]; simpl.
  - rewrite !app_nil_r. rewrite rev_app_distr. simpl.
    split; [reflexivity | split; [exact He | exact Hm]].
  - rewrite !app_nil_r. split; [exact Hp|]. split; [|exact Hm].
    destruct (SceneBuilder.entities b) as [es|].
    + destruct He as [_ [Hpos Hids]].
      split; [intros E; apply app_eq_nil in E; destruct E; discriminate|].
      rewrite !map_app, length_app. simpl.
      rewrite entity_id, entity_position, Hpos, Hids.
      split; [reflexivity|]. unfold numbered. rewrite seq_snoc, map_app.
      simpl. now rewrite Nat.add_comm.
    + rewrite He. simpl. rewrite entity_id, entity_position.
      split; [discriminate | now split].
  - rewrite !app_nil_r. split; [exact Hp|]. split; [exact He|].
    destruct (SceneBuilder.mirrors b) as [ms|].
    + destruct Hm as [_ [Hpos Hids]].
      split; [intros E; apply app_eq_nil in E; destruct E; discriminate|].
      rewrite !map_app, length_app. simpl.
      rewrite !clone_id, Hpos, Hids.
      split; [reflexivity|]. unfold numbered. rewrite seq_snoc, map_app.
      simpl. now rewrite Nat.add_comm.
    + rewrite Hm. simpl. rewrite !clone_id.
      split; [discriminate | now split].
Qed.

(** X20: a scene built by a chain of [addPlayer], [addEntity] and
    [addMirror] numbers its entities [entity_1], [entity_2], ... and its
    mirrors [mirror_1], [mirror_2], ... in the order they were added, so
    that the ids of the entities are distinct and so are those of the
    mirrors. *)
Theorem built_scene_ids (calls : list (@SceneBuilder.Call num)) scene :
  SceneBuilder.build (SceneBuilder.chain calls) = Some scene ->
  map (@Scene.Entity.id num) (Scene.entities scene)
  = numbered "entity_" (List.length (Scene.entities scene)) /\
  map (@Scene.Mirror.id num) (Scene.mirrors scene)
  = numbered "mirror_" (List.length (Scene.mirrors scene)) /\
  NoDup (map (@Scene.Entity.id num) (Scene.entities scene)) /\
  NoDup (map (@Scene.Mirror.id num) (Scene.mirrors scene)).
Proof.
  intros Hbuild. destruct (chain_contents calls) as [_ [He Hm]].
  unfold SceneBuilder.build in Hbuild.
  destruct (SceneBuilder.player _) as [p|]; [|discriminate].
  destruct (SceneBuilder.entities _) as [es|]; [|discriminate].
  destruct (SceneBuilder.mirrors _) as [ms|]; [|discriminate].
  injection Hbuild as <-. simpl.
  destruct He as [_ [_ He]]. destruct Hm as [_ [_ Hm]].
  rewrite He, Hm. repeat split; apply names_NoDup.
Qed.

End BuilderFacts.

Section EditFacts.
Context {num : Type} `{Number num}.

Lemma findIndex_split {A : Type} (f : A -> bool) (l : list A) :
  match findIndex f l with
  | Some i =>
      exists before x after,
        l = before ++ x :: after /\ List.length before = i /\ f x = true /\
        Forall (fun y => f y = false) before
  | None => Forall (fun y => f y = false) l
  end.
Proof.
  induction l as [|x l IH]; simpl; [constructor|].
  destruct (f x) eqn:Hx.
  - exists [], x, l. auto.
  - destruct (findIndex f l) as [i|].
    + destruct IH as [before [y [after [-> [Hlen [Hy Hb]]]]]].
      exists (x :: before), y, after. simpl. auto.
    + constructor; assumption.
Qed.

Lemma assignAt_middle {A : Type} (before : list A) x y after :
  assignAt (List.length before) y (before ++ x :: after) = before ++ y :: after.
Proof. induction before as [|b before IH]; simpl; [reflexivity | now rewrite IH]. Qed.

(** The id [moveEntity] and [addEntity] give to the entity they make. *)
Lemma moveEntity_entities (scene : Scene.Scene num) entityId position :
  entityId <> "player"%string ->
  match findIndex (fun entity => String.eqb (Scene.Entity.id entity) entityId)
          (Scene.entities scene) with
  | Some _ =>
      exists before e after,
        Scene.entities scene = before ++ e :: after /\
        Scene.Entity.id e = entityId /\
        Forall (fun e' => Scene.Entity.id e' <> entityId) before /\
        Lesson.moveEntity scene entityId position
        = Scene.mkScene (Scene.player scene)
            (before
             ++ Scene.entity position
                  ("entity_" ++ toString (List.length (Scene.entities scene) + 1))
             :: after)
            (Scene.mirrors scene)
  | None =>
      Forall (fun e' => Scene.Entity.id e' <> entityId) (Scene.entities scene) /\
      Lesson.moveEntity scene entityId position = scene
  end.
Proof.
  intros Hne. unfold Lesson.moveEntity.
  apply String.eqb_neq in Hne. rewrite Hne.
  pose proof (findIndex_split
                (fun entity => String.eqb (Scene.Entity.id entity) entityId)
                (Scene.entities scene)) as Hfind.
  destruct (findIndex _ (Scene.entities scene)) as [i|].
  - destruct Hfind as [before [e [after [Heq [Hlen [Hid Hb]]]]]].
    exists before, e, after. apply String.eqb_eq in Hid.
    split; [exact Heq|]. split; [exact Hid|]. split.
    + eapply Forall_impl; [|exact Hb]. intros e'. apply String.eqb_neq.
    + rewrite <- Hlen. rewrite Heq at 2. now rewrite assignAt_middle.
  - split; [|reflexivity].
    eapply Forall_impl; [|exact Hfind]. intros e'. apply String.eqb_neq.
Qed.


Lemma moveEntity_ids (scene : Scene.Scene num) entityId position :
  entityId <> "player"%string ->
  map (@Scene.Entity.id num)
    (Scene.entities (Lesson.moveEntity scene entityId position))
  = replaceFirst entityId
      ("entity_" ++ toString (List.length (Scene.entities scene) + 1))
      (map (@Scene.Entity.id num) (Scene.entities scene)) /\
  List.length (Scene.entities (Lesson.moveEntity scene entityId position))
  = List.length (Scene.entities scene).
Proof.
  intros Hne.
  assert (Hrep : forall y before (e : Scene.Entity.t num) after,
    Forall (fun e' => Scene.Entity.id e' <> entityId) before ->
    Scene.Entity.id e = entityId ->
    replaceFirst entityId y (map (@Scene.Entity.id num) (before ++ e :: after))
    = map (@Scene.Entity.id num) before ++ y :: map (@Scene.Entity.id num) after).
  { intros y before e after Hb Hid.
    induction before as [|x before IH]; simpl.
    - rewrite Hid, String.eqb_refl. reflexivity.
    - inversion Hb as [|? ? Hx Hb']; subst. apply String.eqb_neq in Hx.
      rewrite Hx. now rewrite IH. }
  assert (Hnone : forall y (l : list (Scene.Entity.t num)),
    Forall (fun e' => Scene.Entity.id e' <> entityId) l ->
    replaceFirst entityId y (map (@Scene.Entity.id num) l)
    = map (@Scene.Entity.id num) l).
  { intros y l Hl. induction l as [|x l IH]; simpl; [reflexivity|].
    inversion Hl as [|? ? Hx Hl']; subst. apply String.eqb_neq in Hx.
    rewrite Hx. now rewrite IH. }
  pose proof (moveEntity_entities scene entityId position Hne) as Hm.
  destruct (findIndex _ (Scene.entities scene)).
  - destruct Hm as [before [e [after [Heq [Hid [Hb ->]]]]]].
    cbn [Scene.entities].
    set (name := ("entity_" ++ toString (List.length (Scene.entities scene) + 1))%string).
    rewrite Heq, (Hrep name before e after Hb Hid), map_app.
    cbn [map]. rewrite entity_id.
    split; [reflexivity|]. rewrite !length_app. reflexivity.
  - destruct Hm as [Hall ->]. split; [|reflexivity]. now rewrite Hnone.
Qed.

Lemma replaceFirst_In (a y : string) l :
  In a l -> In y (replaceFirst a y l).
Proof.
  induction l as [|x l IH]; [intros []|]. simpl.
  destruct (String.eqb x a) eqn:Hx.
  - intros _. now left.
  - intros [-> | Hin]; [rewrite String.eqb_refl in Hx; discriminate|].
    right. now apply IH.
Qed.

Lemma replaceFirst_twice (a b y : string) l :
  a <> b -> In a l -> In b l ->
  ~ NoDup (replaceFirst b y (replaceFirst a y l)).
Proof.
  intros Hab. induction l as [|x l IH]; [intros []|]. simpl.
  intros Ha Hb.
  destruct (String.eqb x a) eqn:Hxa.
  - apply String.eqb_eq in Hxa. subst x.
    destruct Hb as [Hb | Hb]; [congruence|]. simpl.
    destruct (String.eqb y b) eqn:Hyb.
    + apply String.eqb_eq in Hyb. subst y.
      intros Hnd. inversion Hnd; subst. contradiction.
    + intros Hnd. inversion Hnd as [|? ? Hnotin _]; subst.
      apply Hnotin. now apply replaceFirst_In.
  - apply String.eqb_neq in Hxa.
    destruct Ha as [Ha | Ha]; [congruence|]. simpl.
    destruct (String.eqb x b) eqn:Hxb.
    + intros Hnd. inversion Hnd as [|? ? Hnotin _]; subst.
      apply Hnotin. now apply replaceFirst_In.
    + apply String.eqb_neq in Hxb.
      destruct Hb as [Hb | Hb]; [congruence|].
      intros Hnd. inversion Hnd; subst. now apply (IH Ha Hb).
Qed.

(** X24: the ids after a move followed by an addition.  Moving an
    entity gives it the id [entity_(n+1)] and keeps the count [n], and the
    entity added next gets [entity_(n+1)] again: the scene then has two
    entities with the same id. *)
Theorem add_after_move_repeats_id (scene : Scene.Scene num)
    entityId position position' :
  entityId <> "player"%string ->
  In entityId (map (@Scene.Entity.id num) (Scene.entities scene)) ->
  ~ NoDup (map (@Scene.Entity.id num)
             (Scene.entities
                (Lesson.addEntity (Lesson.moveEntity scene entityId position)
                   position'))).
Proof.
  intros Hne Hin.
  destruct (moveEntity_ids scene entityId position Hne) as [Hids Hlen].
  unfold Lesson.addEntity. simpl. rewrite map_app. simpl.
  rewrite entity_id, Hids, Hlen. intros Hnd.
  apply NoDup_remove_2 in Hnd. apply Hnd. rewrite app_nil_r.
  now apply replaceFirst_In.
Qed.

(** X25: the ids after two moves.  Moving two different entities
    one after the other gives both the id [entity_(n+1)]: the scene then
    has two entities with the same id. *)
Theorem two_moves_repeat_id (scene : Scene.Scene num) a b position position' :
  a <> "player"%string -> b <> "player"%string -> a <> b ->
  In a (map (@Scene.Entity.id num) (Scene.entities scene)) ->
  In b (map (@Scene.Entity.id num) (Scene.entities scene)) ->
  ~ NoDup (map (@Scene.Entity.id num)
             (Scene.entities
                (Lesson.moveEntity (Lesson.moveEntity scene a position) b
                   position'))).
Proof.
  intros Ha Hb Hab Hina Hinb.
  destruct (moveEntity_ids scene a position Ha) as [Hids Hlen].
  destruct (moveEntity_ids (Lesson.moveEntity scene a position) b position' Hb)
    as [Hids' _].
  rewrite Hids', Hids, Hlen. now apply replaceFirst_twice.
Qed.

Lemma numbered_snoc (prefix : string) (n : nat) :
  numbered prefix (n + 1)
  = numbered prefix n ++ [(prefix ++ toString (n + 1))%string].
Proof.
  unfold numbered. rewrite seq_snoc, map_app.
  replace (1 + n) with (n + 1) by lia. reflexivity.
Qed.

(** X22: [addEntity] on a scene whose entities are numbered
    [entity_1] ... [entity_n] appends [entity_(n+1)] at the position
    given: the numbering and the distinctness of the ids are kept, the
    player and the mirrors are unchanged. *)
Theorem addEntity_keeps_numbering (scene : Scene.Scene num) position :
  map (@Scene.Entity.id num) (Scene.entities scene)
  = numbered "entity_" (List.length (Scene.entities scene)) ->
  let scene' := Lesson.addEntity scene position in
  map (@Scene.Entity.id num) (Scene.entities scene')
  = numbered "entity_" (List.length (Scene.entities scene')) /\
  NoDup (map (@Scene.Entity.id num) (Scene.entities scene')) /\
  Scene.entities scene'
  = Scene.entities scene
    ++ [Scene.entity position
          ("entity_" ++ toString (List.length (Scene.entities scene) + 1))] /\
  Scene.player scene' = Scene.player scene /\
  Scene.mirrors scene' = Scene.mirrors scene.
Proof.
  intros Hids scene'. unfold scene', Lesson.addEntity.
  cbn [Scene.entities Scene.player Scene.mirrors].
  assert (Hnew : map (@Scene.Entity.id num)
                   (Scene.entities scene
                    ++ [Scene.entity position
                          ("entity_" ++ toString (List.length (Scene.entities scene) + 1))])
                 = numbered "entity_"
                     (List.length
                        (Scene.entities scene
                         ++ [Scene.entity position
                               ("entity_"
                                ++ toString (List.length (Scene.entities scene) + 1))]))).
  { rewrite map_app, length_app. cbn [map List.length].
    rewrite entity_id, numbered_snoc. now rewrite <- Hids. }
  split; [exact Hnew|]. split; [|auto].
  rewrite Hnew. apply names_NoDup.
Qed.
End EditFacts.

Section PickingFacts.
Local Open Scope R_scope.

(** X26: [findEntityAtPosition] picks the player when the position
    is within [PLAYER_RADIUS] = 12 of it, before any entity; otherwise the
    first entity of the list within [CLICK_RADIUS] = 20, and nothing when
    none is that close. *)
Theorem findEntityAtPosition_picks (player : option (Scene.Player.t R))
    (entities : list (Scene.Entity.t R)) (position : vec2.t R) :
  match Input.findEntityAtPosition player entities position with
  | Some (inl p) =>
      player = Some p /\
      vec2.distance position (Scene.Player.position p) <= 12
  | Some (inr e) =>
      (forall p, player = Some p ->
                 12 < vec2.distance position (Scene.Player.position p)) /\
      exists before after,
        entities = before ++ e :: after /\
        vec2.distance position (Scene.Entity.position e) <= 20 /\
        Forall (fun e' => 20 < vec2.distance position (Scene.Entity.position e'))
          before
  | None =>
      (forall p, player = Some p ->
                 12 < vec2.distance position (Scene.Player.position p)) /\
      Forall (fun e' => 20 < vec2.distance position (Scene.Entity.position e'))
        entities
  end.
Proof.
  assert (Hfind :
    match find (fun entity =>
                  num_leb (vec2.distance position (Scene.Entity.position entity))
                    Input.CLICK_RADIUS) entities with
    | Some e =>
        exists before after,
          entities = before ++ e :: after /\
          vec2.distance position (Scene.Entity.position e) <= 20 /\
          Forall (fun e' => 20 < vec2.distance position (Scene.Entity.position e'))
            before
    | None =>
        Forall (fun e' => 20 < vec2.distance position (Scene.Entity.position e'))
          entities
    end).
  { induction entities as [|x l IH]; cbn [find]; [constructor|].
    destruct (num_leb (vec2.distance position (Scene.Entity.position x))
                Input.CLICK_RADIUS) eqn:Hx.
    - apply num_leb_R in Hx. exists [], l. auto.
    - apply num_leb_R_false in Hx.
      destruct (find _ l) as [e|].
      + destruct IH as [before [after [-> [Hd Hb]]]].
        exists (x :: before), after. auto.
      + constructor; assumption. }
  unfold Input.findEntityAtPosition.
  destruct player as [p|].
  - destruct (num_leb (vec2.distance position (Scene.Player.position p))
                Scene.PLAYER_RADIUS) eqn:Hp.
    + apply num_leb_R in Hp. split; [reflexivity | exact Hp].
    + apply num_leb_R_false in Hp.
      destruct (find _ entities) as [e|]; (split; [|exact Hfind]);
        intros p' Hp'; injection Hp' as <-; exact Hp.
  - destruct (find _ entities) as [e|]; (split; [|exact Hfind]);
      intros p' Hp'; discriminate.
Qed.
End PickingFacts.

Section PresetExamples.
Local Open Scope string_scope.

(** The presets are built: each chain has a player, an entity and a
    mirror. *)
Lemma presets_built :
  (exists scene, @Presets.singleMirror R _ _ = Some scene /\
     map (@Scene.Entity.id R) (Scene.entities scene) = ["entity_1"] /\
     map (@Scene.Mirror.id R) (Scene.mirrors scene) = ["mirror_1"]) /\
  (exists scene, @Presets.twoMirrors R _ _ = Some scene /\
     map (@Scene.Entity.id R) (Scene.entities scene) = ["entity_1"; "entity_2"] /\
     map (@Scene.Mirror.id R) (Scene.mirrors scene) = ["mirror_1"; "mirror_2"]) /\
  (exists scene, @Presets.threeMirrors R _ _ = Some scene /\
     map (@Scene.Entity.id R) (Scene.entities scene) = ["entity_1"; "entity_2"] /\
     map (@Scene.Mirror.id R) (Scene.mirrors scene)
     = ["mirror_1"; "mirror_2"; "mirror_3"]).
Proof.
  repeat split; eexists; (split; [reflexivity|]); split; reflexivity.
Qed.

(** The preset [singleMirror] is such a built scene. *)
Lemma built_scene_ids_witness :
  exists scene,
    @Presets.singleMirror R _ _ = Some scene /\
    map (@Scene.Entity.id R) (Scene.entities scene)
    = numbered "entity_" (List.length (Scene.entities scene)) /\
    map (@Scene.Mirror.id R) (Scene.mirrors scene)
    = numbered "mirror_" (List.length (Scene.mirrors scene)) /\
    NoDup (map (@Scene.Entity.id R) (Scene.entities scene)) /\
    NoDup (map (@Scene.Mirror.id R) (Scene.mirrors scene)).
Proof.
  destruct presets_built as [[scene [Hbuild _]] _].
  exists scene. split; [exact Hbuild|].
  exact (built_scene_ids _ scene Hbuild).
Defined.

(** An entity added to the preset [threeMirrors], at the position the
    driver uses. *)
Lemma addEntity_keeps_numbering_witness :
  exists scene,
    @Presets.threeMirrors R _ _ = Some scene /\
    map (@Scene.Entity.id R) (Scene.entities scene)
    = numbered "entity_" (List.length (Scene.entities scene)) /\
    let scene' := Lesson.addEntity scene (400, 250)%R in
    map (@Scene.Entity.id R) (Scene.entities scene')
    = numbered "entity_" (List.length (Scene.entities scene')) /\
    NoDup (map (@Scene.Entity.id R) (Scene.entities scene')) /\
    Scene.entities scene'
    = (Scene.entities scene
       ++ [Scene.entity (400, 250)%R
             ("entity_" ++ toString (List.length (Scene.entities scene) + 1))%string])%list /\
    Scene.player scene' = Scene.player scene /\
    Scene.mirrors scene' = Scene.mirrors scene.
Proof.
  destruct presets_built as [_ [_ [scene [Hbuild [He _]]]]].
  assert (Hids : map (@Scene.Entity.id R) (Scene.entities scene)
                 = numbered "entity_" (List.length (Scene.entities scene))).
  { rewrite <- (length_map (@Scene.Entity.id R)), He. reflexivity. }
  exists scene. split; [exact Hbuild|]. split; [exact Hids|].
  exact (addEntity_keeps_numbering scene (400, 250)%R Hids).
Defined.

(** In the preset [singleMirror]: [entity_1] is moved, then an entity is
    added. *)
Lemma add_after_move_repeats_id_witness :
  exists scene,
    @Presets.singleMirror R _ _ = Some scene /\
    "entity_1" <> "player" /\
    In "entity_1" (map (@Scene.Entity.id R) (Scene.entities scene)) /\
    ~ NoDup (map (@Scene.Entity.id R)
               (Scene.entities
                  (Lesson.addEntity
                     (Lesson.moveEntity scene "entity_1" (350, 300)%R)
                     (400, 250)%R))).
Proof.
  destruct presets_built as [[scene [Hbuild [He _]]] _].
  assert (Hne : "entity_1" <> "player") by discriminate.
  assert (Hin : In "entity_1" (map (@Scene.Entity.id R) (Scene.entities scene))).
  { rewrite He. now left. }
  exists scene. split; [exact Hbuild|]. split; [exact Hne|]. split; [exact Hin|].
  exact (add_after_move_repeats_id scene "entity_1" (350, 300)%R (400, 250)%R
           Hne Hin).
Defined.

(** In the preset [twoMirrors]: [entity_1] is moved, then [entity_2]. *)
Lemma two_moves_repeat_id_witness :
  exists scene,
    @Presets.twoMirrors R _ _ = Some scene /\
    "entity_1" <> "player" /\ "entity_2" <> "player" /\
    "entity_1" <> "entity_2" /\
    In "entity_1" (map (@Scene.Entity.id R) (Scene.entities scene)) /\
    In "entity_2" (map (@Scene.Entity.id R) (Scene.entities scene)) /\
    ~ NoDup (map (@Scene.Entity.id R)
               (Scene.entities
                  (Lesson.moveEntity
                     (Lesson.moveEntity scene "entity_1" (350, 300)%R)
                     "entity_2" (400, 200)%R))).
Proof.
  destruct presets_built as [_ [[scene [Hbuild [He _]]] _]].
  assert (H1 : "entity_1" <> "player") by discriminate.
  assert (H2 : "entity_2" <> "player") by discriminate.
  assert (H12 : "entity_1" <> "entity_2") by discriminate.
  assert (Hin1 : In "entity_1" (map (@Scene.Entity.id R) (Scene.entities scene))).
  { rewrite He. now left. }
  assert (Hin2 : In "entity_2" (map (@Scene.Entity.id R) (Scene.entities scene))).
  { rewrite He. right. now left. }
  exists scene. split; [exact Hbuild|]. repeat (split; [assumption|]).
  exact (two_moves_repeat_id scene "entity_1" "entity_2" (350, 300)%R
           (400, 200)%R H1 H2 H12 Hin1 Hin2).
Defined.
End PresetExamples.

(** * The selection of [trace] *)

Section SelectionOrder.
Context {num : Type} `{Number num} `{Storage num}.
Local Open Scope num_scope.

Lemma lastIntersection_last (ray : Ray.Ray num) rest final :
  Ray.history ray = rest ++ [final] -> Ray.lastIntersection ray = final.
Proof.
  intros Hh. unfold Ray.lastIntersection. rewrite Hh, length_app.
  simpl List.length.
  replace (List.length rest + 1 - 1)%nat with (List.length rest) by lia.
  apply nth_middle.
Qed.

(** A ray that the loop of [traceRay] returns has a last point: the hit
    pushed just before it returns. *)
Lemma traceLoop_last remaining (scene : Scene.Scene num) ray o d hitMirror r :
  Ray.traceLoop remaining scene ray o d hitMirror = Some r ->
  exists rest final, Ray.history r = rest ++ [final].
Proof.
  revert ray o d hitMirror.
  induction remaining as [|k IH]; intros ray o d hitMirror Hrun; [discriminate|].
  simpl in Hrun.
  destruct (Ray.findNearestIntersection o d scene true) as [n|]; [|discriminate].
  destruct (truthy (Ray.Intersection.mirrorId n)).
  - now apply IH in Hrun.
  - destruct (hitMirror && truthy (Ray.Intersection.entityId n)); [|discriminate].
    injection Hrun as <-. cbn [Ray.history]. eauto.
Qed.

Lemma traceRay_last (scene : Scene.Scene num) o d maxBounces r :
  Ray.traceRay o d scene maxBounces = Some r ->
  exists rest final, Ray.history r = rest ++ [final].
Proof. unfold Ray.traceRay. apply traceLoop_last. Qed.

Lemma castRay_last (scene : Scene.Scene num) i c :
  In c (Ray.castRay scene i) ->
  exists rest final, Ray.history c = rest ++ [final].
Proof.
  unfold Ray.castRay.
  set (direction := vec2.fromValues _ _). clearbody direction.
  destruct (Ray.traceRay _ direction scene Ray.MAX_BOUNCES) as [ray|] eqn:Hray;
    [|intros []].
  destruct (_ && _); [|intros []].
  intros [<- | []]. exact (traceRay_last _ _ _ _ _ Hray).
Qed.

(** A candidate has a last point: its history ends with the hit on the
    entity. *)
Lemma candidate_history (scene : Scene.Scene num) c :
  In c (Ray.castRays scene) ->
  exists rest final, Ray.history c = rest ++ [final].
Proof.
  unfold Ray.castRays. rewrite in_flat_map. intros [i [_ Hin]].
  now apply castRay_last in Hin.
Qed.

Lemma byDistanceTo_notFarther (e : Scene.Entity.t num) a b :
  (Ray.byDistanceTo e a b <=? ofZ 0) = true <->
  notFarther
    (vec2.distance (Ray.lastIntersection a) (Scene.Entity.position e))
    (vec2.distance (Ray.lastIntersection b) (Scene.Entity.position e)).
Proof. reflexivity. Qed.

Section Order.
Variable e : Scene.Entity.t num.
Variable compared : Ray.Ray num -> Prop.
Hypothesis compared_total :
  forall a b, compared a -> compared b ->
    notFarther
      (vec2.distance (Ray.lastIntersection a) (Scene.Entity.position e))
      (vec2.distance (Ray.lastIntersection b) (Scene.Entity.position e)) \/
    notFarther
      (vec2.distance (Ray.lastIntersection b) (Scene.Entity.position e))
      (vec2.distance (Ray.lastIntersection a) (Scene.Entity.position e)).
Hypothesis compared_trans :
  forall a b c, compared a -> compared b -> compared c ->
    notFarther
      (vec2.distance (Ray.lastIntersection a) (Scene.Entity.position e))
      (vec2.distance (Ray.lastIntersection b) (Scene.Entity.position e)) ->
    notFarther
      (vec2.distance (Ray.lastIntersection b) (Scene.Entity.position e))
      (vec2.distance (Ray.lastIntersection c) (Scene.Entity.position e)) ->
    notFarther
      (vec2.distance (Ray.lastIntersection a) (Scene.Entity.position e))
      (vec2.distance (Ray.lastIntersection c) (Scene.Entity.position e)).

(** The first element of the sorted array is not farther than any
    other. *)
Lemma sort_head_least l r :
  Forall compared l ->
  hd_error (Ray.sort (Ray.byDistanceTo e) l) = Some r ->
  Forall (fun c =>
            notFarther
              (vec2.distance (Ray.lastIntersection r) (Scene.Entity.position e))
              (vec2.distance (Ray.lastIntersection c) (Scene.Entity.position e)))
         l.
Proof.
  revert r. induction l as [|a l IH]; intros r Hl Hhd; [constructor|].
  inversion Hl as [|? ? Ha Hl']; subst.
  simpl in Hhd.
  destruct (Ray.sort (Ray.byDistanceTo e) l) as [|b s] eqn:Hs.
  - apply sort_nil in Hs. subst l. simpl in Hhd. injection Hhd as <-.
    constructor; [|constructor].
    destruct (compared_total a a Ha Ha); assumption.
  - assert (Hb : compared b).
    { rewrite Forall_forall in Hl'. apply Hl'.
      apply (sort_In (Ray.byDistanceTo e)). rewrite Hs. now left. }
    specialize (IH b Hl' eq_refl). cbn [Ray.insertSorted] in Hhd.
    destruct (Ray.byDistanceTo e a b <=? ofZ 0) eqn:Hcmp; cbn [hd_error] in Hhd;
      injection Hhd as <-.
    + apply byDistanceTo_notFarther in Hcmp. constructor.
      * destruct (compared_total a a Ha Ha); assumption.
      * rewrite Forall_forall in *. intros c Hc.
        exact (compared_trans a b c Ha Hb (Hl' c Hc) Hcmp (IH c Hc)).
    + constructor; [|exact IH].
      destruct (compared_total a b Ha Hb) as [Hle | Hle]; [|exact Hle].
      apply byDistanceTo_notFarther in Hle. congruence.
Qed.
End Order.

(** The distance the comparator computes for a candidate is one of the
    distances of [finalDistance]. *)
Lemma candidate_finalDistance (scene : Scene.Scene num) e c :
  In c (Ray.castRays scene) ->
  Ray.entityId c = Some (Scene.Entity.id e) ->
  finalDistance scene e
    (vec2.distance (Ray.lastIntersection c) (Scene.Entity.position e)).
Proof.
  intros Hc Hid. destruct (candidate_history scene c Hc) as [rest [final Hhist]].
  exists c, rest, final. rewrite (lastIntersection_last c rest final Hhist). auto.
Qed.

Lemma bestRay_least rays (e : Scene.Entity.t num) (compared : Ray.Ray num -> Prop) r c :
  (forall a b, compared a -> compared b ->
     notFarther
       (vec2.distance (Ray.lastIntersection a) (Scene.Entity.position e))
       (vec2.distance (Ray.lastIntersection b) (Scene.Entity.position e)) \/
     notFarther
       (vec2.distance (Ray.lastIntersection b) (Scene.Entity.position e))
       (vec2.distance (Ray.lastIntersection a) (Scene.Entity.position e))) ->
  (forall a b c, compared a -> compared b -> compared c ->
     notFarther
       (vec2.distance (Ray.lastIntersection a) (Scene.Entity.position e))
       (vec2.distance (Ray.lastIntersection b) (Scene.Entity.position e)) ->
     notFarther
       (vec2.distance (Ray.lastIntersection b) (Scene.Entity.position e))
       (vec2.distance (Ray.lastIntersection c) (Scene.Entity.position e)) ->
     notFarther
       (vec2.distance (Ray.lastIntersection a) (Scene.Entity.position e))
       (vec2.distance (Ray.lastIntersection c) (Scene.Entity.position e))) ->
  (forall x, In x rays -> Ray.entityId x = Some (Scene.Entity.id e) -> compared x) ->
  Ray.bestRay rays e = Some r ->
  In c rays ->
  Ray.entityId c = Some (Scene.Entity.id e) ->
  notFarther
    (vec2.distance (Ray.lastIntersection r) (Scene.Entity.position e))
    (vec2.distance (Ray.lastIntersection c) (Scene.Entity.position e)).
Proof.
  unfold Ray.bestRay. intros Htotal Htrans Hcompared Hhd Hc Hid.
  apply (sort_head_least e compared Htotal Htrans) in Hhd.
  - rewrite Forall_forall in Hhd. apply Hhd.
    apply filter_In. split; [assumption|]. now apply targets_true.
  - apply Forall_forall. intros x Hx. apply filter_In in Hx.
    destruct Hx as [Hx Ht]. apply Hcompared; [assumption|].
    now apply targets_true.
Qed.

(** What [bestRay] returns for an entity, among the candidates. *)
Lemma bestRay_selectedFor (scene : Scene.Scene num) e pick :
  ordersCandidates scene e ->
  Ray.bestRay (Ray.castRays scene) e = pick ->
  selectedFor scene e pick.
Proof.
  intros [Htotal Htrans] Hbest. destruct pick as [r|]; unfold selectedFor.
  - destruct (bestRay_In _ _ _ Hbest) as [Hin Hid].
    split; [assumption|]. split; [assumption|].
    destruct (candidate_history scene r Hin) as [rest [final Hhist]].
    exists rest, final. split; [assumption|].
    intros c rest' final' Hc Hidc Hhistc.
    rewrite <- (lastIntersection_last r rest final Hhist),
            <- (lastIntersection_last c rest' final' Hhistc).
    apply (bestRay_least (Ray.castRays scene) e
             (fun x => finalDistance scene e
                         (vec2.distance (Ray.lastIntersection x)
                            (Scene.Entity.position e))) r c);
      try assumption.
    + intros a b Ha Hb. apply Htotal; assumption.
    + intros a b c0 Ha Hb Hc0. apply Htrans; assumption.
    + intros x Hx Hidx. now apply candidate_finalDistance.
  - apply bestRay_None in Hbest. intros c Hc Hid.
    assert (Hex : existsb (fun ray => Ray.targets ray e) (Ray.castRays scene) = true).
    { apply existsb_exists. exists c. split; [assumption|]. now apply targets_true. }
    congruence.
Qed.

Lemma selection_Forall2 (scene : Scene.Scene num) (l : list (Scene.Entity.t num)) :
  Forall (ordersCandidates scene) l ->
  Forall2 (selectedFor scene) l (map (Ray.bestRay (Ray.castRays scene)) l).
Proof.
  induction l as [|e l IH]; intros Hl; [constructor|].
  inversion Hl as [|? ? He Hl']; subst.
  cbn [map]. constructor; [now apply bestRay_selectedFor | now apply IH].
Qed.

(** With distinct entity ids, the ids of the rays kept are distinct. *)
Lemma selected_ids_NoDup rays (l : list (Scene.Entity.t num)) :
  NoDup (map (@Scene.Entity.id num) l) ->
  NoDup (map (@Ray.entityId num) (Ray.filterBoolean (map (Ray.bestRay rays) l))).
Proof.
  intros Hnd. rewrite selected_ids, <- (map_map (@Scene.Entity.id num) Some).
  apply Injective_map_NoDup; [intros x y Hxy; congruence|].
  induction l as [|e l IH]; [constructor|].
  simpl in Hnd |- *. inversion Hnd as [|? ? Hfresh Hnd']; subst.
  destruct (existsb _ rays); [|now apply IH].
  simpl. constructor; [|now apply IH].
  intros Hin. apply Hfresh. apply in_map_iff in Hin.
  destruct Hin as [x [Hx Hin]]. apply filter_In in Hin.
  rewrite <- Hx. apply in_map. tauto.
Qed.

(** What [trace] keeps, when the comparator orders the candidates of
    every entity. *)
Lemma trace_selection (scene : Scene.Scene num) :
  Forall (ordersCandidates scene) (Scene.entities scene) ->
  exists picks,
    Forall2 (selectedFor scene) (Scene.entities scene) picks /\
    Ray.trace scene = kept picks /\
    (NoDup (map (@Scene.Entity.id num) (Scene.entities scene)) ->
     NoDup (map (@Ray.entityId num) (Ray.trace scene))).
Proof.
  intros Horder.
  exists (map (Ray.bestRay (Ray.castRays scene)) (Scene.entities scene)).
  split; [now apply selection_Forall2|].
  split; [reflexivity | apply selected_ids_NoDup].
Qed.
End SelectionOrder.

Section SameIdTwice.
Import Scenes.
Local Open Scope R_scope.
Local Open Scope string_scope.

Lemma rayLineIntersection_outside (ox oy dx dy sx sy ex ey : R) :
  let u := ((sx - ox) * dy - (sy - oy) * dx) / (dx * (ey - sy) - dy * (ex - sx)) in
  u < 0 \/ 1 < u ->
  Ray.rayLineIntersection (ox, oy) (dx, dy) (sx, sy) (ex, ey) = None.
Proof.
  intros u Hu. unfold Ray.rayLineIntersection, vec2.sub. cbn [fst snd Math_fround exactStorage].
  destruct (num_ltb (Math_abs _) Ray.EPSILON); [reflexivity|].
  destruct (num_ltb _ Ray.EPSILON); [reflexivity|].
  assert (Hout : num_ltb
                   (((sx - ox) * dy - (sy - oy) * dx)
                    / (dx * (ey - sy) - dy * (ex - sx)))%num (ofZ 0)
                 || num_ltb (ofZ 1)
                      (((sx - ox) * dy - (sy - oy) * dx)
                       / (dx * (ey - sy) - dy * (ex - sx)))%num = true).
  { apply orb_true_iff. destruct Hu as [Hu | Hu]; [left | right];
      apply num_ltb_R; exact Hu. }
  now rewrite Hout.
Qed.

Ltac ray_line_miss2 :=
  first [ rewrite rayLineIntersection_parallel by lra
        | rewrite rayLineIntersection_behind by lra
        | rewrite rayLineIntersection_outside by lra ].

(** The scene is the one the driver reaches from the preset. *)
Lemma sameIdTwice_reached :
  Lesson.addEntity (Lesson.moveEntity singleMirrorPreset "entity_1" (450, 300))
    (400, 250)
  = sameIdTwice.
Proof. reflexivity. Qed.

Lemma singleMirrorPreset_built :
  @Presets.singleMirror R _ _ = Some singleMirrorPreset.
Proof. reflexivity. Qed.

Lemma nearest_towards_mirror2 :
  Ray.findNearestIntersection (400, 300) (-1, 0) sameIdTwice true
  = Some (Ray.Intersection.mk (300, 300) 100 (-1, 0) (Some "mirror_1") None).
Proof.
  unfold Ray.findNearestIntersection, sameIdTwice, mirror_1.
  cbn [Scene.mirrors Scene.entities fold_left negb].
  unfold Ray.nearestMirrorStep.
  cbn [Scene.Mirror.start Scene.Mirror.end_ Scene.Mirror.id].
  rewrite rayLineIntersection_hit by lra.
  cbn [Ray.closer Ray.Intersection.point Ray.Intersection.distance
       Ray.Intersection.normal Ray.Intersection.entityId].
  unfold Ray.nearestEntityStep, Scene.entity, Ray.rayTriangleIntersection,
    Scene.ENTITY_SIZE, vec2.fromValues.
  cbn [Scene.Entity.vertices Ray.firstEdgeHit ofZ RNumber num_add num_sub Math_fround exactStorage].
  repeat ray_line_miss2.
  replace (- (400 - 200)) with (-200) by lra.
  replace (300 - 300) with 0 by lra.
  rewrite normalize_left by lra.
  do 2 f_equal; [f_equal|]; lra.
Qed.

Lemma nearest_after_bounce2 :
  exists normal,
    Ray.findNearestIntersection (300, 300) (1, 0) sameIdTwice true
    = Some (Ray.Intersection.mk (446, 300) 146 normal None (Some "entity_2")).
Proof.
  unfold Ray.findNearestIntersection, sameIdTwice, mirror_1.
  cbn [Scene.mirrors Scene.entities fold_left negb].
  unfold Ray.nearestMirrorStep.
  cbn [Scene.Mirror.start Scene.Mirror.end_ Scene.Mirror.id].
  ray_line_miss2.
  unfold Ray.nearestEntityStep, Scene.entity, Ray.rayTriangleIntersection,
    Scene.ENTITY_SIZE, vec2.fromValues.
  cbn [Scene.Entity.vertices Ray.firstEdgeHit ofZ RNumber num_add num_sub Math_fround exactStorage].
  rewrite (rayLineIntersection_hit 300 300 1 0 450 (300 - 8) (450 - 8) (300 + 8))
    by lra.
  repeat ray_line_miss2.
  cbn [Ray.closer Ray.Intersection.point Ray.Intersection.distance
       Ray.Intersection.normal Ray.Intersection.mirrorId Scene.Entity.id].
  eexists. do 2 f_equal; [f_equal|]; lra.
Qed.

Lemma traceRay_sameIdTwice :
  Ray.traceRay (400, 300) (-1, 0) sameIdTwice Ray.MAX_BOUNCES
  = Some bouncedRay2.
Proof.
  unfold Ray.traceRay, Ray.MAX_BOUNCES, vec2.clone. cbn [fst snd Math_fround exactStorage].
  rewrite traceLoop_step, nearest_towards_mirror2.
  cbn [Ray.Intersection.mirrorId Ray.Intersection.point Ray.Intersection.normal
       truthy String.eqb Ascii.eqb Bool.eqb negb fst snd Ray.history Ray.origin Ray.direction
       Ray.entityId app].
  rewrite reflect_off_mirror_1.
  unfold vec2.clone. cbn [fst snd Math_fround exactStorage].
  rewrite traceLoop_step.
  destruct nearest_after_bounce2 as [normal ->].
  reflexivity.
Qed.

Lemma castRay_sameIdTwice : Ray.castRay sameIdTwice 64 = [bouncedRay2].
Proof.
  unfold Ray.castRay, Ray.rayCount.
  assert (Hangle : (ofZ (Z.of_nat 64) / ofZ (Z.of_nat 128) * Math_PI * ofZ 2)%num
                   = PI).
  { cbn. field. }
  rewrite Hangle. cbn [Math_cos Math_sin RNumber].
  rewrite cos_PI, sin_PI. unfold vec2.fromValues.
  cbn [Math_fround exactStorage].
  cbn [sameIdTwice Scene.player Scene.Player.position].
  change (Ray.traceRay (400, 300) (-1, 0)
            {| Scene.player := {| Scene.Player.position := (400, 300) |};
               Scene.entities := [Scene.entity (450, 300) "entity_2";
                                  Scene.entity (400, 250) "entity_2"];
               Scene.mirrors := [mirror_1] |} Ray.MAX_BOUNCES)
    with (Ray.traceRay (400, 300) (-1, 0) sameIdTwice Ray.MAX_BOUNCES).
  rewrite traceRay_sameIdTwice. reflexivity.
Qed.

Lemma castRays_sameIdTwice : In bouncedRay2 (Ray.castRays sameIdTwice).
Proof.
  rewrite castRays_eq. apply in_flat_map. exists 64%nat. split.
  - apply in_seq. unfold Ray.rayCount. lia.
  - rewrite castRay_sameIdTwice. now left.
Qed.

Lemma entities_sameIdTwice :
  Scene.entities sameIdTwice
  = [Scene.entity (450, 300) "entity_2"; Scene.entity (400, 250) "entity_2"].
Proof. reflexivity. Qed.

(** [trace] on a scene of two entities, each with a candidate. *)
Lemma trace_two_entities (scene : Scene.Scene R) e1 e2 :
  Scene.entities scene = [e1; e2] ->
  hasCandidate scene e1 = true ->
  hasCandidate scene e2 = true ->
  exists r1 r2,
    Ray.trace scene = [r1; r2] /\
    Ray.entityId r1 = Some (Scene.Entity.id e1) /\
    Ray.entityId r2 = Some (Scene.Entity.id e2).
Proof.
  rewrite trace_eq, !hasCandidate_eq. intros -> Hex1 Hex2.
  generalize dependent (Ray.castRays scene). intros rays Hex1 Hex2.
  destruct (Ray.bestRay rays e1) as [r1|] eqn:Hbest1;
    [|apply bestRay_None in Hbest1; congruence].
  destruct (Ray.bestRay rays e2) as [r2|] eqn:Hbest2;
    [|apply bestRay_None in Hbest2; congruence].
  exists r1, r2. simpl. rewrite Hbest1, Hbest2.
  apply bestRay_In in Hbest1, Hbest2. tauto.
Qed.

(** C4 fails when two entities have the same id.  The driver moves
    [entity_1] of the preset [singleMirror] to (450,300), which renames it
    [entity_2], and adds an entity at (400,250), which is named
    [entity_2] too; [trace] then returns two rays with the id
    [entity_2]. *)
Lemma trace_two_rays_for_one_id :
  exists preset r1 r2,
    Presets.singleMirror = Some preset /\
    Ray.trace
      (Lesson.addEntity (Lesson.moveEntity preset "entity_1" (450, 300))
         (400, 250))
    = [r1; r2] /\
    Ray.entityId r1 = Some "entity_2" /\ Ray.entityId r2 = Some "entity_2".
Proof.
  exists singleMirrorPreset.
  cut (exists r1 r2,
         Ray.trace
           (Lesson.addEntity
              (Lesson.moveEntity singleMirrorPreset "entity_1" (450, 300))
              (400, 250))
         = [r1; r2] /\
         Ray.entityId r1 = Some "entity_2" /\ Ray.entityId r2 = Some "entity_2").
  { intros [r1 [r2 Hrays]]. exists r1, r2.
    split; [exact singleMirrorPreset_built | exact Hrays]. }
  rewrite sameIdTwice_reached.
  assert (Hcand : forall e, Scene.Entity.id e = "entity_2" ->
                            hasCandidate sameIdTwice e = true).
  { intros e He. rewrite hasCandidate_eq. apply existsb_exists.
    exists bouncedRay2. split; [apply castRays_sameIdTwice|].
    apply targets_true. now rewrite He. }
  exact (trace_two_entities sameIdTwice _ _ entities_sameIdTwice
           (Hcand (Scene.entity (450, 300) "entity_2") eq_refl)
           (Hcand (Scene.entity (400, 250) "entity_2") eq_refl)).
Qed.

End SameIdTwice.

Section SelectionClaim.
Local Open Scope R_scope.

Lemma notFarther_R (a b : R) : notFarther a b <-> a <= b.
Proof. unfold notFarther. rewrite num_leb_R. cbn. lra. Qed.

Lemma ordersCandidates_R (storage : Storage R) (scene : Scene.Scene R) e :
  ordersCandidates scene e.
Proof.
  split.
  - intros a b _ _. rewrite !notFarther_R. lra.
  - intros a b c _ _ _. rewrite !notFarther_R. lra.
Qed.

(** C4, as the code has it: [trace] returns one ray for each entity of
    the list that some candidate ray carries the id of, in the order of
    the list, and nothing for the other entities.  The ray kept for an
    entity is a candidate with the id of the entity whose final history
    point is not farther from the position of the entity, in Euclidean
    distance, than the final history point of any candidate with that id.
    When the ids of the entities are distinct, so are the ids of the rays
    returned: at most one ray per entity id.  (Two entities with the same
    id each get a ray with that id.)  This holds for every arithmetic and
    every storage, as long as the test [a - b <= 0] of the comparator
    orders the distances of the candidates of each entity.  On the real
    numbers it does, for every scene: there the test is [a <= b] and the
    distance is the Euclidean one. *)
Theorem trace_one_ray_per_entity :
  (forall (num : Type) (arithmetic : Number num) (storage : Storage num)
          (scene : Scene.Scene num),
     Forall (ordersCandidates scene) (Scene.entities scene) ->
     exists picks,
       Forall2 (selectedFor scene) (Scene.entities scene) picks /\
       Ray.trace scene = kept picks /\
       (NoDup (map (@Scene.Entity.id num) (Scene.entities scene)) ->
        NoDup (map (@Ray.entityId num) (Ray.trace scene)))) /\
  (forall (storage : Storage R) (scene : Scene.Scene R),
     exists picks,
       Forall2 (selectedFor scene) (Scene.entities scene) picks /\
       Ray.trace scene = kept picks /\
       (NoDup (map (@Scene.Entity.id R) (Scene.entities scene)) ->
        NoDup (map (@Ray.entityId R) (Ray.trace scene)))) /\
  (forall a b : R, notFarther a b <-> a <= b) /\
  (forall x y x' y' : R,
     vec2.distance (x, y) (x', y')
     = sqrt ((x' - x) * (x' - x) + (y' - y) * (y' - y))).
Proof.
  split; [|split; [|split]].
  - intros num arithmetic storage scene. apply trace_selection.
  - intros storage scene. apply trace_selection.
    apply Forall_forall. intros e _. apply ordersCandidates_R.
  - exact notFarther_R.
  - reflexivity.
Qed.
End SelectionClaim.

(** * The tracer on the numbers of the implementation *)

Section StoredTrace.
Context {num : Type} `{Number num} `{Storage num}.


End StoredTrace.

Section SlantedMirrorExact.
Import Scenes.
Local Open Scope R_scope.
Local Open Scope string_scope.






End SlantedMirrorExact.

Section SlantedMirrorRun.
Import PrimFloat Binary64Scenes.
Variables cos sin : PrimFloat.float -> PrimFloat.float.




End SlantedMirrorRun.
